(** * PR Enhancer: the DOM reconciliation engine

    A shallow embedding of the content scripts of the extension
    (core.js, comments.js, sorting.js, ui.js, content.js) over a model of
    the browser's DOM, with the preference handling of the service
    worker (background.js), and the properties of the specification
    proved or refuted on it.

    The DOM is the shared mutable store of the program: it is modelled as
    a heap of nodes addressed by node identity, with parent pointers and
    ordered child lists, the way the DOM standard describes it. *)

From Stdlib Require Import ZArith String Ascii List Lia Permutation.
From stdpp Require Import base option list gmap strings pretty sorting.

Local Open Scope string_scope.
Local Open Scope Z_scope.

(* ===================================================================== *)
(** ** JavaScript values used by the scripts *)
(* ===================================================================== *)

Module Js.

(** Identifiers, attribute values and URLs are only compared and
    searched: they are [string]s. Text content is measured and cut by
    the scripts ([length], [substring]), which JavaScript does in UTF-16
    code units: text is a list of code units. *)
Definition text := list N.

Definition units (s : string) : text :=
  map (λ c, N_of_ascii c) (list_ascii_of_string s).

(** [String.prototype.includes] *)
Fixpoint includes (s sub : string) : bool :=
  String.prefix sub s ||
  match s with
  | EmptyString => false
  | String _ r => includes r sub
  end.

Fixpoint startsWithU (s sub : text) : bool :=
  match sub, s with
  | [], _ => true
  | _ :: _, [] => false
  | c :: sub', d :: s' => (c =? d)%N && startsWithU s' sub'
  end.

Fixpoint includesU (s sub : text) : bool :=
  startsWithU s sub ||
  match s with
  | [] => false
  | _ :: r => includesU r sub
  end.

(** [String.prototype.endsWith] *)
Definition endsWith (s suffix : string) : bool :=
  let ls := list_ascii_of_string s in
  let lx := list_ascii_of_string suffix in
  bool_decide (drop (length ls - length lx) ls = lx).

(** White space as matched by [\s] and removed by [trim]. *)
Definition isWhiteSpace (c : N) : bool :=
  ((9 <=? c) && (c <=? 13) || (c =? 32) || (c =? 160) || (c =? 5760)
   || (8192 <=? c) && (c <=? 8202) || (c =? 8232) || (c =? 8233)
   || (c =? 8239) || (c =? 8287) || (c =? 12288) || (c =? 65279))%N.

Fixpoint trimStart (s : text) : text :=
  match s with
  | c :: r => if isWhiteSpace c then trimStart r else s
  | [] => []
  end.

Definition trimEnd (s : text) : text := rev (trimStart (rev s)).

(** [String.prototype.trim] *)
Definition trim (s : text) : text := trimEnd (trimStart s).

(** [s.replace(/\s+/g, " ")]: every maximal run of white space becomes
    one space. [inRun] tells that the unit before was white space. *)
Fixpoint collapseFrom (inRun : bool) (s : text) : text :=
  match s with
  | [] => []
  | c :: r =>
      if isWhiteSpace c
      then (if inRun then collapseFrom true r else 32%N :: collapseFrom true r)
      else c :: collapseFrom false r
  end.

Definition collapseWhiteSpace (s : text) : text := collapseFrom false s.

(** [s.substring(0, n)] *)
Definition substring0 (n : nat) (s : text) : text := take n s.

(** [toLowerCase], on the letters A to Z; the keywords the scripts look
    for in lower-cased text are ASCII. *)
Definition toLowerCase (s : text) : text :=
  map (λ c, if ((65 <=? c) && (c <=? 90))%N then (c + 32)%N else c) s.

(** A [Date] is its time value in milliseconds, [None] for an invalid
    date (time value NaN). A number that may be NaN is modelled the
    same way. *)
Definition Date := option Z.
Definition number := option Z.

Definition minus (a b : number) : number :=
  match a, b with
  | Some x, Some y => Some (x - y)
  | _, _ => None
  end.

(** The date parser of the host, [new Date(string)]: the formats it
    accepts beyond ISO 8601 are left to the implementation. *)
Class Host := { dateParse : string → Date }.

(** [Array.prototype.sort(compare)]: a stable sort; a comparison that
    yields NaN counts as equal. With a consistent comparison every
    stable sort gives this result (lemma [stableSortOf_arraySort]). A
    comparison of dates is consistent when the dates are valid; with an
    invalid date among them it is not, the language leaves the order to
    the engine, and the order below is one of those it allows, not the
    order of a given engine. The theorems on the shape of the order (by
    date, by status, stability, fixed point) are therefore stated for
    valid dates. *)
Definition isPositive (v : number) : bool :=
  match v with
  | Some z => 0 <? z
  | None => false
  end.

Fixpoint insertSorted {A} (compare : A → A → number) (x : A) (l : list A) : list A :=
  match l with
  | [] => [x]
  | y :: r =>
      if isPositive (compare x y) then y :: insertSorted compare x r
      else x :: y :: r
  end.

Definition arraySort {A} (compare : A → A → number) (l : list A) : list A :=
  foldr (insertSorted compare) [] l.

(** [Array.prototype.indexOf], -1 when absent. *)
Fixpoint indexOf (x : string) (l : list string) : Z :=
  match l with
  | [] => -1
  | y :: r =>
      if decide (y = x) then 0
      else let i := indexOf x r in if i <? 0 then -1 else i + 1
  end.

(** Exceptions that the modelled code can meet. *)
Inductive Exn := TypeError | HierarchyRequestError | NotFoundError.

Inductive Result (A : Type) :=
| Ok (a : A)
| Throw (e : Exn).
Arguments Ok {A} a.
Arguments Throw {A} e.

End Js.

Import Js.

(* ===================================================================== *)
(** ** The DOM *)
(* ===================================================================== *)

Module Dom.

Inductive NodeType := ELEMENT_NODE | TEXT_NODE.

Global Instance NodeType_eq_dec : EqDecision NodeType.
Proof. solve_decision. Defined.

(** One node of the heap. [TEXT_NODE] stands for every character-data
    node. [nid] is the reflected [id] attribute of an element (empty when
    absent); on a text node it is the plain script property of that
    name, which the DOM ignores. [attrs] holds the other attributes
    (the [dataset] of an element is its [data-*] attributes). The three
    [offset*] fields are the layout facts the scripts read. *)
Record Node := mkNode {
  nodeType : NodeType;
  localName : string;
  nid : string;
  classList : list string;
  attrs : gmap string string;
  parentNode : option nat;
  childNodes : list nat;
  data : text;
  offsetParent : option nat;
  offsetHeight : Z;
  offsetWidth : Z;
}.

Definition withParent (p : option nat) (n : Node) : Node :=
  mkNode (nodeType n) (localName n) (nid n) (classList n) (attrs n)
         p (childNodes n) (data n)
         (offsetParent n) (offsetHeight n) (offsetWidth n).

Definition withChildNodes (l : list nat) (n : Node) : Node :=
  mkNode (nodeType n) (localName n) (nid n) (classList n) (attrs n)
         (parentNode n) l (data n)
         (offsetParent n) (offsetHeight n) (offsetWidth n).

Definition withId (s : string) (n : Node) : Node :=
  mkNode (nodeType n) (localName n) s (classList n) (attrs n)
         (parentNode n) (childNodes n) (data n)
         (offsetParent n) (offsetHeight n) (offsetWidth n).

Definition withAttrs (a : gmap string string) (n : Node) : Node :=
  mkNode (nodeType n) (localName n) (nid n) (classList n) a
         (parentNode n) (childNodes n) (data n)
         (offsetParent n) (offsetHeight n) (offsetWidth n).

(** The document: the node heap and the root element. *)
Record Document := mkDocument {
  nodes : gmap nat Node;
  documentElement : nat;
}.

Definition withNodes (m : gmap nat Node) (d : Document) : Document :=
  mkDocument m (documentElement d).

Definition isElement (d : Document) (n : nat) : bool :=
  match nodes d !! n with
  | Some nd => bool_decide (nodeType nd = ELEMENT_NODE)
  | None => false
  end.

Definition parentOf (d : Document) (n : nat) : option nat :=
  nd ← nodes d !! n; parentNode nd.

Definition childNodesOf (d : Document) (n : nat) : list nat :=
  match nodes d !! n with
  | Some nd => childNodes nd
  | None => []
  end.

(** [element.children]: the element children. *)
Definition children (d : Document) (n : nat) : list nat :=
  filter (λ k, isElement d k = true) (childNodesOf d n).

Fixpoint after (n : nat) (l : list nat) : option nat :=
  match l with
  | [] => None
  | x :: r => if decide (x = n) then head r else after n r
  end.

(** [node.nextSibling] *)
Definition nextSibling (d : Document) (n : nat) : option nat :=
  p ← parentOf d n; after n (childNodesOf d p).

(** Tree order: a node, then the subtrees of its children, left to
    right. The heap holds finitely many nodes, which bounds the depth
    of a tree in it: [fuel] counts the levels visited. *)
Fixpoint subtree (fuel : nat) (m : gmap nat Node) (n : nat) : list nat :=
  match fuel with
  | O => []
  | S f =>
      match m !! n with
      | Some nd => n :: flat_map (subtree f m) (childNodes nd)
      | None => []
      end
  end.

Definition inclusiveDescendants (d : Document) (n : nat) : list nat :=
  subtree (S (size (nodes d))) (nodes d) n.

Definition descendants (d : Document) (n : nat) : list nat :=
  tail (inclusiveDescendants d n).

(** The nodes of the document tree, in tree order. *)
Definition documentOrder (d : Document) : list nat :=
  inclusiveDescendants d (documentElement d).

Fixpoint ancestorsFrom (fuel : nat) (m : gmap nat Node) (n : nat) : list nat :=
  match fuel with
  | O => []
  | S f =>
      match m !! n ≫= parentNode with
      | Some p => p :: ancestorsFrom f m p
      | None => []
      end
  end.

Definition ancestors (d : Document) (n : nat) : list nat :=
  ancestorsFrom (size (nodes d)) (nodes d) n.

Definition inclusiveAncestors (d : Document) (n : nat) : list nat :=
  n :: ancestors d n.

(** *** Selectors

    The scripts use selector lists of compound selectors: a type, an
    id, classes and attribute tests, without combinators. *)
Record Compound := mkCompound {
  selTag : option string;
  selId : option string;
  selClasses : list string;
  selAttrs : list (string * string);
}.

Definition Selector := list Compound.

Definition byTag (t : string) : Compound := mkCompound (Some t) None [] [].
Definition byId (i : string) : Compound := mkCompound None (Some i) [] [].
Definition byClass (c : string) : Compound := mkCompound None None [c] [].
Definition byAttr (k v : string) : Compound := mkCompound None None [] [(k, v)].
Definition byTagAttr (t k v : string) : Compound :=
  mkCompound (Some t) None [] [(k, v)].

Definition matchesCompound (c : Compound) (nd : Node) : bool :=
  bool_decide (nodeType nd = ELEMENT_NODE)
  && match selTag c with
     | Some t => bool_decide (localName nd = t)
     | None => true
     end
  && match selId c with
     | Some i => bool_decide (nid nd = i)
     | None => true
     end
  && forallb (λ cl, bool_decide (cl ∈ classList nd)) (selClasses c)
  && forallb (λ kv, bool_decide (attrs nd !! kv.1 = Some kv.2)) (selAttrs c).

Definition matchesNode (s : Selector) (nd : Node) : bool :=
  existsb (λ c, matchesCompound c nd) s.

(** [element.matches(selector)] *)
Definition matches (d : Document) (s : Selector) (n : nat) : bool :=
  match nodes d !! n with
  | Some nd => matchesNode s nd
  | None => false
  end.

(** [document.querySelectorAll] *)
Definition querySelectorAll (d : Document) (s : Selector) : list nat :=
  filter (λ n, matches d s n = true) (documentOrder d).

(** [document.querySelector] *)
Definition querySelector (d : Document) (s : Selector) : option nat :=
  head (querySelectorAll d s).

(** [element.querySelectorAll]: the matching descendants of [e]. *)
Definition querySelectorAllIn (d : Document) (e : nat) (s : Selector) : list nat :=
  filter (λ n, matches d s n = true) (descendants d e).

(** [element.querySelector] *)
Definition querySelectorIn (d : Document) (e : nat) (s : Selector) : option nat :=
  head (querySelectorAllIn d e s).

(** [element.closest(selector)] *)
Definition closest (d : Document) (e : nat) (s : Selector) : option nat :=
  head (filter (λ n, matches d s n = true) (inclusiveAncestors d e)).

(** [document.getElementById]; no element has the empty id. *)
Definition getElementById (d : Document) (i : string) : option nat :=
  if decide (i = "") then None
  else head (filter (λ n, matches d [byId i] n = true) (documentOrder d)).

(** [element.getAttribute] for an attribute other than [id] and [class]. *)
Definition getAttribute (d : Document) (e : nat) (k : string) : option string :=
  nd ← nodes d !! e; attrs nd !! k.

Definition idOf (d : Document) (n : nat) : string :=
  match nodes d !! n with
  | Some nd => nid nd
  | None => ""
  end.

(** [node.textContent] of an element: the data of its text descendants
    in tree order. *)
Definition textContent (d : Document) (n : nat) : text :=
  flat_map (λ k, match nodes d !! k with
                 | Some nd => if decide (nodeType nd = TEXT_NODE) then data nd else []
                 | None => []
                 end)
           (inclusiveDescendants d n).

(** [document.body] *)
Definition body (d : Document) : option nat :=
  head (filter (λ k, matches d [byTag "body"; byTag "frameset"] k = true)
               (childNodesOf d (documentElement d))).

(** *** Mutation *)

Definition update (n : nat) (f : Node → Node) (d : Document) : Document :=
  withNodes (alter f n (nodes d)) d.

Definition setAttribute (e : nat) (k v : string) : Document → Document :=
  update e (λ nd, withAttrs (<[k := v]> (attrs nd)) nd).

Definition removeAttribute (e : nat) (k : string) : Document → Document :=
  update e (λ nd, withAttrs (delete k (attrs nd)) nd).

Definition setId (n : nat) (i : string) : Document → Document :=
  update n (withId i).

(** Remove [n] from the child list of its parent. *)
Definition detach (n : nat) (d : Document) : Document :=
  match parentOf d n with
  | Some p =>
      update n (withParent None)
        (update p (λ pd, withChildNodes
                           (filter (λ k, k ≠ n) (childNodes pd)) pd) d)
  | None => d
  end.

Fixpoint insertInto (n : nat) (ref : nat) (l : list nat) : list nat :=
  match l with
  | [] => [n]
  | x :: r => if decide (x = ref) then n :: x :: r else x :: insertInto n ref r
  end.

Definition placeBefore (n : nat) (ref : option nat) (l : list nat) : list nat :=
  match ref with
  | Some r => insertInto n r l
  | None => l ++ [n]
  end.

Definition attach (p n : nat) (ref : option nat) (d : Document) : Document :=
  update n (withParent (Some p))
    (update p (λ pd, withChildNodes (placeBefore n ref (childNodes pd)) pd) d).

(** [parent.insertBefore(node, child)], with the checks of the DOM
    standard that apply to element and text nodes: the parent is an
    element, [node] is not an inclusive ancestor of the parent, and a
    non-null [child] is a child of the parent. A [child] that is [node]
    itself stands for the next sibling of [node]. *)
Definition insertBefore (p n : nat) (child : option nat) (d : Document)
  : Result Document :=
  if negb (isElement d p) then Throw HierarchyRequestError
  else if bool_decide (n ∈ inclusiveAncestors d p) then Throw HierarchyRequestError
  else if match child with
          | Some c => negb (bool_decide (parentOf d c = Some p))
          | None => false
          end then Throw NotFoundError
  else
    let ref := if decide (child = Some n) then nextSibling d n else child in
    Ok (attach p n ref (detach n d)).

(** [parent.appendChild(node)] *)
Definition appendChild (p n : nat) (d : Document) : Result Document :=
  insertBefore p n None d.

End Dom.

Import Dom.

(* ===================================================================== *)
(** ** core.js: configuration, state, utilities *)
(* ===================================================================== *)

Module Core.

(** [SORT_OPTIONS] *)
Definition DATE_OLDEST : string := "date-oldest".
Definition DATE_NEWEST : string := "date-newest".
Definition RESOLVED_LAST : string := "resolved-last".
Definition UNRESOLVED_LAST : string := "unresolved-last".

(** [Object.values(SORT_OPTIONS)], in the order of the literal. *)
Definition SORT_OPTIONS_values : list string :=
  [DATE_OLDEST; DATE_NEWEST; RESOLVED_LAST; UNRESOLVED_LAST].

Definition DEBOUNCE_DELAY : Z := 300.

(** The state object. [debounceTimer] is a timer handle or null. *)
Record State := mkState {
  currentSort : string;
  sortControlsInjected : bool;
  isInitialized : bool;
  debounceTimer : option nat;
}.

Definition initialState : State := mkState DATE_NEWEST false false None.

Inductive Callback := HandleMutations.

Inductive LogEntry :=
| Warn (msg : string)
| Error (msg : string).

(** What a script run can read and change: the document, the location,
    the state object, the clock, the sync storage of the extension (the
    [set] requests issued so far, when the API is there), the console
    and the pending timers. *)
Record World := mkWorld {
  document : Document;
  pathname : string;
  hash : string;
  state : State;
  now : Z;
  hasStorageSync : bool;
  storageSets : list (string * string);
  console : list LogEntry;
  timers : list (nat * Callback * Z);
  nextTimer : nat;
}.

Definition withDocument (d : Document) (w : World) : World :=
  mkWorld d (pathname w) (hash w) (state w) (now w) (hasStorageSync w)
          (storageSets w) (console w) (timers w) (nextTimer w).

Definition withState (s : State) (w : World) : World :=
  mkWorld (document w) (pathname w) (hash w) s (now w) (hasStorageSync w)
          (storageSets w) (console w) (timers w) (nextTimer w).

Definition withStorageSets (l : list (string * string)) (w : World) : World :=
  mkWorld (document w) (pathname w) (hash w) (state w) (now w) (hasStorageSync w)
          l (console w) (timers w) (nextTimer w).

Definition withConsole (l : list LogEntry) (w : World) : World :=
  mkWorld (document w) (pathname w) (hash w) (state w) (now w) (hasStorageSync w)
          (storageSets w) l (timers w) (nextTimer w).

Definition withTimers (l : list (nat * Callback * Z)) (n : nat) (w : World) : World :=
  mkWorld (document w) (pathname w) (hash w) (state w) (now w) (hasStorageSync w)
          (storageSets w) (console w) l n.

(** A run of script code: it ends normally or by an exception, and in
    both cases leaves the world as changed so far. *)
Inductive Outcome (A : Type) :=
| Return (a : A) (w : World)
| Raise (e : Exn) (w : World).
Arguments Return {A} a w.
Arguments Raise {A} e w.

Definition M (A : Type) : Type := World → Outcome A.

Definition worldOf {A} (o : Outcome A) : World :=
  match o with
  | Return _ w => w
  | Raise _ w => w
  end.

Global Instance M_ret : MRet M := λ A a w, Return a w.

Global Instance M_bind : MBind M := λ A B f m w,
  match m w with
  | Return a w' => f a w'
  | Raise e w' => Raise e w'
  end.

Definition gets {A} (f : World → A) : M A := λ w, Return (f w) w.
Definition modify (f : World → World) : M unit := λ w, Return () (f w).
Definition throw {A} (e : Exn) : M A := λ w, Raise e w.

(** [try { m } catch (e) { h e }] *)
Definition tryCatch {A} (m : M A) (h : Exn → M A) : M A := λ w,
  match m w with
  | Return a w' => Return a w'
  | Raise e w' => h e w'
  end.

(** A DOM call that changes the document or throws. *)
Definition mutate (f : Document → Result Document) : M unit := λ w,
  match f (document w) with
  | Ok d => Return () (withDocument d w)
  | Throw e => Raise e w
  end.

Fixpoint forEach {A} (f : A → M unit) (l : list A) : M unit :=
  match l with
  | [] => mret ()
  | x :: r => f x ≫= λ _, forEach f r
  end.

Definition setCurrentSort (v : string) : M unit :=
  modify (λ w, withState (mkState v (sortControlsInjected (state w))
                                    (isInitialized (state w))
                                    (debounceTimer (state w))) w).

Definition setDebounceTimer (v : option nat) : M unit :=
  modify (λ w, withState (mkState (currentSort (state w))
                                  (sortControlsInjected (state w))
                                  (isInitialized (state w)) v) w).

Definition consoleWarn (msg : string) : M unit :=
  modify (λ w, withConsole ((console w ++ [Warn msg])%list) w).

Definition consoleError (msg : string) : M unit :=
  modify (λ w, withConsole ((console w ++ [Error msg])%list) w).

(** [safeQuery(selector)] on the document; the selectors of the
    scripts are valid, so the query itself does not throw. *)
Definition safeQuery (s : Selector) : M (option nat) :=
  gets (λ w, querySelector (document w) s).

(** [safeQueryAll(selector)] on the document *)
Definition safeQueryAll (s : Selector) : M (list nat) :=
  gets (λ w, querySelectorAll (document w) s).

(** [savePreference]: asks the sync storage to store the option, when
    the storage API is there; the outcome of the request is not
    awaited. *)
Definition savePreference (sortOption : string) : M unit :=
  modify (λ w, if hasStorageSync w
               then withStorageSets ((storageSets w ++ [("sortPreference", sortOption)])%list) w
               else w).

(** How a [set] request ends is up to the storage: when it succeeds the
    sync store holds the value; when it fails the catch handler tries
    [localStorage] under its own key, which may fail as well. *)
Record Stores := mkStores {
  syncStore : gmap string string;
  localStore : gmap string string;
}.

Definition settle (syncOk localOk : bool) (req : string * string) (s : Stores) : Stores :=
  if syncOk then mkStores (<[req.1 := req.2]> (syncStore s)) (localStore s)
  else if localOk
       then mkStores (syncStore s) (<["pr-sorter-preference" := req.2]> (localStore s))
       else s.

End Core.

Import Core.

(* ===================================================================== *)
(** ** comments.js: detection, extraction, resolution *)
(* ===================================================================== *)

Module Comments.

(** [details[data-resolved="false"]] *)
Definition unresolvedSelector : Selector :=
  [byTagAttr "details" "data-resolved" "false"].

(** [relative-time, time] *)
Definition timeSelector : Selector := [byTag "relative-time"; byTag "time"].

(** [isCommentResolved(element)], for an element. *)
Definition isCommentResolved (d : Document) (element : nat) : bool :=
  match querySelectorIn d element unresolvedSelector with
  | Some unresolvedThread => false
  | None => true
  end.

Record Containers := mkContainers {
  timeline : list nat;
  review : list nat;
  discussion : list nat;
}.

(** [getCommentContainers()] *)
Definition getCommentContainers : M Containers :=
  timelineComments ← safeQueryAll [byClass "js-timeline-item"];
  reviewComments ← safeQueryAll [byClass "review-comment"];
  discussionComments ← safeQueryAll [byClass "timeline-comment-group"];
  d ← gets document;
  mret (mkContainers
          (filter (λ el, is_Some (querySelectorIn d el timeSelector))
                  timelineComments)
          reviewComments discussionComments).

Record CommentData := mkCommentData {
  element : nat;
  timestamp : Date;
  resolved : bool;
  hasTimeElement : bool;
}.

(** [element.querySelector(selector)] as a method call: a node that is
    not an element has no such method, and the call throws. *)
Definition callQuerySelector (e : nat) (s : Selector) : M (option nat) :=
  d ← gets document;
  if isElement d e then mret (querySelectorIn d e s) else throw TypeError.

Definition extractionWarning : string :=
  "[PR Enhancer] Error extracting comment data:".

Section WithHost.
Context `{Host}.

(** [extractCommentData(element, index)]; [None] is null. *)
Definition extractCommentData (element : option nat) (index : Z)
  : M (option CommentData) :=
  match element with
  | None => mret None
  | Some el =>
      tryCatch
        (timeElement ← callQuerySelector el timeSelector;
         timestamp ←
           match timeElement with
           | Some t =>
               datetime ← gets (λ w, getAttribute (document w) t "datetime");
               match datetime with
               | Some s =>
                   if decide (s = "") then gets (λ w, Some (now w))
                   else mret (dateParse s)
               | None => gets (λ w, Some (now w))
               end
           | None => gets (λ w, Some (now w + index))
           end;
         resolved ←
           tryCatch (gets (λ w, isCommentResolved (document w) el))
                    (λ e, mret false);
         mret (Some (mkCommentData el timestamp resolved
                       (bool_decide (is_Some timeElement)))))
        (λ e,
           consoleWarn extractionWarning;;
           t ← gets (λ w, Some (now w + index));
           mret (Some (mkCommentData el t false false)))
  end.

End WithHost.

Record UnresolvedEntry := mkUnresolvedEntry {
  entryElement : nat;
  username : text;
  snippet : text;
  entryId : string;
}.

(** The snippet of a comment body text. *)
Definition snippetOf (bodyText : option text) : text :=
  let snippet :=
    match bodyText with
    | Some t => collapseWhiteSpace (trim t)
    | None => []
    end in
  if decide (60 < length snippet)%nat
  then (substring0 60 snippet ++ units "...")%list
  else snippet.

Fixpoint mapIndexed {A B} (f : A → nat → B) (i : nat) (l : list A) : list B :=
  match l with
  | [] => []
  | x :: r => f x i :: mapIndexed f (S i) r
  end.

(** [getUnresolvedConversations()] *)
Definition getUnresolvedConversations : M (list UnresolvedEntry) :=
  unresolvedDetails ← safeQueryAll unresolvedSelector;
  d ← gets document;
  mret (mapIndexed
          (λ details index,
             let container := details in
             let authorEl :=
               querySelectorIn d details [byClass "author"; byClass "js-author"] in
             let username :=
               match authorEl with
               | Some a => trim (textContent d a)
               | None => units "Unknown"
               end in
             let bodyEl := querySelectorIn d details [byClass "comment-body"] in
             let snippet := snippetOf (textContent d <$> bodyEl) in
             mkUnresolvedEntry container username snippet
               (if decide (idOf d container = "")
                then "unresolved-" +:+ pretty index
                else idOf d container))
          0%nat unresolvedDetails).

End Comments.

(* ===================================================================== *)
(** ** sorting.js: comparison, reordering, persistence *)
(* ===================================================================== *)

Module Sorting.

Import Comments.

(** [getSortLabel(sortOption)] *)
Definition getSortLabel (sortOption : string) : string :=
  if decide (sortOption = DATE_OLDEST) then "Oldest first"
  else if decide (sortOption = DATE_NEWEST) then "Newest first"
  else sortOption.

(** [reorderElements(sortedElements, container)] *)
Definition reorderElements (sortedElements : list nat) (container : option nat)
  : M unit :=
  match sortedElements, container with
  | [], _ => mret ()
  | _, None => mret ()
  | _, Some c => forEach (λ el, mutate (appendChild c el)) sortedElements
  end.

Section WithHost.
Context `{Host}.

(** The two interface functions of ui.js, bound by a timer after the
    module has loaded and undefined until then. They read and change
    the document (the buttons of the controls, the toast) and nothing
    else of the world; what they do there is left open. *)
Variable updateSortIndicator : option (string → Document → Result Document).
Variable showNotification : option (string → Document → Result Document).

(** The date read for one child in the comparison of [applySorting]. *)
Definition dateOf (d : Document) (a : nat) : Date :=
  match querySelectorIn d a timeSelector with
  | Some t =>
      match getAttribute d t "datetime" with
      | Some s => if decide (s = "") then Some 0 else dateParse s
      | None => Some 0
      end
  | None => Some 0
  end.

(** The comparison function of [applySorting]. *)
Definition compareChildren (sortOption : string) (d : Document) (a b : nat)
  : number :=
  let dateA := dateOf d a in
  let dateB := dateOf d b in
  if decide (sortOption = DATE_NEWEST) then minus dateB dateA
  else if decide (sortOption = DATE_OLDEST) then minus dateA dateB
  else if decide (sortOption = RESOLVED_LAST) then
    let resolvedA := isCommentResolved d a in
    let resolvedB := isCommentResolved d b in
    if negb (eqb resolvedA resolvedB)
    then Some (if resolvedA then 1 else -1)
    else minus dateA dateB
  else if decide (sortOption = UNRESOLVED_LAST) then
    let unresolvedA := negb (isCommentResolved d a) in
    let unresolvedB := negb (isCommentResolved d b) in
    if negb (eqb unresolvedA unresolvedB)
    then Some (if unresolvedA then -1 else 1)
    else minus dateA dateB
  else minus dateA dateB.

(** The end of [applySorting]: the indicator and the notification. *)
Definition feedback (sortOption : string) : M unit :=
  match updateSortIndicator with
  | Some f => mutate (f sortOption)
  | None => mret ()
  end;;
  match showNotification with
  | Some g => mutate (g ("Comments sorted: " +:+ getSortLabel sortOption))
  | None => mret ()
  end.

Definition containerWarning : string :=
  "[PR Enhancer] Could not find .js-discussion container".

(** [applySorting(sortOption)] *)
Definition applySorting (sortOption : string) : M unit :=
  setCurrentSort sortOption;;
  savePreference sortOption;;
  container ← safeQuery [byClass "js-discussion"];
  match container with
  | None => consoleWarn containerWarning
  | Some c =>
      d ← gets document;
      let children := Dom.children d c in
      match children with
      | [] => mret ()
      | _ =>
          let sortedChildren := arraySort (compareChildren sortOption d) children in
          reorderElements sortedChildren container;;
          feedback sortOption
      end
  end.

(** [toggleSort()] *)
Definition toggleSort : M unit :=
  let options := SORT_OPTIONS_values in
  current ← gets (λ w, currentSort (state w));
  let currentIndex := indexOf current options in
  let nextIndex := Z.rem (currentIndex + 1) (Z.of_nat (length options)) in
  applySorting (default "undefined" (options !! Z.to_nat nextIndex)).

End WithHost.

End Sorting.

(* ===================================================================== *)
(** ** ui.js: tab detection and the merge status box *)
(* ===================================================================== *)

Module UI.

(** [e.offsetParent !== null && e.offsetHeight > 0 && e.offsetWidth > 0] *)
Definition isRendered (d : Document) (e : nat) : bool :=
  match nodes d !! e with
  | Some nd =>
      bool_decide (is_Some (offsetParent nd))
      && (0 <? offsetHeight nd) && (0 <? offsetWidth nd)
  | None => false
  end.

Definition hasClass (d : Document) (e : nat) (c : string) : bool :=
  match nodes d !! e with
  | Some nd => bool_decide (c ∈ classList nd)
  | None => false
  end.

Definition filesSelector : Selector :=
  [byId "files"; byId "files_bucket"; byClass "file-diff";
   byClass "js-diff-progressive-container"].

Definition commitsSelector : Selector :=
  [byClass "commits-list-item"; byClass "TimelineItem--condensed";
   byAttr "data-test-selector" "pr-commits-list"].

Definition checksSelector : Selector :=
  [byClass "checks-list"; byAttr "data-test-selector" "checks-tab-content"].

Definition selectedTabSelector : Selector :=
  [byAttr "aria-current" "page"; byClass "selected"; byAttr "aria-selected" "true"].

(** Strategy 5 of [isConversationTab]: the selected item of the tab
    navigation. *)
Definition tabNavigationSaysConversation (d : Document) : bool :=
  match querySelector d [byClass "tabnav-tabs"; byClass "UnderlineNav-body"] with
  | Some prTabNav =>
      match querySelectorIn d prTabNav selectedTabSelector with
      | Some selectedTab =>
          let tabText := toLowerCase (textContent d selectedTab) in
          let tabHref := default "" (getAttribute d selectedTab "href") in
          if includesU tabText (units "file")
             || includesU tabText (units "commit")
             || includesU tabText (units "check")
             || includes tabHref "/files"
             || includes tabHref "/commits"
             || includes tabHref "/checks"
          then false
          else if includesU tabText (units "conversation")
                  || endsWith tabHref "/pull/"
                  || negb (includes tabHref "#")
          then true
          else false
      | None => false
      end
  | None => false
  end.

(** [isConversationTab()] *)
Definition isConversationTab (w : World) : bool :=
  let d := document w in
  (* Strategy 1: the path *)
  if includes (pathname w) "/files"
     || includes (pathname w) "/commits"
     || includes (pathname w) "/changes"
     || includes (pathname w) "/checks"
  then false
  (* Strategy 2: the fragment *)
  else if negb (bool_decide (hash w = ""))
          && (includes (hash w) "commits"
              || includes (hash w) "checks"
              || includes (hash w) "files"
              || includes (hash w) "diff-")
  then false
  (* Strategy 3: the containers of the other tabs that are rendered *)
  else if match querySelector d filesSelector with
          | Some filesContainer => isRendered d filesContainer
          | None => false
          end
  then false
  else if match querySelector d commitsSelector with
          | Some commitsContainer =>
              isRendered d commitsContainer
              && negb (bool_decide (is_Some
                   (closest d commitsContainer
                      [byId "discussion_bucket"; byClass "discussion-timeline"])))
          | None => false
          end
  then false
  else if match querySelector d checksSelector with
          | Some checksContainer => isRendered d checksContainer
          | None => false
          end
  then false
  else
    (* Strategy 4: the discussion bucket *)
    match querySelector d [byId "discussion_bucket"] with
    | None => false
    | Some discussionBucket =>
        let isVisible := isRendered d discussionBucket in
        let hasVisibleClass :=
          hasClass d discussionBucket "is-visible"
          || hasClass d discussionBucket "show"
          || negb (hasClass d discussionBucket "d-none") in
        if isVisible && hasVisibleClass then true
        (* Strategy 5, and the default *)
        else tabNavigationSaysConversation d
    end.

Definition mergeBoxSelectors : list Selector :=
  [[byId "partial-pull-merging"]; [byClass "merge-status-list"];
   [byClass "branch-action-state-container"]; [byClass "merge-pr"];
   [byClass "js-merge-pr"]].

(** The loop over selectors that stops at the first element found. *)
Fixpoint firstMatch (d : Document) (selectors : list Selector) : option nat :=
  match selectors with
  | [] => None
  | s :: r =>
      match querySelector d s with
      | Some e => Some e
      | None => firstMatch d r
      end
  end.

(** The merge box that [moveMergeStatusToTop] picks. *)
Definition findMergeBox (d : Document) : option nat :=
  match firstMatch d mergeBoxSelectors with
  | Some mergeBox => Some mergeBox
  | None =>
      match firstMatch d [[byClass "merge-message"]; [byClass "branch-action-body"]] with
      | Some mergeContainer =>
          match closest d mergeContainer [byClass "branch-action-item"] with
          | Some item => Some item
          | None => Some mergeContainer
          end
      | None => None
      end
  end.

Definition restoreMarker (now : Z) : string :=
  "pr-sorter-restore-marker-" +:+ pretty now.

Definition controlsSelector : Selector := [byClass "pr-comment-sorter-controls"].

(** [moveMergeStatusToTop()]. The parent of the root element is the
    document node, which takes no further child. *)
Definition moveMergeStatusToTop : M unit :=
  conv ← gets isConversationTab;
  if negb conv then mret ()
  else
    mergeBox ← gets (λ w, findMergeBox (document w));
    match mergeBox with
    | None => mret ()
    | Some mb =>
        moved ← gets (λ w, getAttribute (document w) mb "data-moved-to-top");
        if decide (moved = Some "true") then mret ()
        else
          sortControls ← safeQuery controlsSelector;
          d ← gets document;
          match sortControls with
          | None => mret ()
          | Some sc =>
              let originalParent := parentOf d mb in
              let originalNextSibling := nextSibling d mb in
              mutate (λ d, Ok (setAttribute mb "data-moved-to-top" "true" d));;
              mutate (λ d, Ok (setAttribute mb "data-original-parent-id"
                                 (match originalParent with
                                  | Some p => idOf d p
                                  | None => ""
                                  end) d));;
              match originalNextSibling with
              | Some s =>
                  (if decide (idOf d s = "")
                   then t ← gets now; mutate (λ d, Ok (setId s (restoreMarker t) d))
                   else mret ());;
                  mutate (λ d, Ok (setAttribute mb "data-original-next-sibling-id"
                                     (idOf d s) d))
              | None => mret ()
              end;;
              match parentOf d sc with
              | Some scParent =>
                  d' ← gets document;
                  mutate (insertBefore scParent mb (nextSibling d' sc))
              | None =>
                  if decide (sc = documentElement d)
                  then throw HierarchyRequestError
                  else mret ()
              end
          end
    end.

(** [restoreMergeStatusPosition()] *)
Definition restoreMergeStatusPosition : M unit :=
  mergeBox ← safeQuery [byAttr "data-moved-to-top" "true"];
  match mergeBox with
  | None => mret ()
  | Some mb =>
      d ← gets document;
      let byRecordedId (k : string) : option nat :=
        match getAttribute d mb k with
        | Some i => getElementById d i
        | None => None
        end in
      let originalParent :=
        match byRecordedId "data-original-parent-id" with
        | Some p => Some p
        | None =>
            match querySelector d [byId "discussion_bucket"] with
            | Some p => Some p
            | None =>
                match querySelector d [byClass "discussion-timeline"] with
                | Some p => Some p
                | None => body d
                end
            end
        end in
      let originalNextSibling := byRecordedId "data-original-next-sibling-id" in
      match originalParent with
      | Some p => mutate (insertBefore p mb originalNextSibling)
      | None => mret ()
      end;;
      mutate (λ d, Ok (removeAttribute mb "data-moved-to-top" d));;
      mutate (λ d, Ok (removeAttribute mb "data-original-parent-id" d));;
      mutate (λ d, Ok (removeAttribute mb "data-original-next-sibling-id" d))
  end.

End UI.

(* ===================================================================== *)
(** ** content.js: the mutation observer and the message listener *)
(* ===================================================================== *)

Module Content.

(** A mutation record of the observer (child list changes in the
    subtree of the body): the node whose children changed, and the
    nodes added and removed. *)
Record MutationRecord := mkMutationRecord {
  target : nat;
  addedNodes : list nat;
  removedNodes : list nat;
}.

(** [.pr-comment-sorter-controls, .pr-sorter-notification] *)
Definition ownSelector : Selector :=
  [byClass "pr-comment-sorter-controls"; byClass "pr-sorter-notification"].

(** [target.closest && target.closest(...)]; only elements have the
    method. *)
Definition fromOwnElements (d : Document) (mutation : MutationRecord) : bool :=
  isElement d (target mutation)
  && bool_decide (is_Some (closest d (target mutation) ownSelector)).

(** The loop of the observer callback; [true] when it returned from
    the callback. *)
Fixpoint returnsEarly (d : Document) (mutations : list MutationRecord) : bool :=
  match mutations with
  | [] => false
  | mutation :: r =>
      if fromOwnElements d mutation then true else returnsEarly d r
  end.

Definition setTimeout (c : Callback) (delay : Z) : M nat := λ w,
  Return (nextTimer w)
         (withTimers ((timers w ++ [(nextTimer w, c, delay)])%list) (S (nextTimer w)) w).

Definition clearTimeout (h : nat) : M unit :=
  modify (λ w, withTimers (filter (λ t, t.1.1 ≠ h) (timers w)) (nextTimer w) w).

(** The callback of the mutation observer. *)
Definition onMutations (mutations : list MutationRecord) : M unit :=
  d ← gets document;
  if returnsEarly d mutations then mret ()
  else
    pending ← gets (λ w, debounceTimer (state w));
    match pending with
    | Some h => clearTimeout h
    | None => mret ()
    end;;
    h ← setTimeout HandleMutations DEBOUNCE_DELAY;
    setDebounceTimer (Some h).

(** A reconciliation pass is scheduled when a timer for
    [handleMutations] is pending. *)
Definition reconciliationPending (w : World) : bool :=
  match debounceTimer (state w) with
  | Some h => bool_decide (h ∈ (λ t, t.1.1) <$> timers w)
  | None => false
  end.

Inductive Request :=
| SortRequest (sortOption : string)
| ToggleSortRequest
| GetStatusRequest
| UpdateMergeStatusPreference (shouldMove : bool)
| Ping
| OtherRequest (action : string).

Inductive Response :=
| Success
| Status (currentSort : string) (commentCount : nat) (isOnPRPage : bool)
| Pong (initialized : bool)
| ErrorResponse (message : string).

Definition exnMessage (e : Exn) : string :=
  match e with
  | TypeError => "TypeError"
  | HierarchyRequestError => "HierarchyRequestError"
  | NotFoundError => "NotFoundError"
  end.

Section WithHost.
Context `{Host}.
Variable updateSortIndicator : option (string → Document → Result Document).
Variable showNotification : option (string → Document → Result Document).

(** The listener of [chrome.runtime.onMessage]; the result is the
    response sent. *)
Definition onMessage (request : Request) : M Response :=
  tryCatch
    (match request with
     | SortRequest sortOption =>
         Sorting.applySorting updateSortIndicator showNotification sortOption;;
         mret Success
     | ToggleSortRequest =>
         Sorting.toggleSort updateSortIndicator showNotification;;
         mret Success
     | GetStatusRequest =>
         containers ← Comments.getCommentContainers;
         s ← gets (λ w, currentSort (state w));
         mret (Status s (length (Comments.timeline containers)
                         + length (Comments.review containers))%nat true)
     | UpdateMergeStatusPreference shouldMove =>
         (if shouldMove then UI.moveMergeStatusToTop
          else UI.restoreMergeStatusPosition);;
         mret Success
     | Ping =>
         i ← gets (λ w, isInitialized (state w));
         mret (Pong i)
     | OtherRequest _ => mret (ErrorResponse "Unknown action")
     end)
    (λ e,
       consoleError "[PR Enhancer] Error handling message:";;
       mret (ErrorResponse (exnMessage e))).

End WithHost.

End Content.

(* ===================================================================== *)
(** ** Well-formed documents *)
(* ===================================================================== *)

Module WellFormed.

(** The depth of a node: the number of its ancestors. *)
Definition depth (d : Document) (n : nat) : nat := length (ancestors d n).

(** What the DOM keeps true of every node: its child list has no
    repetition, each child points back to it, it is in the child list
    of its parent and lies deeper than its parent, and a text node has
    no children. *)
Definition nodeOk (d : Document) (n : nat) (nd : Node) : bool :=
  bool_decide (NoDup (childNodes nd))
  && forallb (λ k, bool_decide (parentOf d k = Some n)) (childNodes nd)
  && match parentNode nd with
     | Some p => bool_decide (n ∈ childNodesOf d p) && (depth d p <? depth d n)%nat
     | None => true
     end
  && (bool_decide (nodeType nd = ELEMENT_NODE) || bool_decide (childNodes nd = [])).

(** The ancestor [j] levels up: the node itself for 0, its parent for
    1, and so on. *)
Fixpoint up (m : gmap nat Node) (j : nat) (x : nat) : option nat :=
  match j with
  | O => Some x
  | S j' =>
      match m !! x ≫= parentNode with
      | Some p => up m j' p
      | None => None
      end
  end.

(** A well-formed document: every node is as above, and the root is an
    element without parent. *)
Definition wellFormed (d : Document) : bool :=
  bool_decide (map_Forall (λ n nd, nodeOk d n nd = true) (nodes d))
  && isElement d (documentElement d)
  && bool_decide (parentOf d (documentElement d) = None).

End WellFormed.

Import WellFormed.

(* ===================================================================== *)
(** ** core.js and background.js: the stored preferences *)
(* ===================================================================== *)

Module Preferences.

(** A value of the sync storage area, of the kinds the extension
    writes: the sort and filter preferences are strings, the switches
    are booleans. *)
Inductive Value :=
| VString (s : string)
| VBool (b : bool).

Global Instance Value_eq_dec : EqDecision Value.
Proof. solve_decision. Defined.

(** The sync storage area, [chrome.storage.sync], is a map from keys
    to values. How a [get] request for one key ends: the promise
    resolves with the value stored under the key ([None] when the
    result has no such property), or it is rejected. *)
Inductive GetOutcome :=
| Resolved (value : option Value)
| Rejected.

(** [chrome.storage.sync.get([key])] on an area that answers or not. *)
Definition storageGet (ok : bool) (key : string) (area : gmap string Value)
  : GetOutcome :=
  if ok then Resolved (area !! key) else Rejected.

(** [chrome.storage.sync.set(items)] when it succeeds: the items
    replace or extend what the area holds. *)
Definition storageSet (items area : gmap string Value) : gmap string Value :=
  items ∪ area.

(** The area of the content script's requests, whose values are
    strings. *)
Definition areaOf (s : Stores) : gmap string Value := VString <$> syncStore s.

(** [loadSavedPreference()], given how its [get] request ends; the
    result is the value the returned promise resolves with, [None] for
    null. *)
Definition loadSavedPreference (outcome : GetOutcome) : M (option string) :=
  gets hasStorageSync ≫= λ has : bool,
  if has then
    match outcome with
    | Resolved (Some (VString sortPreference)) =>
        if negb (bool_decide (sortPreference = ""))
           && bool_decide (sortPreference ∈ SORT_OPTIONS_values)
        then
          setCurrentSort sortPreference;;
          current ← gets (λ w, currentSort (state w));
          mret (Some current)
        else mret None
    | Resolved (Some (VBool _)) => mret None
    | Resolved None => mret None
    | Rejected => mret None
    end
  else mret None.

End Preferences.

Import Preferences.

Module Background.

Import Preferences.

(** [DEFAULT_PREFERENCES], in the order of the literal. *)
Definition DEFAULT_PREFERENCES : list (string * Value) :=
  [("sortPreference", VString "date-newest");
   ("filterPreference", VString "all");
   ("autoSort", VBool false);
   ("showNotifications", VBool true);
   ("hasSeenOnboarding", VBool false)].

Definition defaultsError : string :=
  "[PR Enhancer] Failed to set default preferences:".

Definition migrationError : string :=
  "[PR Enhancer] Error migrating preferences:".

(** The [updates] object that [migratePreferences] builds from the
    stored preferences. *)
Definition migrationUpdates (existingPrefs : gmap string Value) : gmap string Value :=
  let updates : gmap string Value :=
    if decide (existingPrefs !! "sortPreference" = Some (VString "date-oldest"))
    then {["sortPreference" := VString "date-newest"]}
    else ∅ in
  foldl (λ (updates : gmap string Value) kv,
           if decide (is_Some (existingPrefs !! kv.1)) then updates
           else <[kv.1 := kv.2]> updates)
        updates DEFAULT_PREFERENCES.

(** [migratePreferences]: the area afterwards and what is logged as an
    error. [getOk] and [setOk] tell whether the two storage requests
    succeed; a failure is caught and logged. *)
Definition migratePreferences (getOk setOk : bool) (area : gmap string Value)
  : gmap string Value * list LogEntry :=
  if getOk then
    let existingPrefs := area in
    let updates := migrationUpdates existingPrefs in
    if decide (updates = ∅) then (area, [])
    else if setOk then (storageSet updates area, [])
    else (area, [Error migrationError])
  else (area, [Error migrationError]).

(** [details.reason] of [chrome.runtime.onInstalled]. *)
Inductive InstallReason := Install | Update | OtherReason.

(** The listener of [chrome.runtime.onInstalled]. *)
Definition onInstalled (reason : InstallReason) (getOk setOk : bool)
    (area : gmap string Value) : gmap string Value * list LogEntry :=
  match reason with
  | Install =>
      if setOk then (storageSet (list_to_map DEFAULT_PREFERENCES) area, [])
      else (area, [Error defaultsError])
  | Update => migratePreferences getOk setOk area
  | OtherReason => (area, [])
  end.

End Background.

(* ===================================================================== *)
(** ** sorting.js: sorting extracted comment records *)
(* ===================================================================== *)

Module CommentSort.

Import Comments.

(** The property names that the object literal [sortFunctions]
    inherits from [Object.prototype]: looking one of them up gives the
    inherited member instead of undefined, and the sort is then not
    run with a comparison of the script. *)
Definition objectPrototypeKeys : list string :=
  ["constructor"; "__proto__"; "hasOwnProperty"; "isPrototypeOf";
   "propertyIsEnumerable"; "toLocaleString"; "toString"; "valueOf";
   "__defineGetter__"; "__defineSetter__"; "__lookupGetter__";
   "__lookupSetter__"].

(** The two entries of [sortFunctions]. *)
Definition byDateOldest (a b : CommentData) : number :=
  minus (timestamp a) (timestamp b).

Definition byDateNewest (a b : CommentData) : number :=
  minus (timestamp b) (timestamp a).

(** [sortComments(comments, sortOption)]; a null entry of [comments]
    is [None]. The result is [None] for an option that names an
    inherited member, the case left out above. *)
Definition sortComments (comments : list (option CommentData)) (sortOption : string)
  : option (list CommentData) :=
  let validComments := omap id comments in
  if decide (sortOption = DATE_OLDEST)
  then Some (arraySort byDateOldest validComments)
  else if decide (sortOption = DATE_NEWEST)
  then Some (arraySort byDateNewest validComments)
  else if bool_decide (sortOption ∈ objectPrototypeKeys) then None
  else Some (arraySort byDateOldest validComments).

End CommentSort.

(* ===================================================================== *)
(** ** ui.js: the sort indicator *)
(* ===================================================================== *)

Module Indicator.

Definition withClassList (l : list string) (n : Node) : Node :=
  mkNode (nodeType n) (localName n) (nid n) l (attrs n)
         (parentNode n) (childNodes n) (data n)
         (offsetParent n) (offsetHeight n) (offsetWidth n).

(** [classList.toggle(token, force)] *)
Definition toggle (token : string) (force : bool) (classes : list string)
  : list string :=
  if force
  then (if bool_decide (token ∈ classes) then classes else (classes ++ [token])%list)
  else filter (λ c, c ≠ token) classes.

(** [document.querySelectorAll(".pr-sorter-btn[data-sort]")]: the
    elements of the class that have the attribute. *)
Definition sortButtons (d : Document) : list nat :=
  filter (λ n, is_Some (getAttribute d n "data-sort"))
         (querySelectorAll d [byClass "pr-sorter-btn"]).

(** What [updateSortIndicator] does to one button. *)
Definition indicate (sortOption : string) (btn : nat) (d : Document) : Document :=
  let isActive := bool_decide (getAttribute d btn "data-sort" = Some sortOption) in
  setAttribute btn "aria-pressed" (if isActive then "true" else "false")
    (update btn (λ nd, withClassList (toggle "active" isActive (classList nd)) nd) d).

(** [updateSortIndicator(sortOption)] *)
Definition updateSortIndicator (sortOption : string) (d : Document)
  : Result Document :=
  let sortBtns := sortButtons d in
  Ok (foldl (λ d btn, indicate sortOption btn d) d sortBtns).

End Indicator.

(* ===================================================================== *)
(** ** Notions used in the statements *)
(* ===================================================================== *)

Definition resultOf {A} (o : Outcome A) : option A :=
  match o with
  | Return a _ => Some a
  | Raise _ _ => None
  end.

(** What the work on the document leaves alone in the world. *)
Definition sameButDocument (w w' : World) : Prop :=
  state w' = state w
  ∧ storageSets w' = storageSets w
  ∧ hasStorageSync w' = hasStorageSync w.

(** A node that carries the flag "not resolved". *)
Definition flaggedUnresolved (d : Document) (x : nat) : Prop :=
  ∃ nd, nodes d !! x = Some nd
        ∧ nodeType nd = ELEMENT_NODE
        ∧ localName nd = "details"
        ∧ attrs nd !! "data-resolved" = Some "false".

(** The body text of an entry as the snippet is cut from it: trimmed,
    with runs of white space collapsed; empty without a comment body. *)
Definition normalizedBody (d : Document) (details : nat) : text :=
  match querySelectorIn d details [byClass "comment-body"] with
  | Some bodyEl => collapseWhiteSpace (trim (textContent d bodyEl))
  | None => []
  end.

(** The world once [applySorting] has stored the mode and asked for
    its persistence, before it looks at the document. *)
Definition modeStored (sortOption : string) (w : World) : World :=
  worldOf ((setCurrentSort sortOption ≫= λ _, savePreference sortOption) w).

Section SortDocument.
Context `{Host}.
Variable updateSortIndicator : option (string → Document → Result Document).
Variable showNotification : option (string → Document → Result Document).

(** What [applySorting] does after that. *)
Definition sortDocument (sortOption : string) : M unit :=
  container ← safeQuery [byClass "js-discussion"];
  match container with
  | None => consoleWarn Sorting.containerWarning
  | Some c =>
      d ← gets document;
      match Dom.children d c with
      | [] => mret ()
      | _ =>
          Sorting.reorderElements
            (arraySort (Sorting.compareChildren sortOption d) (Dom.children d c))
            container;;
          Sorting.feedback updateSortIndicator showNotification sortOption
      end
  end.

End SortDocument.

(** The mode that follows [s] in the order of the option values; a
    value that is none of them is followed by the first. *)
Definition nextInCycle (s : string) : string :=
  if decide (s = DATE_OLDEST) then DATE_NEWEST
  else if decide (s = DATE_NEWEST) then RESOLVED_LAST
  else if decide (s = RESOLVED_LAST) then UNRESOLVED_LAST
  else DATE_OLDEST.

(** [d'] is [d] with the child list of [c] replaced by [L]. *)
Definition relisted (c : nat) (L : list nat) (d d' : Document) : Prop :=
  documentElement d' = documentElement d
  ∧ ∀ n, nodes d' !! n
         = if decide (n = c) then withChildNodes L <$> nodes d !! n
           else nodes d !! n.

(** What [appendChild] does to a child list that holds the node. *)
Definition moveToEnd (k : nat) (L : list nat) : list nat :=
  filter (λ x, x ≠ k) L ++ [k].

(** The same tree: root, nodes, parent pointers, child lists, node types. *)
Definition sameShape (d d' : Document) : Prop :=
  documentElement d' = documentElement d
  ∧ ∀ x, (is_Some (nodes d' !! x) ↔ is_Some (nodes d !! x))
         ∧ parentOf d' x = parentOf d x
         ∧ childNodesOf d' x = childNodesOf d x
         ∧ isElement d' x = isElement d x.

(** The same node at [x] as far as selectors, ids and attributes go. *)
Definition sameContentAt (d d' : Document) (x : nat) : Prop :=
  idOf d' x = idOf d x
  ∧ (∀ k, getAttribute d' x k = getAttribute d x k)
  ∧ (∀ s, matches d' s x = matches d s x).

Definition shapeKept (f : Node → Node) : Prop :=
  ∀ nd, nodeType (f nd) = nodeType nd
        ∧ parentNode (f nd) = parentNode nd
        ∧ childNodes (f nd) = childNodes nd.

Definition contentKept (f : Node → Node) : Prop :=
  ∀ nd, nodeType (f nd) = nodeType nd
        ∧ localName (f nd) = localName nd
        ∧ nid (f nd) = nid nd
        ∧ classList (f nd) = classList nd
        ∧ attrs (f nd) = attrs nd.

(** [d'] is [d] with the node [n] moved under [p], before [ref]. *)
Definition moved (n p : nat) (ref : option nat) (d d' : Document) : Prop :=
  documentElement d' = documentElement d
  ∧ (∀ x, is_Some (nodes d' !! x) ↔ is_Some (nodes d !! x))
  ∧ (∀ x, parentOf d' x = if decide (x = n) then Some p else parentOf d x)
  ∧ (∀ x, isElement d' x = isElement d x)
  ∧ (∀ x, x ≠ p →
          childNodesOf d' x = filter (λ k, k ≠ n) (childNodesOf d x))
  ∧ childNodesOf d' p
    = placeBefore n ref (filter (λ k, k ≠ n) (childNodesOf d p)).

(** The root is some levels up: the node is in the document tree. *)
Definition attached (d : Document) (x : nat) : Prop :=
  ∃ j, (j ≤ size (nodes d))%nat ∧ up (nodes d) j x = Some (documentElement d).

(** The document once [moveMergeStatusToTop] has recorded the original
    position on the merge box, before it moves the box. *)
Definition recordOrigin (mb : nat) (originalParent originalNextSibling : option nat)
    (t : Z) (d : Document) : Document :=
  let d1 := setAttribute mb "data-moved-to-top" "true" d in
  let d2 := setAttribute mb "data-original-parent-id"
              (match originalParent with Some p => idOf d1 p | None => "" end) d1 in
  match originalNextSibling with
  | Some s =>
      let d3 := if decide (idOf d s = "") then setId s (UI.restoreMarker t) d2
                else d2 in
      setAttribute mb "data-original-next-sibling-id" (idOf d3 s) d3
  | None => d2
  end.

(** The nodes of the heap whose record satisfies [P]. *)
Definition nodesWhere (P : Node → bool) (d : Document) : list nat :=
  (filter (λ kv, P kv.2 = true) (map_to_list (nodes d))).*1.

Definition hasId (i : string) (nd : Node) : bool := bool_decide (nid nd = i).

Definition hasAttribute (k v : string) (nd : Node) : bool :=
  bool_decide (attrs nd !! k = Some v).

(** The next sibling of the merge box can be found again: there is none
    and the box carries no stale record of one, or it is an element
    whose id no other node carries, or an element without id and no node
    carries the marker it will get. *)
Definition siblingRestorable (w : World) (mb : nat) : Prop :=
  let d := document w in
  match nextSibling d mb with
  | None => getAttribute d mb "data-original-next-sibling-id" = None
  | Some s =>
      isElement d s = true
      ∧ if decide (idOf d s = "")
        then nodesWhere (hasId (UI.restoreMarker (now w))) d = []
        else nodesWhere (hasId (idOf d s)) d = [s]
  end.

(* ===================================================================== *)
(** ** Notions for the order of sorted lists *)
(* ===================================================================== *)

(** Both keys are numbers and the key of [a] is at most the key of [b]. *)
Definition keyLe {A} (key : A → number) (a b : A) : Prop :=
  match key a, key b with
  | Some x, Some y => x ≤ y
  | _, _ => False
  end.

(** The comparison does not put [a] after [b]; it puts neither of [x]
    and [a] after the other. *)
Definition mayPrecede {A} (compare : A → A → number) (a b : A) : Prop :=
  isPositive (compare a b) = false.

Definition sameRank {A} (compare : A → A → number) (x a : A) : Prop :=
  mayPrecede compare x a ∧ mayPrecede compare a x.

Global Instance sameRank_dec {A} (compare : A → A → number) x a :
  Decision (sameRank compare x a).
Proof. unfold sameRank, mayPrecede. apply _. Defined.

(** The comparison is consistent on the elements of [l]: it orders them
    totally, up to rank. *)
Definition consistentOn {A} (compare : A → A → number) (l : list A) : Prop :=
  (∀ a b, a ∈ l → b ∈ l → mayPrecede compare a b ∨ mayPrecede compare b a)
  ∧ (∀ a b c, a ∈ l → b ∈ l → c ∈ l →
       mayPrecede compare a b → mayPrecede compare b c → mayPrecede compare a c).

(** What the language asks of the sort: [l'] holds the elements of [l],
    in an order that the comparison agrees with, those of one rank in
    the order they have in [l]. *)
Definition stableSortOf {A} (compare : A → A → number) (l l' : list A) : Prop :=
  l' ≡ₚ l
  ∧ StronglySorted (mayPrecede compare) l'
  ∧ ∀ x, x ∈ l → filter (sameRank compare x) l' = filter (sameRank compare x) l.

Section Order.
Context `{Host}.

(** Every element of the list has a valid date. *)
Definition datesValid (d : Document) (l : list nat) : bool :=
  forallb (λ a, bool_decide (is_Some (Sorting.dateOf d a))) l.

(** No two elements of the list have the same date. *)
Definition datesDistinct (d : Document) (l : list nat) : bool :=
  bool_decide (NoDup (Sorting.dateOf d <$> l)).

(** Both dates are valid and [a] is dated no later than [b]. *)
Definition notLater (d : Document) : relation nat := keyLe (Sorting.dateOf d).

(** The comparison of [applySorting] cannot tell [a] from [x]: it
    yields 0 for them. *)
Definition tied (sortOption : string) (d : Document) (x a : nat) : Prop :=
  Sorting.compareChildren sortOption d x a = Some 0.

Global Instance tied_dec sortOption d x a : Decision (tied sortOption d x a).
Proof. unfold tied. apply _. Defined.

(** The order of the two resolution options: an unresolved thread
    before a resolved one, and two threads of one status by date, the
    older one first. *)
Definition unresolvedFirst (d : Document) : relation nat := λ a b,
  match Comments.isCommentResolved d a, Comments.isCommentResolved d b with
  | false, true => True
  | true, false => False
  | _, _ => notLater d a b
  end.

End Order.

(** The same for comment records. *)
Definition timestampsValid (l : list (option Comments.CommentData)) : bool :=
  forallb (λ c, bool_decide (is_Some (Comments.timestamp c))) (omap id l).

Definition stampedNotLater : relation Comments.CommentData :=
  keyLe Comments.timestamp.

(* ===================================================================== *)
(** ** Notions for the observer *)
(* ===================================================================== *)



(** The observations that restart the timer: those whose batch holds no
    record from the injected elements. *)
Definition restarts (o : Document * list Content.MutationRecord) : Prop :=
  Content.returnsEarly o.1 o.2 = false.

Global Instance restarts_dec o : Decision (restarts o).
Proof. unfold restarts. apply _. Defined.

(* ===================================================================== *)
(** ** Notions for the sort indicator and the merge box *)
(* ===================================================================== *)

(** What [updateSortIndicator] makes of the record of one button. *)
Definition indicated (sortOption : string) (nd : Node) : Node :=
  let isActive := bool_decide (attrs nd !! "data-sort" = Some sortOption) in
  withAttrs (<["aria-pressed" := if isActive then "true" else "false"]> (attrs nd))
    (Indicator.withClassList
       (Indicator.toggle "active" isActive (classList nd)) nd).

(** Every selector by which [moveMergeStatusToTop] looks for the merge
    box or for its enclosing item. *)
Definition mergeCandidates : Selector :=
  [byId "partial-pull-merging"; byClass "merge-status-list";
   byClass "branch-action-state-container"; byClass "merge-pr";
   byClass "js-merge-pr"; byClass "merge-message";
   byClass "branch-action-body"; byClass "branch-action-item"].

(** No node of the heap other than [mb] matches one of them. *)
Definition onlyMergeCandidate (d : Document) (mb : nat) : bool :=
  forallb (λ x, bool_decide (x = mb)) (nodesWhere (matchesNode mergeCandidates) d).

(* ===================================================================== *)
(** ** Concrete pages *)
(* ===================================================================== *)

Module Fixtures.

Definition element (tag i : string) (classes : list string)
    (attributes : list (string * string)) (parent : option nat)
    (kids : list nat) : Node :=
  mkNode ELEMENT_NODE tag i classes (list_to_map attributes) parent kids []
         (Some 1%nat) 20 600.

Definition textNode (s : string) (parent : option nat) : Node :=
  mkNode TEXT_NODE "" "" [] ∅ parent [] (units s) None 0 0.

(** A host that parses the two time stamps of the page below. *)
Definition isoHost : Host :=
  {| dateParse := λ s,
       if decide (s = "2024-05-01T10:00:00Z") then Some 1714557600000
       else if decide (s = "2024-05-02T10:00:00Z") then Some 1714644000000
       else None |}.

Definition reviewRemark : string :=
  "Please rename this variable: the current name shadows the outer binding.".

(** A pull request page on its conversation tab: the injected controls
    (13) with their button (14), the discussion (3) with a resolved
    thread (5, older) and an unresolved thread (6, newer), and the
    merge status box (16) in its container (15), whose id, child list
    and second child vary. *)
Definition page (actionsId : string) (actionsKids : list nat) (sibling : Node)
  : Document :=
  mkDocument (list_to_map
    [ (0, element "html" "" [] [] None [1]);
      (1, element "body" "" [] [] (Some 0) [13; 2]);
      (13, element "div" "" ["pr-comment-sorter-controls"] [] (Some 1) [14]);
      (14, element "button" "pr-sorter-unresolved-btn" ["pr-sorter-btn"] []
             (Some 13) []);
      (2, element "div" "discussion_bucket" [] [] (Some 1) [3; 15]);
      (3, element "div" "" ["js-discussion"] [] (Some 2) [4; 5; 6]);
      (4, textNode " " (Some 3));
      (5, element "div" "" ["js-timeline-item"] [] (Some 3) [7; 8]);
      (7, element "relative-time" "" [] [("datetime", "2024-05-01T10:00:00Z")]
            (Some 5) []);
      (8, element "details" "" [] [("data-resolved", "true")] (Some 5) []);
      (6, element "div" "" ["js-timeline-item"] [] (Some 3) [9; 10]);
      (9, element "relative-time" "" [] [("datetime", "2024-05-02T10:00:00Z")]
            (Some 6) []);
      (10, element "details" "" [] [("data-resolved", "false")] (Some 6) [11]);
      (11, element "div" "" ["comment-body"] [] (Some 10) [12]);
      (12, textNode reviewRemark (Some 11));
      (15, element "div" actionsId ["discussion-timeline-actions"] []
             (Some 2) actionsKids);
      (16, element "div" "" ["merge-status-list"] [] (Some 15) []);
      (17, sibling)
    ]%nat) 0%nat.

Definition plainSibling : Node := element "div" "" ["merge-message-box"] [] (Some 15%nat) [].

Definition prPage : Document := page "merge-actions" [16; 17]%nat plainSibling.

Definition worldAt (path : string) (d : Document) : World :=
  mkWorld d path "" initialState 1714650000000 true [] [] [] 1%nat.

Definition world (d : Document) : World := worldAt "/org/repo/pull/5" d.

End Fixtures.

(* ===================================================================== *)
(** ** More concrete inputs *)
(* ===================================================================== *)

Module Samples.

(** Three extracted records and a null entry, as [extractCommentData]
    gives them for the threads 5 and 6 of the page and for a thread 20
    without time element. *)
Definition records : list (option Comments.CommentData) :=
  [Some (Comments.mkCommentData 6 (Some 1714644000000) false true);
   None;
   Some (Comments.mkCommentData 20 (Some 1714650000002) true false);
   Some (Comments.mkCommentData 5 (Some 1714557600000) true true)].

(** A conversation page on which the controls (13) were injected
    inside the merge status box (16). *)
Definition nestedControls : Document :=
  mkDocument (list_to_map
    [ (0, Fixtures.element "html" "" [] [] None [1]);
      (1, Fixtures.element "body" "" [] [] (Some 0) [2]);
      (2, Fixtures.element "div" "discussion_bucket" [] [] (Some 1) [16]);
      (16, Fixtures.element "div" "" ["merge-status-list"] [] (Some 2) [13]);
      (13, Fixtures.element "div" "" ["pr-comment-sorter-controls"] []
             (Some 16) [])
    ]%nat) 0%nat.

(** A discussion (3) of three threads without review remarks: 20 and
    22 carry the same date, 21 an earlier one. *)
Definition tiedThreads : Document :=
  mkDocument (list_to_map
    [ (0, Fixtures.element "html" "" [] [] None [1]);
      (1, Fixtures.element "body" "" [] [] (Some 0) [3]);
      (3, Fixtures.element "div" "" ["js-discussion"] [] (Some 1) [20; 21; 22]);
      (20, Fixtures.element "div" "" ["js-timeline-item"] [] (Some 3) [30]);
      (30, Fixtures.element "relative-time" "" []
             [("datetime", "2024-05-02T10:00:00Z")] (Some 20) []);
      (21, Fixtures.element "div" "" ["js-timeline-item"] [] (Some 3) [31]);
      (31, Fixtures.element "relative-time" "" []
             [("datetime", "2024-05-01T10:00:00Z")] (Some 21) []);
      (22, Fixtures.element "div" "" ["js-timeline-item"] [] (Some 3) [32]);
      (32, Fixtures.element "relative-time" "" []
             [("datetime", "2024-05-02T10:00:00Z")] (Some 22) [])
    ]%nat) 0%nat.

End Samples.

(* ===================================================================== *)
(** ** Properties *)
(* ===================================================================== *)

Local Open Scope list_scope.

(** *** Lists and queries *)

Lemma head_filter_None {A} (P : A → Prop) `{∀ x, Decision (P x)} (l : list A) :
  head (filter P l) = None ↔ ∀ x, x ∈ l → ¬ P x.
Proof.
  rewrite head_None. split.
  - intros Hnil x Hx HP.
    assert (x ∈ filter P l) as Hin by (apply list_elem_of_filter; done).
    rewrite Hnil in Hin. by apply elem_of_nil in Hin.
  - intros Hall. induction l as [|a l IH]; [done|].
    rewrite filter_cons. destruct (decide (P a)) as [HP|HP].
    + exfalso. apply (Hall a); [left|done].
    + apply IH. intros x Hx. apply Hall. by right.
Qed.

Lemma head_filter_Some {A} (P : A → Prop) `{∀ x, Decision (P x)} (l : list A) x :
  head (filter P l) = Some x → x ∈ l ∧ P x.
Proof.
  intros Hh. apply head_Some_elem_of in Hh.
  by apply list_elem_of_filter in Hh as [? ?].
Qed.

Lemma filter_all {A} (P : A → Prop) `{∀ x, Decision (P x)} (l : list A) :
  (∀ x, x ∈ l → P x) → filter P l = l.
Proof.
  induction l as [|a l IH]; intros Hall; [done|].
  rewrite filter_cons_True by (apply Hall; left).
  f_equal. apply IH. intros x Hx. apply Hall. by right.
Qed.

Lemma matches_unresolvedSelector d x :
  matches d Comments.unresolvedSelector x = true ↔ flaggedUnresolved d x.
Proof.
  unfold matches, flaggedUnresolved.
  destruct (nodes d !! x) as [nd|]; [|split; [done|by intros (? & ? & _)]].
  unfold matchesNode, Comments.unresolvedSelector, matchesCompound, byTagAttr; simpl.
  rewrite orb_false_r, !andb_true_r, !andb_true_iff, !bool_decide_eq_true.
  split.
  - intros [[? ?] ?]. by exists nd.
  - intros (nd' & [= <-] & ? & ? & ?). done.
Qed.

(** *** The path short-circuit of the tab detection *)

(** C6. Whenever the URL path contains /files, /commits or /checks,
    [isConversationTab] answers false, whatever the fragment, the
    containers, their visibility and geometry, and the tab navigation
    are. *)
Theorem isConversationTab_false_on_other_tab_path (w : World) :
  includes (pathname w) "/files"
  || includes (pathname w) "/commits"
  || includes (pathname w) "/checks" = true →
  UI.isConversationTab w = false.
Proof.
  intros Hpath. unfold UI.isConversationTab.
  destruct (includes (pathname w) "/files"); [done|].
  destruct (includes (pathname w) "/commits"); [done|].
  destruct (includes (pathname w) "/checks"); [|done].
  by rewrite orb_true_r.
Qed.

(** The example of the specification: on the path /org/repo/pull/5/files
    the answer is false, on a page whose other signals all say
    conversation. *)
Lemma isConversationTab_files_path_witness :
  UI.isConversationTab (Fixtures.world Fixtures.prPage) = true
  ∧ UI.isConversationTab
      (Fixtures.worldAt "/org/repo/pull/5/files" Fixtures.prPage) = false.
Proof.
  split; [by vm_compute|].
  apply (isConversationTab_false_on_other_tab_path
           (Fixtures.worldAt "/org/repo/pull/5/files" Fixtures.prPage)).
  by vm_compute.
Defined.

(** *** The closed world of resolution *)

(** C7. A thread element is classified unresolved exactly when one of
    its descendants is a details element flagged data-resolved="false";
    without such a descendant it is classified resolved. *)
Theorem isCommentResolved_closed_world (d : Document) (e : nat) :
  (Comments.isCommentResolved d e = false
   ↔ ∃ x, x ∈ descendants d e ∧ flaggedUnresolved d x)
  ∧ (Comments.isCommentResolved d e = true
     ↔ ∀ x, x ∈ descendants d e → ¬ flaggedUnresolved d x).
Proof.
  unfold Comments.isCommentResolved, querySelectorIn, querySelectorAllIn.
  destruct (head _) as [x|] eqn:Hq.
  - apply head_filter_Some in Hq as [Hx Hm].
    apply matches_unresolvedSelector in Hm.
    split; split; try done.
    + intros _. by exists x.
    + intros Hall. by destruct (Hall x Hx).
  - rewrite head_filter_None in Hq.
    split; split; try done.
    + intros (x & Hx & Hf). destruct (Hq x Hx). by apply matches_unresolvedSelector.
    + intros _ x Hx Hf. destruct (Hq x Hx). by apply matches_unresolvedSelector.
Qed.

(** *** Runs of script code *)

Ltac run_monad :=
  cbv beta iota zeta delta
    [mbind M_bind mret M_ret gets modify throw tryCatch
     setCurrentSort setDebounceTimer savePreference consoleWarn consoleError
     safeQuery safeQueryAll].

Lemma sameButDocument_refl w : sameButDocument w w.
Proof. done. Qed.

Lemma sameButDocument_trans w1 w2 w3 :
  sameButDocument w1 w2 → sameButDocument w2 w3 → sameButDocument w1 w3.
Proof.
  intros (? & ? & ?) (? & ? & ?). repeat split; congruence.
Qed.

Lemma mutate_sameButDocument f w : sameButDocument w (worldOf (mutate f w)).
Proof. unfold mutate. by destruct (f (document w)). Qed.

Lemma forEach_mutate_sameButDocument {A} (f : A → Document → Result Document) l w :
  sameButDocument w (worldOf (forEach (λ x, mutate (f x)) l w)).
Proof.
  revert w. induction l as [|x l IH]; intros w; simpl; [done|].
  unfold mbind, M_bind.
  pose proof (mutate_sameButDocument (f x) w) as Hm.
  destruct (mutate (f x) w) as [[] w1|e w1]; simpl in *; [|done].
  eapply sameButDocument_trans; [exact Hm|apply IH].
Qed.

Lemma reorderElements_sameButDocument l c w :
  sameButDocument w (worldOf (Sorting.reorderElements l c w)).
Proof.
  unfold Sorting.reorderElements. destruct l as [|x l]; [done|].
  destruct c as [c|]; [|done].
  apply (forEach_mutate_sameButDocument (λ el, appendChild c el)).
Qed.

(** *** The snippet of an unresolved entry *)

Lemma mapIndexed_Forall {A B} (P : B → Prop) (f : A → nat → B) i l :
  (∀ x j, x ∈ l → P (f x j)) → Forall P (Comments.mapIndexed f i l).
Proof.
  revert i. induction l as [|x l IH]; intros i Hall; simpl; [constructor|].
  constructor; [apply Hall; left|].
  apply IH. intros y j Hy. apply Hall. by right.
Qed.

Lemma units_length s : length (units s) = String.length s.
Proof.
  unfold units. rewrite length_map.
  induction s as [|c s IH]; simpl; [done|]. by rewrite IH.
Qed.

Lemma snippetOf_length bodyText : (length (Comments.snippetOf bodyText) ≤ 63)%nat.
Proof.
  unfold Comments.snippetOf, substring0. cbv zeta.
  set (t := match bodyText with Some t => _ | None => _ end). clearbody t.
  destruct (decide (60 < length t)%nat) as [Hlen|Hlen]; [|lia].
  rewrite length_app, length_take, units_length.
  change (String.length "...") with 3%nat. lia.
Qed.

(** C8, as the code has it. Every entry of the unresolved tracker has a
    snippet of at most 63 code units: the normalized body text when
    that has at most 60 units, and otherwise its first 60 units followed
    by the three dots of the ellipsis. *)
Theorem snippet_at_most_63_units (w : World) :
  ∃ entries,
    Comments.getUnresolvedConversations w = Return entries w
    ∧ Forall (λ e,
        let t := normalizedBody (document w) (Comments.entryElement e) in
        Comments.snippet e
          = (if decide (60 < length t)%nat
             then (take 60 t ++ units "...")%list else t)
        ∧ (length (Comments.snippet e) ≤ 63)%nat) entries.
Proof.
  eexists. split; [reflexivity|].
  apply mapIndexed_Forall. intros details j _. simpl.
  split; [|apply snippetOf_length].
  unfold normalizedBody, Comments.snippetOf, substring0.
  by destruct (querySelectorIn _ _ _).
Qed.

(** C8 as stated fails: the review remark of the page has 72
    characters, and the snippet made of it has 63, more than 60. *)
Lemma snippet_of_long_remark_has_63_units :
  String.length Fixtures.reviewRemark = 72%nat
  ∧ match resultOf (Comments.getUnresolvedConversations
                      (Fixtures.world Fixtures.prPage)) with
    | Some [e] =>
        Comments.entryElement e = 10%nat
        ∧ length (Comments.snippet e) = 63%nat
        ∧ ¬ (length (Comments.snippet e) ≤ 60)%nat
    | _ => False
    end.
Proof.
  split; [by vm_compute|]. vm_compute.
  split; [done|]. split; [done|]. lia.
Qed.

(** *** Extraction of comment data *)

(** C9. [extractCommentData] never ends by an exception, whatever the
    date parser makes of the timestamp attribute. It returns null only
    for a null element, and a complete record for the given element
    otherwise: with a date that does not parse the time stamp is the
    invalid date, with a missing one it is the current time. When the
    element cannot be queried, the failure is caught: the record is the
    default (time stamp now + index, not resolved, no time element) and a
    warning is logged; otherwise nothing is logged. The document is left
    unchanged. *)
Theorem extractCommentData_never_aborts `{Host}
    (element : option nat) (index : Z) (w : World) :
  ∃ r w',
    Comments.extractCommentData element index w = Return r w'
    ∧ document w' = document w
    ∧ (r = None ↔ element = None)
    ∧ match element with
      | None => True
      | Some el =>
          ∃ c, r = Some c ∧ Comments.element c = el
            ∧ if isElement (document w) el
              then console w' = console w
                   ∧ Comments.resolved c = Comments.isCommentResolved (document w) el
                   ∧ Comments.timestamp c
                     = match querySelectorIn (document w) el Comments.timeSelector with
                       | Some t =>
                           match getAttribute (document w) t "datetime" with
                           | Some s => if decide (s = "") then Some (now w)
                                       else dateParse s
                           | None => Some (now w)
                           end
                       | None => Some (now w + index)
                       end
              else c = Comments.mkCommentData el (Some (now w + index)) false false
                   ∧ console w' = (console w ++ [Warn Comments.extractionWarning])%list
      end.
Proof.
  destruct element as [el|]; simpl.
  2: { exists None, w. by repeat split. }
  unfold Comments.callQuerySelector. run_monad.
  destruct (isElement (document w) el) eqn:Hel; run_monad.
  - destruct (querySelectorIn (document w) el Comments.timeSelector) as [t|]; run_monad.
    + destruct (getAttribute (document w) t "datetime") as [s|]; run_monad.
      * destruct (decide (s = "")); run_monad;
          (eexists _, _; split; [reflexivity|]; repeat split; try done;
           eexists; repeat split; done).
      * eexists _, _; split; [reflexivity|]; repeat split; try done.
        eexists; repeat split; done.
    + eexists _, _; split; [reflexivity|]; repeat split; try done.
      eexists; repeat split; done.
  - eexists _, _; split; [reflexivity|]; repeat split; try done.
    eexists; repeat split; done.
Qed.

(** *** The sort mode and its persistence *)

Section SortMode.
Context `{Host}.
Variable updateSortIndicator : option (string → Document → Result Document).
Variable showNotification : option (string → Document → Result Document).

Lemma feedback_sameButDocument sortOption w :
  sameButDocument w
    (worldOf (Sorting.feedback updateSortIndicator showNotification sortOption w)).
Proof.
  unfold Sorting.feedback. run_monad.
  destruct updateSortIndicator as [f|].
  - pose proof (mutate_sameButDocument (f sortOption) w) as Hf.
    destruct (mutate (f sortOption) w) as [[] w1|e w1]; simpl in *; [|done].
    destruct showNotification as [g|]; [|done].
    eapply sameButDocument_trans; [exact Hf|apply mutate_sameButDocument].
  - destruct showNotification as [g|]; [|done].
    apply mutate_sameButDocument.
Qed.

Lemma applySorting_split sortOption w :
  Sorting.applySorting updateSortIndicator showNotification sortOption w
  = sortDocument updateSortIndicator showNotification sortOption (modeStored sortOption w).
Proof. reflexivity. Qed.

Lemma sortDocument_sameButDocument sortOption w :
  sameButDocument w (worldOf (sortDocument updateSortIndicator showNotification sortOption w)).
Proof.
  unfold sortDocument, safeQuery, consoleWarn, gets, modify, mbind, M_bind.
  destruct (querySelector (document w) _) as [c|]; [|done].
  destruct (children (document w) c) as [|k ks] eqn:Hk; [done|].
  pose proof (reorderElements_sameButDocument
                (arraySort (Sorting.compareChildren sortOption (document w)) (k :: ks))
                (Some c) w) as Hr.
  destruct (Sorting.reorderElements _ _ w) as [[] w1|e w1]; [|done].
  eapply sameButDocument_trans; [exact Hr|apply feedback_sameButDocument].
Qed.

Lemma modeStored_state sortOption w :
  currentSort (state (modeStored sortOption w)) = sortOption
  ∧ storageSets (modeStored sortOption w)
    = (storageSets w
       ++ if hasStorageSync w then [("sortPreference", sortOption)] else [])%list
  ∧ document (modeStored sortOption w) = document w.
Proof.
  unfold modeStored. run_monad. cbn.
  destruct (hasStorageSync w); cbn; [done|]. by rewrite app_nil_r.
Qed.

Lemma applySorting_mode_and_storage sortOption w :
  let w' := worldOf (Sorting.applySorting updateSortIndicator showNotification
                       sortOption w) in
  currentSort (state w') = sortOption
  ∧ storageSets w'
    = (storageSets w
       ++ if hasStorageSync w then [("sortPreference", sortOption)] else [])%list.
Proof.
  cbv zeta. rewrite applySorting_split.
  destruct (sortDocument_sameButDocument sortOption (modeStored sortOption w))
    as (Hst & Hsets & _).
  destruct (modeStored_state sortOption w) as (Hmode & Hreq & _).
  rewrite Hst, Hsets. done.
Qed.

Lemma getStatus_reports_state w :
  ∃ n, Content.onMessage updateSortIndicator showNotification
         Content.GetStatusRequest w
       = Return (Content.Status (currentSort (state w)) n true) w.
Proof. eexists. reflexivity. Qed.

(** C10. [applySorting] sets the current mode to the given one and
    asks the sync storage (when there is one) to store it, whatever the
    document is; the work on the document comes after. When the
    container is absent or has no element child the document is left
    as it was, and the mode and the request are changed all the same.
    A status request that follows reports the new mode, and a request
    that the storage fulfils leaves the new mode stored. *)
Theorem applySorting_stores_mode_first (sortOption : string) (w : World) :
  let w' := worldOf (Sorting.applySorting updateSortIndicator showNotification
                       sortOption w) in
  Sorting.applySorting updateSortIndicator showNotification sortOption w
  = sortDocument updateSortIndicator showNotification sortOption (modeStored sortOption w)
  ∧ currentSort (state w') = sortOption
  ∧ storageSets w'
    = (storageSets w
       ++ if hasStorageSync w then [("sortPreference", sortOption)] else [])%list
  ∧ match querySelector (document w) [byClass "js-discussion"] with
    | None => document w' = document w
    | Some c => if children (document w) c is [] then document w' = document w
                else True
    end
  ∧ (∃ n, Content.onMessage updateSortIndicator showNotification
            Content.GetStatusRequest w'
          = Return (Content.Status sortOption n true) w')
  ∧ ∀ localOk stores,
      syncStore (settle true localOk ("sortPreference", sortOption) stores)
        !! "sortPreference" = Some sortOption.
Proof.
  cbv zeta. split; [apply applySorting_split|].
  destruct (applySorting_mode_and_storage sortOption w) as [Hmode Hsets].
  split; [exact Hmode|]. split; [exact Hsets|].
  split; [|split].
  - rewrite applySorting_split.
    destruct (modeStored_state sortOption w) as (_ & _ & Hdoc).
    generalize dependent (modeStored sortOption w). intros w2 Hdoc.
    unfold sortDocument, safeQuery, consoleWarn, gets, modify, mbind, M_bind.
    cbn beta iota. rewrite Hdoc.
    destruct (querySelector (document w) _) as [c|]; [|exact Hdoc].
    cbn beta iota. rewrite Hdoc.
    destruct (children (document w) c); [exact Hdoc|done].
  - destruct (getStatus_reports_state
                (worldOf (Sorting.applySorting updateSortIndicator
                            showNotification sortOption w))) as [n Hn].
    exists n. rewrite Hn. by rewrite Hmode.
  - intros localOk stores. unfold settle. simpl. apply lookup_insert_eq.
Qed.

(** C1, as the code has it. [toggleSort] advances the current mode to
    the next one in the cycle of all four modes, date-oldest,
    date-newest, resolved-last, unresolved-last and back to
    date-oldest: from date-newest it selects resolved-last, and only
    four toggles return to the mode they started from. *)
Theorem toggleSort_cycles_four_modes (w : World) :
  currentSort (state (worldOf (Sorting.toggleSort updateSortIndicator
                                 showNotification w)))
  = nextInCycle (currentSort (state w))
  ∧ nextInCycle DATE_NEWEST = RESOLVED_LAST
  ∧ Forall (λ s, nextInCycle (nextInCycle s) ≠ s
                 ∧ nextInCycle (nextInCycle (nextInCycle (nextInCycle s))) = s)
           SORT_OPTIONS_values.
Proof.
  split; [|split; [done|]].
  - unfold Sorting.toggleSort, gets, mbind, M_bind.
    destruct (applySorting_mode_and_storage
                (default "undefined"
                   (SORT_OPTIONS_values
                      !! Z.to_nat (Z.rem (indexOf (currentSort (state w))
                                                  SORT_OPTIONS_values + 1)
                                         (Z.of_nat (length SORT_OPTIONS_values)))))
                w) as [-> _].
    unfold nextInCycle, SORT_OPTIONS_values. simpl indexOf.
    repeat (case_decide; subst; try done).
  - repeat constructor; by vm_compute.
Qed.

End SortMode.

(** C1 as stated fails: on the page, where the mode is date-newest, one
    toggle selects resolved-last, and a second one unresolved-last
    instead of returning to date-newest. *)
Lemma toggleSort_leaves_the_two_mode_cycle :
  let toggle w := worldOf (@Sorting.toggleSort Fixtures.isoHost None None w) in
  let w0 := Fixtures.world Fixtures.prPage in
  currentSort (state w0) = DATE_NEWEST
  ∧ currentSort (state (toggle w0)) = RESOLVED_LAST
  ∧ currentSort (state (toggle (toggle w0))) = UNRESOLVED_LAST
  ∧ currentSort (state (toggle (toggle w0))) ≠ DATE_NEWEST.
Proof. by vm_compute. Qed.

(** *** The comparison for unresolved-last *)

(** The comparison for unresolved-last is the comparison for
    resolved-last: where exactly one of two threads is resolved, both
    put the unresolved one first. *)
Lemma unresolvedLast_compares_as_resolvedLast `{Host} (d : Document) (a b : nat) :
  Sorting.compareChildren UNRESOLVED_LAST d a b
  = Sorting.compareChildren RESOLVED_LAST d a b.
Proof.
  unfold Sorting.compareChildren.
  repeat (case_decide; try done).
  by destruct (Comments.isCommentResolved d a), (Comments.isCommentResolved d b).
Qed.

(** C2 fails on the code. The discussion of the page holds the resolved
    thread 5, the older one, before the unresolved thread 6. Sorting
    with unresolved-last puts the unresolved thread first, where the
    claim wants the resolved one first; sorting with resolved-last gives
    the same order, so the partitions are not swapped either. *)
Theorem unresolvedLast_puts_unresolved_first :
  let w0 := Fixtures.world Fixtures.prPage in
  let sorted sortOption :=
    children (document (worldOf (@Sorting.applySorting Fixtures.isoHost None None
                                   sortOption w0))) 3 in
  children (document w0) 3 = [5; 6]%nat
  ∧ Comments.isCommentResolved Fixtures.prPage 5 = true
  ∧ Comments.isCommentResolved Fixtures.prPage 6 = false
  ∧ @Sorting.dateOf Fixtures.isoHost Fixtures.prPage 5 = Some 1714557600000
  ∧ @Sorting.dateOf Fixtures.isoHost Fixtures.prPage 6 = Some 1714644000000
  ∧ sorted UNRESOLVED_LAST = [6; 5]%nat
  ∧ sorted RESOLVED_LAST = [6; 5]%nat.
Proof. by vm_compute. Qed.

(** *** The filter of the mutation observer *)

Lemma returnsEarly_existsb d mutations :
  Content.returnsEarly d mutations = existsb (Content.fromOwnElements d) mutations.
Proof.
  induction mutations as [|m r IH]; simpl; [done|].
  by destruct (Content.fromOwnElements d m).
Qed.

(** What the observer callback does: with a record whose target lies in
    an injected subtree anywhere in the batch it does nothing at all,
    and otherwise it leaves a reconciliation pending. *)
Lemma onMutations_all_or_nothing (mutations : list Content.MutationRecord) (w : World) :
  if existsb (Content.fromOwnElements (document w)) mutations
  then Content.onMutations mutations w = Return () w
  else Content.reconciliationPending (worldOf (Content.onMutations mutations w)) = true.
Proof.
  unfold Content.onMutations, gets, mbind, M_bind. cbn beta iota.
  rewrite returnsEarly_existsb.
  destruct (existsb _ _); [done|].
  unfold Content.reconciliationPending, Content.setTimeout, Content.clearTimeout,
    setDebounceTimer, modify.
  destruct (debounceTimer (state w)); cbn;
    apply bool_decide_eq_true; rewrite fmap_app; apply elem_of_app; right; by left.
Qed.

(** C4 fails on the code. In the batch below the first record is a
    change inside the injected controls (the button 14 added to the
    controls 13) and the second a change of the host page (the thread 6
    added to the discussion 3). The changed nodes are not all inside the
    injected subtrees, yet no reconciliation is scheduled: the callback
    returns at the first record. The second record alone schedules one. *)
Theorem mixed_batch_schedules_nothing :
  let w0 := Fixtures.world Fixtures.prPage in
  let own := Content.mkMutationRecord 13 [14%nat] [] in
  let host := Content.mkMutationRecord 3 [6%nat] [] in
  Content.fromOwnElements (document w0) own = true
  ∧ Content.fromOwnElements (document w0) host = false
  ∧ Content.reconciliationPending w0 = false
  ∧ Content.reconciliationPending (worldOf (Content.onMutations [own; host] w0)) = false
  ∧ timers (worldOf (Content.onMutations [own; host] w0)) = []
  ∧ Content.reconciliationPending (worldOf (Content.onMutations [host] w0)) = true
  ∧ Content.reconciliationPending (worldOf (Content.onMutations [own] w0)) = false.
Proof. by vm_compute. Qed.

(** *** The node heap under mutation *)

Lemma lookup_update n f d k :
  nodes (update n f d) !! k
  = if decide (n = k) then f <$> nodes d !! k else nodes d !! k.
Proof.
  unfold update, withNodes; simpl. rewrite lookup_alter.
  by case_decide; subst.
Qed.

Lemma documentElement_update n f d :
  documentElement (update n f d) = documentElement d.
Proof. done. Qed.

Lemma size_same_domain (m m' : gmap nat Node) :
  (∀ n, is_Some (m' !! n) ↔ is_Some (m !! n)) → size m' = size m.
Proof.
  intros Hdom. rewrite <- !(size_dom (D := gset nat)). f_equal.
  apply set_eq. intros n. by rewrite !elem_of_dom.
Qed.

Lemma ancestorsFrom_ext fuel (m m' : gmap nat Node) n :
  (∀ x, m' !! x ≫= parentNode = m !! x ≫= parentNode) →
  ancestorsFrom fuel m' n = ancestorsFrom fuel m n.
Proof.
  intros Hpar. revert n. induction fuel as [|f IH]; intros n; simpl; [done|].
  rewrite Hpar. destruct (m !! n ≫= parentNode); [|done]. by rewrite IH.
Qed.

(** The ancestors of a node depend on the parent pointers alone. *)
Lemma inclusiveAncestors_ext d d' n :
  (∀ x, is_Some (nodes d' !! x) ↔ is_Some (nodes d !! x)) →
  (∀ x, parentOf d' x = parentOf d x) →
  inclusiveAncestors d' n = inclusiveAncestors d n.
Proof.
  intros Hdom Hpar. unfold inclusiveAncestors, ancestors.
  rewrite (size_same_domain _ _ Hdom). f_equal. by apply ancestorsFrom_ext.
Qed.

(** *** What a well-formed document gives *)

Lemma wellFormed_node d n nd :
  wellFormed d = true → nodes d !! n = Some nd → nodeOk d n nd = true.
Proof.
  unfold wellFormed. rewrite !andb_true_iff, bool_decide_eq_true.
  intros [[Hall _] _] Hn. exact (Hall n nd Hn).
Qed.

Lemma wellFormed_NoDup d n :
  wellFormed d = true → NoDup (childNodesOf d n).
Proof.
  intros Hwf. unfold childNodesOf.
  destruct (nodes d !! n) as [nd|] eqn:Hn; [|constructor].
  pose proof (wellFormed_node d n nd Hwf Hn) as Hok. unfold nodeOk in Hok.
  rewrite !andb_true_iff, bool_decide_eq_true in Hok. tauto.
Qed.

Lemma wellFormed_child_parent d n k :
  wellFormed d = true → k ∈ childNodesOf d n → parentOf d k = Some n.
Proof.
  intros Hwf. unfold childNodesOf.
  destruct (nodes d !! n) as [nd|] eqn:Hn; [|by intros ?%elem_of_nil].
  pose proof (wellFormed_node d n nd Hwf Hn) as Hok. unfold nodeOk in Hok.
  rewrite !andb_true_iff, forallb_forall in Hok.
  destruct Hok as [[[_ Hkids] _] _]. intros Hk.
  apply list_elem_of_In in Hk. apply Hkids in Hk.
  by apply bool_decide_eq_true in Hk.
Qed.

Lemma wellFormed_parent d n p :
  wellFormed d = true → parentOf d n = Some p →
  n ∈ childNodesOf d p ∧ (depth d p < depth d n)%nat.
Proof.
  intros Hwf. unfold parentOf.
  destruct (nodes d !! n) as [nd|] eqn:Hn; simpl; [|done]. intros Hp.
  pose proof (wellFormed_node d n nd Hwf Hn) as Hok. unfold nodeOk in Hok.
  rewrite Hp, !andb_true_iff in Hok. destruct Hok as [[_ [Hin Hlt]] _].
  apply bool_decide_eq_true in Hin. by apply Nat.ltb_lt in Hlt.
Qed.

Lemma ancestorsFrom_deeper d fuel n x :
  wellFormed d = true → x ∈ ancestorsFrom fuel (nodes d) n →
  (depth d x < depth d n)%nat.
Proof.
  intros Hwf. revert n. induction fuel as [|f IH]; intros n; simpl.
  { by intros ?%elem_of_nil. }
  destruct (nodes d !! n ≫= parentNode) as [p|] eqn:Hp; [|by intros ?%elem_of_nil].
  destruct (wellFormed_parent d n p Hwf Hp) as [_ Hlt].
  intros [->|Hx]%elem_of_cons; [done|].
  specialize (IH p Hx). lia.
Qed.

(** A child is no inclusive ancestor of its parent. *)
Lemma child_not_inclusive_ancestor d p k :
  wellFormed d = true → parentOf d k = Some p → k ∉ inclusiveAncestors d p.
Proof.
  intros Hwf Hk. destruct (wellFormed_parent d k p Hwf Hk) as [_ Hlt].
  unfold inclusiveAncestors, ancestors. intros [->|Hanc]%elem_of_cons; [lia|].
  apply (ancestorsFrom_deeper d _ _ _ Hwf) in Hanc. lia.
Qed.

(** *** Sorting permutes *)

Lemma insertSorted_Permutation {A} (compare : A → A → number) x l :
  insertSorted compare x l ≡ₚ x :: l.
Proof.
  induction l as [|y l IH]; simpl; [done|].
  destruct (isPositive (compare x y)); [|done].
  rewrite IH. apply Permutation_swap.
Qed.

Lemma arraySort_Permutation {A} (compare : A → A → number) l :
  arraySort compare l ≡ₚ l.
Proof.
  induction l as [|x l IH]; simpl; [done|].
  rewrite insertSorted_Permutation. by rewrite IH.
Qed.

(** *** Re-attaching the children of a container *)

Lemma relisted_domain c L d d' x :
  relisted c L d d' → is_Some (nodes d' !! x) ↔ is_Some (nodes d !! x).
Proof.
  intros [_ Hn]. rewrite Hn. case_decide; [|done].
  by rewrite fmap_is_Some.
Qed.

Lemma relisted_parentOf c L d d' x :
  relisted c L d d' → parentOf d' x = parentOf d x.
Proof.
  intros [_ Hn]. unfold parentOf. rewrite Hn. case_decide; [|done].
  by destruct (nodes d !! x).
Qed.

Lemma relisted_isElement c L d d' x :
  relisted c L d d' → isElement d' x = isElement d x.
Proof.
  intros [_ Hn]. unfold isElement. rewrite Hn. case_decide; [|done].
  by destruct (nodes d !! x).
Qed.

Lemma relisted_childNodesOf c L d d' :
  relisted c L d d' → is_Some (nodes d !! c) → childNodesOf d' c = L.
Proof.
  intros [_ Hn] [cd Hc]. unfold childNodesOf. rewrite Hn, Hc.
  by rewrite decide_True.
Qed.

Lemma withParent_same nd p : parentNode nd = p → withParent p nd = nd.
Proof. intros <-. by destruct nd. Qed.

Lemma appendChild_relisted c L d d' k :
  wellFormed d = true → isElement d c = true → relisted c L d d' →
  parentOf d k = Some c →
  ∃ d'', appendChild c k d' = Ok d'' ∧ relisted c (moveToEnd k L) d d''.
Proof.
  intros Hwf Hel Hrel Hpar.
  assert (k ≠ c) as Hkc.
  { intros ->. destruct (wellFormed_parent d c c Hwf Hpar). lia. }
  unfold appendChild, insertBefore.
  rewrite (relisted_isElement c L d d' c Hrel), Hel. simpl.
  rewrite (inclusiveAncestors_ext d d' c
             (λ x, relisted_domain c L d d' x Hrel)
             (λ x, relisted_parentOf c L d d' x Hrel)).
  rewrite bool_decide_eq_false_2 by by apply child_not_inclusive_ancestor.
  eexists. split; [reflexivity|].
  destruct Hrel as [Hroot Hn]. unfold attach, detach.
  assert (parentOf d' k = Some c) as ->.
  { unfold parentOf. rewrite Hn, decide_False by done. exact Hpar. }
  split; [done|]. intros n.
  rewrite !lookup_update, !Hn. unfold parentOf in Hpar.
  repeat case_decide; subst; try congruence;
    destruct (nodes d !! n) as [nd|] eqn:Hnd; simpl in *; try done.
  f_equal. destruct nd; simpl in *. by subst.
Qed.

Lemma forEach_appendChild_relisted c d l : ∀ L d',
  wellFormed d = true → isElement d c = true → relisted c L d d' →
  (∀ k, k ∈ l → parentOf d k = Some c) →
  ∀ w, document w = d' →
  ∃ d'', forEach (λ el, mutate (appendChild c el)) l w = Return () (withDocument d'' w)
         ∧ relisted c (foldl (λ L k, moveToEnd k L) L l) d d''.
Proof.
  induction l as [|k l IH]; intros L d' Hwf Hel Hrel Hpar w Hw; simpl.
  - exists d'. split; [|done]. subst d'. by destruct w.
  - destruct (appendChild_relisted c L d d' k Hwf Hel Hrel) as (d1 & Happ & Hrel1).
    { apply Hpar. by left. }
    unfold mbind, M_bind, mutate at 1. rewrite Hw, Happ.
    destruct (IH (moveToEnd k L) d1 Hwf Hel Hrel1
                 (λ x Hx, Hpar x (list_elem_of_further _ _ _ Hx))
                 (withDocument d1 w) eq_refl) as (d2 & Hrun & Hrel2).
    exists d2. split; [|done]. by rewrite Hrun.
Qed.

(** Moving the nodes of [l] to the end, one after the other, leaves the
    other nodes in place and [l] after them. *)
Lemma foldl_moveToEnd (kids l : list nat) :
  NoDup l → (∀ k, k ∈ l → k ∈ kids) →
  foldl (λ L k, moveToEnd k L) kids l = filter (λ x, x ∉ l) kids ++ l.
Proof.
  induction l as [|k l IH] using rev_ind; intros Hnd Hsub; simpl.
  - rewrite app_nil_r. symmetry. apply filter_all. intros x _. apply not_elem_of_nil.
  - apply NoDup_app in Hnd as (Hnd & Hdisj & _).
    rewrite foldl_app. simpl. rewrite IH; [|done|].
    2: { intros x Hx. apply Hsub, elem_of_app. by left. }
    unfold moveToEnd. rewrite filter_app, <- app_assoc. f_equal.
    + rewrite list_filter_filter. apply list_filter_iff. intros x.
      rewrite elem_of_app, list_elem_of_singleton. tauto.
    + f_equal. apply filter_all.
      intros x Hx ->. apply (Hdisj k Hx). by left.
Qed.

Lemma filter_iff_in {A} (P Q : A → Prop)
    `{∀ x, Decision (P x)} `{∀ x, Decision (Q x)} (l : list A) :
  (∀ x, x ∈ l → P x ↔ Q x) → filter P l = filter Q l.
Proof.
  induction l as [|a l IH]; intros Hiff; [done|].
  rewrite !filter_cons.
  rewrite IH by (intros x Hx; apply Hiff; by right).
  destruct (decide (P a)) as [HP|HP], (decide (Q a)) as [HQ|HQ]; try done.
  - destruct HQ. apply Hiff; [left|done].
  - destruct HP. apply Hiff; [left|done].
Qed.

Lemma filter_none {A} (P : A → Prop) `{∀ x, Decision (P x)} (l : list A) :
  (∀ x, x ∈ l → ¬ P x) → filter P l = [].
Proof.
  induction l as [|a l IH]; intros Hall; [done|].
  rewrite filter_cons_False by (apply Hall; left).
  apply IH. intros x Hx. apply Hall. by right.
Qed.

Lemma querySelector_Some d s e :
  querySelector d s = Some e →
  e ∈ documentOrder d ∧ matches d s e = true.
Proof. intros Hq. by apply (head_filter_Some (λ n, matches d s n = true)) in Hq. Qed.

Lemma matches_isElement d s e :
  matches d s e = true → isElement d e = true.
Proof.
  unfold matches, isElement. destruct (nodes d !! e) as [nd|]; [|done].
  unfold matchesNode. rewrite existsb_exists.
  intros (c & _ & Hc). unfold matchesCompound in Hc.
  rewrite !andb_true_iff in Hc. tauto.
Qed.

Lemma relisted_refl c d : relisted c (childNodesOf d c) d d.
Proof.
  split; [done|]. intros n. case_decide; [subst|done].
  unfold childNodesOf. destruct (nodes d !! c) as [cd|]; [|done].
  simpl. f_equal. by destruct cd.
Qed.

Section Reordering.
Context `{Host}.
Variable updateSortIndicator : option (string → Document → Result Document).
Variable showNotification : option (string → Document → Result Document).

(** C5. On a well-formed document whose comment container has element
    children, [applySorting] re-attaches the existing nodes and nothing
    else: up to the indicator and the notification, which run on the
    resulting document, the child list of the container is a
    permutation of what it was, made of the nodes that are not elements
    followed by the element children in sorted order; every other node
    of the heap is as before, children and their content included, and
    the container itself differs in the order of its child list only. *)
Theorem applySorting_permutes_children (sortOption : string) (w : World) (c : nat) :
  wellFormed (document w) = true →
  querySelector (document w) [byClass "js-discussion"] = Some c →
  children (document w) c ≠ [] →
  let d := document w in
  let sorted := arraySort (Sorting.compareChildren sortOption d) (children d c) in
  ∃ d',
    Sorting.applySorting updateSortIndicator showNotification sortOption w
    = Sorting.feedback updateSortIndicator showNotification sortOption
        (withDocument d' (modeStored sortOption w))
    ∧ childNodesOf d' c ≡ₚ childNodesOf d c
    ∧ childNodesOf d' c
      = filter (λ k, isElement d k ≠ true) (childNodesOf d c) ++ sorted
    ∧ children d' c = sorted
    ∧ (∀ n, n ≠ c → nodes d' !! n = nodes d !! n)
    ∧ nodes d' !! c = withChildNodes (childNodesOf d' c) <$> nodes d !! c.
Proof.
  intros Hwf Hq Hne d sorted.
  destruct (querySelector_Some _ _ _ Hq) as [_ Hm].
  pose proof (matches_isElement _ _ _ Hm) as Hel.
  assert (is_Some (nodes d !! c)) as Hc.
  { unfold isElement in Hel. fold d in Hel. by destruct (nodes d !! c). }
  assert (sorted ≡ₚ children d c) as Hperm by apply arraySort_Permutation.
  assert (∀ k, k ∈ sorted ↔ k ∈ childNodesOf d c ∧ isElement d k = true) as Hin.
  { intros k. rewrite Hperm. unfold children.
    rewrite list_elem_of_filter. tauto. }
  assert (NoDup sorted) as Hnd.
  { rewrite Hperm. apply NoDup_filter, wellFormed_NoDup, Hwf. }
  destruct (forEach_appendChild_relisted c d sorted (childNodesOf d c) d
              Hwf Hel (relisted_refl c d)
              (λ k Hk, wellFormed_child_parent d c k Hwf (proj1 (proj1 (Hin k) Hk)))
              (modeStored sortOption w))
    as (d' & Hrun & Hrel).
  { apply modeStored_state. }
  rewrite foldl_moveToEnd in Hrel;
    [|done|intros k Hk; by apply Hin].
  rewrite (filter_iff_in (λ x, x ∉ sorted) (λ k, isElement d k ≠ true)) in Hrel.
  2: { intros x Hx. rewrite Hin. split; [|tauto].
       intros Hn He. apply Hn. done. }
  pose proof (relisted_childNodesOf _ _ _ _ Hrel Hc) as Hkids.
  exists d'. split; [|split; [|split; [|split; [|split]]]].
  - rewrite applySorting_split.
    destruct (modeStored_state sortOption w) as (_ & _ & Hdoc).
    unfold sortDocument, safeQuery, gets, mbind, M_bind. cbn beta iota.
    rewrite Hdoc. fold d. unfold d at 1. rewrite Hq. cbn beta iota.
    rewrite Hdoc. fold d. fold sorted.
    destruct (children d c) as [|k0 ks] eqn:Hch; [done|].
    unfold Sorting.reorderElements.
    destruct sorted as [|s0 ss] eqn:Hs.
    { apply Permutation_nil_l in Hperm. done. }
    assert (querySelector d [byClass "js-discussion"] = Some c) as -> by exact Hq.
    by rewrite Hrun.
  - rewrite Hkids, Hperm. unfold children.
    rewrite (Permutation_app_comm _ (filter _ _)).
    apply (filter_app_complement (λ k, isElement d k = true)).
  - exact Hkids.
  - unfold children. rewrite Hkids, filter_app.
    rewrite filter_none, filter_all; [done| |].
    + intros x Hx. rewrite (relisted_isElement _ _ _ _ x Hrel). by apply Hin.
    + intros x [Hx _]%list_elem_of_filter.
      by rewrite (relisted_isElement _ _ _ _ x Hrel).
  - intros n Hn. destruct Hrel as [_ Hl]. by rewrite Hl, decide_False.
  - destruct Hrel as [_ Hl]. by rewrite Hl, decide_True, Hkids.
Qed.

End Reordering.

(** The witness of C5: the reordering of the page by date-newest. *)
Lemma applySorting_permutes_children_witness :
  ∃ d', childNodesOf d' 3 ≡ₚ childNodesOf Fixtures.prPage 3
        ∧ children d' 3 = [6; 5]%nat.
Proof.
  destruct (applySorting_permutes_children (H := Fixtures.isoHost) None None
              DATE_NEWEST (Fixtures.world Fixtures.prPage) 3)
    as (d' & _ & Hperm & _ & Hsorted & _); [by vm_compute..|].
  exists d'. split; [exact Hperm|]. rewrite Hsorted. by vm_compute.
Defined.

(** *** Ancestors and tree order *)

Lemma up_snoc m j x y q :
  up m j x = Some y → m !! y ≫= parentNode = Some q → up m (S j) x = Some q.
Proof.
  revert x. induction j as [|j IH]; intros x; simpl.
  - intros [= ->] ->. done.
  - destruct (m !! x ≫= parentNode) as [p|]; simpl; [|done].
    intros Hup Hq. exact (IH p Hup Hq).
Qed.

Lemma subtree_mono m n f f' x :
  (f ≤ f')%nat → x ∈ subtree f m n → x ∈ subtree f' m n.
Proof.
  revert f' n. induction f as [|f IH]; intros f' n Hle; simpl.
  { by intros ?%elem_of_nil. }
  destruct f' as [|f']; [lia|]. simpl.
  destruct (m !! n) as [nd|]; [|done].
  intros [->|Hx]%elem_of_cons; [left|right].
  apply list_elem_of_In, in_flat_map in Hx as (y & Hy & Hx).
  apply list_elem_of_In, in_flat_map. exists y. split; [done|].
  apply list_elem_of_In, (IH f'); [lia|]. by apply list_elem_of_In.
Qed.

(** A node found in the subtree of [n] has [n] some levels up. *)
Lemma subtree_up d fuel n x :
  wellFormed d = true → x ∈ subtree fuel (nodes d) n →
  ∃ j, (j < fuel)%nat ∧ up (nodes d) j x = Some n.
Proof.
  intros Hwf. revert n. induction fuel as [|f IH]; intros n; simpl.
  { by intros ?%elem_of_nil. }
  destruct (nodes d !! n) as [nd|] eqn:Hn; [|by intros ?%elem_of_nil].
  intros [->|Hx]%elem_of_cons.
  { exists 0%nat. split; [lia|done]. }
  apply list_elem_of_In, in_flat_map in Hx as (y & Hy & Hx).
  apply list_elem_of_In in Hx, Hy.
  destruct (IH y Hx) as (j & Hj & Hup).
  exists (S j). split; [lia|].
  apply (up_snoc _ _ _ y); [done|].
  apply (wellFormed_child_parent d n y Hwf).
  unfold childNodesOf. by rewrite Hn.
Qed.

Lemma up_depth d j x y :
  wellFormed d = true → up (nodes d) j x = Some y →
  (j + depth d y ≤ depth d x)%nat.
Proof.
  intros Hwf. revert x. induction j as [|j IH]; intros x; simpl.
  { intros [= ->]. lia. }
  destruct (nodes d !! x ≫= parentNode) as [p|] eqn:Hp; simpl; [|done].
  intros Hup. specialize (IH p Hup).
  destruct (wellFormed_parent d x p Hwf Hp) as [_ Hlt]. lia.
Qed.

Lemma ancestorsFrom_length fuel m n : (length (ancestorsFrom fuel m n) ≤ fuel)%nat.
Proof.
  revert n. induction fuel as [|f IH]; intros n; simpl; [lia|].
  destruct (m !! n ≫= parentNode) as [p|]; simpl; [|lia].
  specialize (IH p). lia.
Qed.

Lemma depth_le_size d n : (depth d n ≤ size (nodes d))%nat.
Proof. apply ancestorsFrom_length. Qed.

Lemma up_in_ancestors m j x y f :
  up m j x = Some y → (j ≤ f)%nat → y ∈ x :: ancestorsFrom f m x.
Proof.
  revert x f. induction j as [|j IH]; intros x f; simpl.
  { intros [= ->] _. left. }
  destruct (m !! x ≫= parentNode) as [p|] eqn:Hp; simpl; [|done].
  intros Hup Hle. destruct f as [|f]; [lia|]. simpl. rewrite Hp.
  right. apply (IH p f Hup). lia.
Qed.

Lemma subtree_child m f n p pd x :
  p ∈ subtree f m n → m !! p = Some pd → x ∈ childNodes pd → is_Some (m !! x) →
  x ∈ subtree (S f) m n.
Proof.
  intros Hp Hpd Hx [xd Hxd]. revert n Hp.
  induction f as [|f IH]; intros n; [by intros ?%elem_of_nil|].
  cbn [subtree]. destruct (m !! n) as [nd|] eqn:Hn; [|by intros ?%elem_of_nil].
  intros [->|Hin]%elem_of_cons; right; apply list_elem_of_In, in_flat_map.
  - exists x. rewrite Hn in Hpd. injection Hpd as ->.
    split; [by apply list_elem_of_In|].
    apply list_elem_of_In. cbn [subtree]. rewrite Hxd. left.
  - apply list_elem_of_In, in_flat_map in Hin as (y & Hy & Hin).
    exists y. split; [done|].
    apply list_elem_of_In, IH. by apply list_elem_of_In.
Qed.

(** A node is in the subtree of an ancestor when every link of the chain
    between them is also a link from parent to child. *)
Lemma up_subtree m j x n :
  up m j x = Some n → is_Some (m !! x) →
  (∀ i y q, (i < j)%nat → up m i x = Some y → m !! y ≫= parentNode = Some q →
            ∃ qd, m !! q = Some qd ∧ y ∈ childNodes qd) →
  x ∈ subtree (S j) m n.
Proof.
  revert x. induction j as [|j IH]; intros x.
  - simpl. intros [= ->] [nd ->] _. left.
  - intros Hup Hx Hlinks. simpl in Hup.
    destruct (m !! x ≫= parentNode) as [p|] eqn:Hp; [|done].
    destruct (Hlinks 0%nat x p) as (pd & Hpd & Hxp); [lia|done|done|].
    apply (subtree_child m (S j) n p pd x); [|done..].
    apply IH; [done|by rewrite Hpd|].
    intros i y q Hi Hy Hq. apply (Hlinks (S i) y q); [lia| |done].
    simpl. by rewrite Hp.
Qed.

Lemma up_agree m m' j x :
  (∀ i y, (i < j)%nat → up m i x = Some y →
          m' !! y ≫= parentNode = m !! y ≫= parentNode) →
  up m' j x = up m j x.
Proof.
  revert x. induction j as [|j IH]; intros x Hagree; simpl; [done|].
  rewrite (Hagree 0%nat x) by (simpl; done || lia).
  destruct (m !! x ≫= parentNode) as [p|] eqn:Hp; [|done].
  apply IH. intros i y Hi Hy. apply (Hagree (S i)); [lia|].
  simpl. by rewrite Hp.
Qed.

(** In a well-formed document a node of the tree has the root some
    levels up, fewer than there are nodes. *)
Lemma documentOrder_up d x :
  wellFormed d = true → x ∈ documentOrder d →
  ∃ j, (j ≤ size (nodes d))%nat ∧ up (nodes d) j x = Some (documentElement d).
Proof.
  intros Hwf Hx. destruct (subtree_up d _ _ _ Hwf Hx) as (j & Hj & Hup).
  exists j. split; [lia|done].
Qed.

Lemma querySelector_unique d s x :
  x ∈ documentOrder d → matches d s x = true →
  (∀ y, matches d s y = true → y = x) →
  querySelector d s = Some x.
Proof.
  intros Hx Hm Huniq. unfold querySelector, querySelectorAll.
  destruct (head _) as [y|] eqn:Hh.
  - apply (head_filter_Some (λ n, matches d s n = true)) in Hh as [_ Hy].
    f_equal. by apply Huniq.
  - pose proof (proj1 (head_filter_None (λ n, matches d s n = true) _) Hh) as Hall.
    by destruct (Hall x Hx).
Qed.

Lemma matches_byId d i x :
  matches d [byId i] x = true ↔ isElement d x = true ∧ idOf d x = i.
Proof.
  unfold matches, isElement, idOf. destruct (nodes d !! x) as [nd|].
  - unfold matchesNode, matchesCompound, byId; simpl.
    rewrite orb_false_r, !andb_true_r, andb_true_iff, !bool_decide_eq_true. done.
  - split; [done|]. by intros [? _].
Qed.

Lemma getElementById_unique d i x :
  i ≠ "" → x ∈ documentOrder d → isElement d x = true → idOf d x = i →
  (∀ y, idOf d y = i → y = x) →
  getElementById d i = Some x.
Proof.
  intros Hi Hx Hel Hid Huniq. unfold getElementById.
  rewrite decide_False by done.
  apply (querySelector_unique d [byId i] x Hx).
  - by apply matches_byId.
  - intros y [_ Hy]%matches_byId. by apply Huniq.
Qed.

(** *** Child lists *)

Lemma insertInto_elem_of n r L x :
  x ∈ insertInto n r L ↔ x = n ∨ x ∈ L.
Proof.
  induction L as [|a L IH]; simpl.
  - rewrite list_elem_of_singleton, elem_of_nil. tauto.
  - case_decide; rewrite !elem_of_cons, ?IH; tauto.
Qed.

Lemma placeBefore_elem_of n ref L x :
  x ∈ placeBefore n ref L ↔ x = n ∨ x ∈ L.
Proof.
  destruct ref as [r|]; simpl; [apply insertInto_elem_of|].
  rewrite elem_of_app, list_elem_of_singleton. tauto.
Qed.

Lemma filter_ne_insertInto n r L :
  filter (λ x, x ≠ n) (insertInto n r L) = filter (λ x, x ≠ n) L.
Proof.
  induction L as [|a L IH]; simpl.
  - by rewrite filter_cons_False by (intros ?; done).
  - case_decide.
    + by rewrite filter_cons_False by (intros ?; done).
    + rewrite !filter_cons, IH. done.
Qed.

(** Taking the node out of the list it was placed in gives the list
    without the node. *)
Lemma filter_ne_placeBefore n ref L :
  filter (λ x, x ≠ n) (placeBefore n ref L) = filter (λ x, x ≠ n) L.
Proof.
  destruct ref as [r|]; simpl; [apply filter_ne_insertInto|].
  rewrite filter_app, filter_cons_False by (intros ?; done).
  by rewrite app_nil_r.
Qed.

Lemma after_elem_of n L r :
  NoDup L → after n L = Some r → r ∈ L ∧ r ≠ n.
Proof.
  induction L as [|a L IH]; simpl; [done|].
  intros [Ha Hnd]%NoDup_cons. case_decide as Han.
  - subst a. intros Hh. apply head_Some_elem_of in Hh.
    split; [by right|]. by intros ->.
  - intros Hr. destruct (IH Hnd Hr) as [Hin Hne]. split; [by right|done].
Qed.

(** Placing the node before its former next sibling, in the list it was
    taken from, restores the list. *)
Lemma placeBefore_after n L :
  NoDup L → n ∈ L →
  placeBefore n (after n L) (filter (λ x, x ≠ n) L) = L.
Proof.
  induction L as [|a L IH]; simpl; [by intros _ ?%elem_of_nil|].
  intros [Ha Hnd]%NoDup_cons Hin. case_decide as Han.
  - subst a. rewrite filter_cons_False by (intros ?; done).
    rewrite filter_all by (intros x Hx ->; done).
    destruct L as [|b L]; simpl; [done|].
    by rewrite decide_True.
  - apply elem_of_cons in Hin as [->|Hin]; [done|].
    rewrite filter_cons_True by done.
    specialize (IH Hnd Hin).
    destruct (after n L) as [r|] eqn:Hr; simpl in *.
    + destruct (after_elem_of n L r Hnd Hr) as [HrL _].
      rewrite decide_False by (intros ->; done). by rewrite IH.
    + by rewrite IH.
Qed.

(** *** Shape and content of a document *)

Lemma sameShape_refl d : sameShape d d.
Proof. by split. Qed.

Lemma sameShape_trans d1 d2 d3 :
  sameShape d1 d2 → sameShape d2 d3 → sameShape d1 d3.
Proof.
  intros [Hr1 H1] [Hr2 H2]. split; [congruence|]. intros x.
  destruct (H1 x) as (? & ? & ? & ?), (H2 x) as (? & ? & ? & ?).
  repeat split; try congruence; tauto.
Qed.

Lemma update_sameShape k f d : shapeKept f → sameShape d (update k f d).
Proof.
  intros Hf. split; [done|]. intros x.
  unfold parentOf, childNodesOf, isElement. rewrite lookup_update.
  case_decide; [subst|done].
  destruct (nodes d !! x) as [nd|]; simpl; [|done].
  destruct (Hf nd) as (-> & -> & ->). repeat split; by eexists.
Qed.

Lemma sameContentAt_refl d x : sameContentAt d d x.
Proof. done. Qed.

Lemma sameContentAt_trans d1 d2 d3 x :
  sameContentAt d1 d2 x → sameContentAt d2 d3 x → sameContentAt d1 d3 x.
Proof.
  intros (? & Ha1 & Hm1) (? & Ha2 & Hm2). split; [congruence|].
  split; intros; [rewrite Ha2|rewrite Hm2]; done.
Qed.

Lemma matchesNode_contentKept f s nd :
  contentKept f → matchesNode s (f nd) = matchesNode s nd.
Proof.
  intros Hf. destruct (Hf nd) as (Ht & Hl & Hi & Hc & Ha).
  unfold matchesNode. induction s as [|c s IH]; simpl; [done|].
  rewrite IH. f_equal. unfold matchesCompound.
  by rewrite Ht, Hl, Hi, Hc, Ha.
Qed.

Lemma update_sameContentAt k f d x :
  contentKept f ∨ x ≠ k → sameContentAt d (update k f d) x.
Proof.
  intros Hf. unfold sameContentAt, idOf, getAttribute, matches.
  rewrite lookup_update. case_decide; [subst|done].
  destruct Hf as [Hf|Hf]; [|done].
  destruct (nodes d !! x) as [nd|]; simpl; [|done].
  destruct (Hf nd) as (Ht & Hl & Hi & Hc & Ha).
  rewrite Hi, Ha. repeat split. intros s. by apply matchesNode_contentKept.
Qed.

Lemma withParent_contentKept p : contentKept (withParent p).
Proof. done. Qed.

Lemma relist_contentKept (g : list nat → list nat) :
  contentKept (λ pd, withChildNodes (g (childNodes pd)) pd).
Proof. done. Qed.

Lemma withAttrs_shapeKept (g : gmap string string → gmap string string) :
  shapeKept (λ nd, withAttrs (g (attrs nd)) nd).
Proof. done. Qed.

Lemma withId_shapeKept i : shapeKept (withId i).
Proof. done. Qed.

(** *** What [insertBefore] does to the tree *)

Lemma insertBefore_moved d p n q child :
  isElement d p = true →
  parentOf d n = Some q →
  is_Some (nodes d !! q) →
  n ≠ q →
  n ∉ inclusiveAncestors d p →
  match child with Some c => parentOf d c = Some p | None => True end →
  (∀ x, n ∈ childNodesOf d x → x = q) →
  ∃ d', insertBefore p n child d = Ok d'
        ∧ moved n p (if decide (child = Some n) then nextSibling d n else child) d d'
        ∧ ∀ x, sameContentAt d d' x.
Proof.
  intros Hel Hpar [qd Hqd] Hnq Hanc Hchild Hkids.
  assert (n ≠ p) as Hnp.
  { intros ->. apply Hanc. left. }
  assert (∃ nd, nodes d !! n = Some nd ∧ parentNode nd = Some q) as (nd & Hnd & Hndp).
  { unfold parentOf in Hpar. destruct (nodes d !! n) as [nd|]; [|done]. by exists nd. }
  assert (∃ pd, nodes d !! p = Some pd) as (pd & Hpd).
  { unfold isElement in Hel. destruct (nodes d !! p) as [pd|]; [|done]. by exists pd. }
  unfold insertBefore. rewrite Hel. simpl.
  rewrite bool_decide_eq_false_2 by done.
  replace (match child with Some c => _ | None => false end) with false.
  2: { destruct child as [c|]; [|done]. by rewrite Hchild, bool_decide_eq_true_2. }
  set (ref := if decide (child = Some n) then nextSibling d n else child).
  eexists. split; [reflexivity|].
  unfold attach, detach. rewrite Hpar.
  split; [|intros x].
  2: { eapply sameContentAt_trans; [|apply update_sameContentAt; by left].
       eapply sameContentAt_trans; [|apply update_sameContentAt; left;
                                     apply (relist_contentKept (placeBefore n ref))].
       eapply sameContentAt_trans; [|apply update_sameContentAt; by left].
       apply update_sameContentAt; left.
       apply (relist_contentKept (filter (λ k, k ≠ n))). }
  assert (∀ x, x ≠ q → filter (λ k, k ≠ n) (childNodesOf d x) = childNodesOf d x)
    as Hfil.
  { intros x Hx. apply filter_all. intros k Hk ->. by apply Hx, Hkids. }
  split; [done|]. split; [|split; [|split; [|split]]].
  - intros x. rewrite !lookup_update.
    repeat case_decide; rewrite ?fmap_is_Some; done.
  - intros x. unfold parentOf. rewrite !lookup_update.
    repeat case_decide; subst; try done;
      destruct (nodes d !! x) as [xd|]; simpl; try done.
  - intros x. unfold isElement. rewrite !lookup_update.
    repeat case_decide; subst; try done;
      destruct (nodes d !! x) as [xd|]; simpl; try done.
  - intros x Hxp. destruct (decide (x = q)) as [->|Hxq].
    + unfold childNodesOf. rewrite !lookup_update.
      repeat case_decide; try congruence. by rewrite Hqd.
    + rewrite Hfil by done.
      unfold childNodesOf. rewrite !lookup_update.
      repeat case_decide; try congruence.
      subst x. by rewrite Hnd.
  - unfold childNodesOf. rewrite !lookup_update.
    repeat case_decide; try congruence; rewrite Hpd; simpl; [done|].
    f_equal. symmetry.
    assert (p ≠ q) as Hpq by congruence.
    pose proof (Hfil p Hpq) as Hf.
    unfold childNodesOf in Hf. by rewrite Hpd in Hf.
Qed.

Lemma parentOf_lookup d x : parentOf d x = nodes d !! x ≫= parentNode.
Proof. done. Qed.

Lemma moved_sameShape_l n p ref d da d' :
  sameShape d da → moved n p ref da d' → moved n p ref d d'.
Proof.
  intros [Hr Hs] (Hr' & Hdom & Hpar & Hel & Hkids & Hnew).
  split; [congruence|]. split; [|split; [|split; [|split]]].
  - intros x. rewrite Hdom. apply Hs.
  - intros x. rewrite Hpar. case_decide; [done|]. apply Hs.
  - intros x. rewrite Hel. apply Hs.
  - intros x Hx. rewrite (Hkids x Hx). f_equal. apply Hs.
  - rewrite Hnew. do 2 f_equal. apply Hs.
Qed.

Lemma sameShape_nextSibling d d' x :
  sameShape d d' → nextSibling d' x = nextSibling d x.
Proof.
  intros [_ Hs]. unfold nextSibling.
  destruct (Hs x) as (_ & -> & _).
  destruct (parentOf d x) as [p|]; simpl; [|done].
  by destruct (Hs p) as (_ & _ & -> & _).
Qed.

Lemma sameShape_inclusiveAncestors d d' x :
  sameShape d d' → inclusiveAncestors d' x = inclusiveAncestors d x.
Proof.
  intros [_ Hs]. apply inclusiveAncestors_ext; intros y; apply Hs.
Qed.

Lemma ancestorsFrom_agree fuel (m m' : gmap nat Node) n x :
  (∀ y, y ≠ n → m' !! y ≫= parentNode = m !! y ≫= parentNode) →
  n ∉ x :: ancestorsFrom fuel m x →
  ancestorsFrom fuel m' x = ancestorsFrom fuel m x.
Proof.
  intros Hagree. revert x. induction fuel as [|f IH]; intros x Hn; simpl; [done|].
  rewrite Hagree by (intros ->; apply Hn; left).
  simpl in Hn. destruct (m !! x ≫= parentNode) as [q|]; [|done].
  rewrite IH; [done|]. intros Hq. apply Hn. by right.
Qed.

(** Moving a node leaves the ancestors of the nodes outside it as they
    were. *)
Lemma moved_inclusiveAncestors n p ref d d' x :
  moved n p ref d d' → n ∉ inclusiveAncestors d x →
  inclusiveAncestors d' x = inclusiveAncestors d x.
Proof.
  intros (_ & Hdom & Hpar & _) Hn. unfold inclusiveAncestors, ancestors in *.
  rewrite (size_same_domain _ _ Hdom). f_equal.
  apply (ancestorsFrom_agree _ _ _ n); [|done].
  intros y Hy. specialize (Hpar y). rewrite decide_False in Hpar by done.
  exact Hpar.
Qed.

Lemma wellFormed_parent_isElement d x p :
  wellFormed d = true → parentOf d x = Some p →
  isElement d p = true.
Proof.
  intros Hwf Hx. destruct (wellFormed_parent d x p Hwf Hx) as [Hin _].
  unfold childNodesOf, isElement in *.
  destruct (nodes d !! p) as [pd|] eqn:Hp; [|by apply elem_of_nil in Hin].
  pose proof (wellFormed_node d p pd Hwf Hp) as Hok. unfold nodeOk in Hok.
  rewrite !andb_true_iff, orb_true_iff in Hok. destruct Hok as [_ [Hel|Hnil]]; [done|].
  apply bool_decide_eq_true in Hnil. rewrite Hnil in Hin.
  by apply elem_of_nil in Hin.
Qed.

Lemma wellFormed_root d :
  wellFormed d = true →
  isElement d (documentElement d) = true ∧ parentOf d (documentElement d) = None.
Proof.
  unfold wellFormed. rewrite !andb_true_iff, !bool_decide_eq_true. tauto.
Qed.

(** The parent of an attached node is attached, one level nearer to the
    root. *)
Lemma attached_parent d x p :
  wellFormed d = true → attached d x → parentOf d x = Some p →
  ∃ j, (S j ≤ size (nodes d))%nat ∧ up (nodes d) j p = Some (documentElement d).
Proof.
  intros Hwf (j & Hj & Hup) Hp. destruct j as [|j]; simpl in Hup.
  - injection Hup as ->. destruct (wellFormed_root d Hwf) as [_ Hroot]. congruence.
  - rewrite parentOf_lookup in Hp. rewrite Hp in Hup. by exists j.
Qed.

Lemma up_add m i k x y :
  up m i x = Some y → up m (i + k) x = up m k y.
Proof.
  revert x. induction i as [|i IH]; intros x; simpl.
  - by intros [= ->].
  - destruct (m !! x ≫= parentNode) as [q|]; [|done]. apply IH.
Qed.

Lemma up_S m j x :
  up m (S j) x
  = match m !! x ≫= parentNode with Some p => up m j p | None => None end.
Proof. done. Qed.

Lemma ancestorsFrom_up m f x y :
  y ∈ ancestorsFrom f m x → ∃ i, up m (S i) x = Some y.
Proof.
  revert x. induction f as [|f IH]; intros x; cbn [ancestorsFrom];
    [by intros ?%elem_of_nil|].
  destruct (m !! x ≫= parentNode) as [q|] eqn:Hq; [|by intros ?%elem_of_nil].
  intros [->|Hy]%elem_of_cons.
  - exists 0%nat. by rewrite up_S, Hq.
  - destruct (IH q Hy) as [i Hi]. exists (S i). by rewrite up_S, Hq.
Qed.

(** The ancestors of an attached node are attached. *)
Lemma attached_ancestor d x y :
  wellFormed d = true → attached d x → y ∈ inclusiveAncestors d x → attached d y.
Proof.
  intros Hwf Hx [->|Hy]%elem_of_cons; [done|].
  destruct Hx as (j & Hj & Hup).
  destruct (ancestorsFrom_up _ _ _ _ Hy) as [i Hi].
  destruct (decide (S i ≤ j)%nat) as [Hle|Hgt].
  - exists (j - S i)%nat. split; [lia|].
    rewrite <- (up_add _ (S i) (j - S i) x y Hi).
    by replace (S i + (j - S i))%nat with j by lia.
  - exfalso. replace (S i) with (j + S (i - j))%nat in Hi by lia.
    rewrite (up_add _ j _ x _ Hup) in Hi. simpl in Hi.
    destruct (wellFormed_root d Hwf) as [_ Hroot].
    rewrite parentOf_lookup in Hroot. by rewrite Hroot in Hi.
Qed.

Lemma querySelector_attached d s x :
  wellFormed d = true → querySelector d s = Some x →
  attached d x ∧ isElement d x = true.
Proof.
  intros Hwf [Hx Hm]%querySelector_Some. split.
  - by apply documentOrder_up.
  - by apply matches_isElement in Hm.
Qed.

Lemma firstMatch_attached d sels x :
  wellFormed d = true → UI.firstMatch d sels = Some x →
  attached d x ∧ isElement d x = true.
Proof.
  intros Hwf. induction sels as [|s r IH]; simpl; [done|].
  destruct (querySelector d s) as [e|] eqn:Hq; [|done].
  intros [= <-]. by apply (querySelector_attached d s).
Qed.

(** The merge box picked is an element of the document tree. *)
Lemma findMergeBox_attached d mb :
  wellFormed d = true → UI.findMergeBox d = Some mb →
  attached d mb ∧ isElement d mb = true.
Proof.
  intros Hwf. unfold UI.findMergeBox.
  destruct (UI.firstMatch d UI.mergeBoxSelectors) as [e|] eqn:H1.
  { intros [= <-]. by apply (firstMatch_attached d _ _ Hwf H1). }
  destruct (UI.firstMatch d [[byClass "merge-message"]; _]) as [mc|] eqn:H2; [|done].
  destruct (firstMatch_attached d _ _ Hwf H2) as [Hatt Hel].
  destruct (closest d mc _) as [item|] eqn:Hc; intros [= <-]; [|done].
  unfold closest in Hc.
  apply (head_filter_Some (λ n, matches d _ n = true)) in Hc as [Hin Hm].
  split; [by apply (attached_ancestor d mc)|by apply matches_isElement in Hm].
Qed.

(** *** Tree order after a move *)

Lemma up_is_Some m j x y :
  up m j x = Some y → is_Some (m !! y) → is_Some (m !! x).
Proof.
  destruct j as [|j]; simpl; [by intros [= ->]|].
  destruct (m !! x) as [xd|]; [by eexists|done].
Qed.

Lemma elem_of_childNodesOf d q y :
  y ∈ childNodesOf d q → ∃ qd, nodes d !! q = Some qd ∧ y ∈ childNodes qd.
Proof.
  unfold childNodesOf. destruct (nodes d !! q) as [qd|]; [by exists qd|].
  by intros ?%elem_of_nil.
Qed.

(** A node whose chain of ancestors avoids the moved node is found at
    the same depth after the move. *)
Lemma moved_subtree d d' n p ref x j :
  wellFormed d = true → moved n p ref d d' →
  up (nodes d) j x = Some (documentElement d) →
  (∀ i y, up (nodes d) i x = Some y → y ≠ n) →
  x ∈ subtree (S j) (nodes d') (documentElement d').
Proof.
  intros Hwf (Hroot & Hdom & Hpar & _ & Hkids & Hnew) Hup Havoid.
  assert (∀ i, up (nodes d') i x = up (nodes d) i x) as Hsame.
  { intros i. apply up_agree. intros k y _ Hy.
    rewrite <- !parentOf_lookup, Hpar. by rewrite decide_False by by eapply Havoid. }
  rewrite Hroot. apply up_subtree.
  - by rewrite Hsame.
  - apply Hdom. apply (up_is_Some _ _ _ _ Hup).
    destruct (wellFormed_root d Hwf) as [Hel _].
    unfold isElement in Hel. by destruct (nodes d !! documentElement d).
  - intros i y q _ Hy Hq. rewrite Hsame in Hy.
    pose proof (Havoid i y Hy) as Hyn.
    rewrite <- parentOf_lookup, Hpar, decide_False in Hq by done.
    destruct (wellFormed_parent d y q Hwf Hq) as [Hin _].
    apply elem_of_childNodesOf.
    destruct (decide (q = p)) as [->|Hqp].
    + rewrite Hnew. apply placeBefore_elem_of. right.
      by apply list_elem_of_filter.
    + rewrite (Hkids q Hqp). by apply list_elem_of_filter.
Qed.

Lemma moved_documentOrder d d' n p ref x j :
  wellFormed d = true → moved n p ref d d' →
  up (nodes d) j x = Some (documentElement d) →
  (j ≤ size (nodes d))%nat →
  (∀ i y, up (nodes d) i x = Some y → y ≠ n) →
  x ∈ documentOrder d'.
Proof.
  intros Hwf Hmoved Hup Hj Havoid.
  pose proof (moved_subtree d d' n p ref x j Hwf Hmoved Hup Havoid) as Hin.
  destruct Hmoved as (_ & Hdom & _).
  unfold documentOrder, inclusiveDescendants.
  rewrite (size_same_domain _ _ Hdom).
  apply (subtree_mono _ _ (S j)); [lia|done].
Qed.

(** The moved node itself is in the tree, below its new parent. *)
Lemma moved_documentOrder_node d d' n p ref j :
  wellFormed d = true → moved n p ref d d' → is_Some (nodes d !! n) →
  up (nodes d) j p = Some (documentElement d) →
  (S j ≤ size (nodes d))%nat →
  (∀ i y, up (nodes d) i p = Some y → y ≠ n) →
  n ∈ documentOrder d'.
Proof.
  intros Hwf Hmoved Hn Hup Hj Havoid.
  pose proof (moved_subtree d d' n p ref p j Hwf Hmoved Hup Havoid) as Hin.
  destruct Hmoved as (_ & Hdom & _ & _ & _ & Hnew).
  assert (n ∈ childNodesOf d' p) as Hnp.
  { rewrite Hnew. apply placeBefore_elem_of. by left. }
  apply elem_of_childNodesOf in Hnp as (pd & Hpd & Hnpd).
  unfold documentOrder, inclusiveDescendants.
  rewrite (size_same_domain _ _ Hdom).
  apply (subtree_mono _ _ (S (S j))); [lia|].
  apply (subtree_child _ _ _ p pd); [done..|]. by apply Hdom.
Qed.

(** *** Attributes and ids *)

Lemma getAttribute_setAttribute_eq e k v d :
  is_Some (nodes d !! e) → getAttribute (setAttribute e k v d) e k = Some v.
Proof.
  intros [nd Hnd]. unfold getAttribute, setAttribute.
  rewrite lookup_update, decide_True, Hnd by done. simpl.
  apply lookup_insert_eq.
Qed.

Lemma getAttribute_setAttribute_ne e k v d x k' :
  x ≠ e ∨ k' ≠ k →
  getAttribute (setAttribute e k v d) x k' = getAttribute d x k'.
Proof.
  intros Hne. unfold getAttribute, setAttribute. rewrite lookup_update.
  case_decide; [subst|done].
  destruct (nodes d !! x) as [nd|]; simpl; [|done].
  destruct Hne as [?|Hk]; [done|]. by apply lookup_insert_ne.
Qed.

Lemma getAttribute_removeAttribute_eq e k d :
  getAttribute (removeAttribute e k d) e k = None.
Proof.
  unfold getAttribute, removeAttribute. rewrite lookup_update, decide_True by done.
  destruct (nodes d !! e) as [nd|]; simpl; [|done]. apply lookup_delete_eq.
Qed.

Lemma getAttribute_removeAttribute_ne e k d x k' :
  x ≠ e ∨ k' ≠ k →
  getAttribute (removeAttribute e k d) x k' = getAttribute d x k'.
Proof.
  intros Hne. unfold getAttribute, removeAttribute. rewrite lookup_update.
  case_decide; [subst|done].
  destruct (nodes d !! x) as [nd|]; simpl; [|done].
  destruct Hne as [?|Hk]; [done|]. by apply lookup_delete_ne.
Qed.

Lemma idOf_setAttribute e k v d x : idOf (setAttribute e k v d) x = idOf d x.
Proof.
  unfold idOf, setAttribute. rewrite lookup_update.
  case_decide; [subst|done]. by destruct (nodes d !! x).
Qed.

Lemma getAttribute_setId n i d x k :
  getAttribute (setId n i d) x k = getAttribute d x k.
Proof.
  unfold getAttribute, setId. rewrite lookup_update.
  case_decide; [subst|done]. by destruct (nodes d !! x).
Qed.

Lemma idOf_setId_eq n i d : is_Some (nodes d !! n) → idOf (setId n i d) n = i.
Proof.
  intros [nd Hnd]. unfold idOf, setId.
  by rewrite lookup_update, decide_True, Hnd.
Qed.

Lemma idOf_setId_ne n i d x : x ≠ n → idOf (setId n i d) x = idOf d x.
Proof.
  intros Hne. unfold idOf, setId. by rewrite lookup_update, decide_False.
Qed.

Lemma setAttribute_sameShape e k v d : sameShape d (setAttribute e k v d).
Proof. apply update_sameShape, (withAttrs_shapeKept (insert k v)). Qed.

Lemma removeAttribute_sameShape e k d : sameShape d (removeAttribute e k d).
Proof. apply update_sameShape, (withAttrs_shapeKept (delete k)). Qed.

Lemma setId_sameShape n i d : sameShape d (setId n i d).
Proof. apply update_sameShape, withId_shapeKept. Qed.

Lemma matches_byAttr d k v x :
  matches d [byAttr k v] x = true
  ↔ isElement d x = true ∧ getAttribute d x k = Some v.
Proof.
  unfold matches, isElement, getAttribute. destruct (nodes d !! x) as [nd|]; simpl.
  - unfold matchesNode, matchesCompound, byAttr; simpl.
    rewrite orb_false_r, !andb_true_r, andb_true_iff, !bool_decide_eq_true. done.
  - split; [done|]. by intros [? _].
Qed.

(** *** The merge status box: move and restore *)

Lemma moveMergeStatusToTop_unfold w mb sc scParent :
  UI.isConversationTab w = true →
  UI.findMergeBox (document w) = Some mb →
  getAttribute (document w) mb "data-moved-to-top" ≠ Some "true" →
  querySelector (document w) UI.controlsSelector = Some sc →
  parentOf (document w) sc = Some scParent →
  let d := document w in
  let da := recordOrigin mb (parentOf d mb) (nextSibling d mb) (now w) d in
  UI.moveMergeStatusToTop w
  = mutate (insertBefore scParent mb (nextSibling da sc)) (withDocument da w).
Proof.
  intros Hconv Hmb Hfresh Hsc Hscp d da.
  unfold UI.moveMergeStatusToTop, safeQuery, gets, mbind, M_bind.
  cbn beta iota. rewrite Hconv. cbn beta iota delta [negb]. rewrite Hmb.
  cbn beta iota. rewrite decide_False by done. rewrite Hsc. cbn beta iota.
  rewrite Hscp. subst da d. unfold recordOrigin.
  destruct (nextSibling (document w) mb) as [s|];
    [destruct (decide (idOf (document w) s = ""))|]; reflexivity.
Qed.

Lemma sameShape_is_Some d d' x :
  sameShape d d' → is_Some (nodes d !! x) → is_Some (nodes d' !! x).
Proof. intros [_ Hs] Hx. by apply Hs. Qed.

(** What the record of the original position changes in the document. *)
Lemma recordOrigin_facts d mb p sib t :
  is_Some (nodes d !! mb) →
  match sib with Some s => is_Some (nodes d !! s) ∧ s ≠ mb | None => True end →
  let da := recordOrigin mb (Some p) sib t d in
  sameShape d da
  ∧ getAttribute da mb "data-moved-to-top" = Some "true"
  ∧ getAttribute da mb "data-original-parent-id" = Some (idOf d p)
  ∧ getAttribute da mb "data-original-next-sibling-id"
    = match sib with
      | Some s => Some (idOf da s)
      | None => getAttribute d mb "data-original-next-sibling-id"
      end
  ∧ (∀ x k, x ≠ mb → getAttribute da x k = getAttribute d x k)
  ∧ (∀ x, idOf da x
          = match sib with
            | Some s => if decide (x = s ∧ idOf d s = "") then UI.restoreMarker t
                        else idOf d x
            | None => idOf d x
            end).
Proof.
  intros Hmb Hsib. unfold recordOrigin.
  set (d1 := setAttribute mb "data-moved-to-top" "true" d).
  set (d2 := setAttribute mb "data-original-parent-id" (idOf d1 p) d1).
  assert (sameShape d d1) as Hs1 by apply setAttribute_sameShape.
  assert (sameShape d d2) as Hs2.
  { eapply sameShape_trans; [exact Hs1|apply setAttribute_sameShape]. }
  assert (getAttribute d2 mb "data-moved-to-top" = Some "true") as Hk1.
  { unfold d2. rewrite getAttribute_setAttribute_ne by by right.
    by apply getAttribute_setAttribute_eq. }
  assert (getAttribute d2 mb "data-original-parent-id" = Some (idOf d p)) as Hk2.
  { unfold d2. rewrite getAttribute_setAttribute_eq
      by by apply (sameShape_is_Some d).
    unfold d1. by rewrite idOf_setAttribute. }
  assert (∀ x k, x ≠ mb → getAttribute d2 x k = getAttribute d x k) as Hother.
  { intros x k Hx. unfold d2, d1.
    by rewrite !getAttribute_setAttribute_ne by by left. }
  assert (∀ x, idOf d2 x = idOf d x) as Hid2.
  { intros x. unfold d2, d1. by rewrite !idOf_setAttribute. }
  destruct sib as [s|]; cbv zeta.
  2: { split; [exact Hs2|]. split; [exact Hk1|]. split; [exact Hk2|].
       split; [|split; [exact Hother|exact Hid2]].
       unfold d2, d1. by rewrite !getAttribute_setAttribute_ne by by right. }
  destruct Hsib as [Hs Hsmb].
  set (d3 := if decide (idOf d s = "") then setId s (UI.restoreMarker t) d2 else d2).
  assert (sameShape d d3) as Hs3.
  { unfold d3. case_decide; [|done].
    eapply sameShape_trans; [exact Hs2|apply setId_sameShape]. }
  assert (∀ x k, getAttribute d3 x k = getAttribute d2 x k) as Ha3.
  { intros x k. unfold d3. case_decide; [|done]. apply getAttribute_setId. }
  assert (∀ x, idOf d3 x
               = if decide (x = s ∧ idOf d s = "") then UI.restoreMarker t
                 else idOf d x) as Hid3.
  { intros x. unfold d3. destruct (decide (idOf d s = "")) as [He|He].
    - destruct (decide (x = s)) as [->|Hx].
      + rewrite decide_True by done.
        apply idOf_setId_eq. by apply (sameShape_is_Some d).
      + rewrite decide_False by (intros [? _]; done).
        by rewrite idOf_setId_ne.
    - rewrite decide_False by (intros [_ ?]; done). apply Hid2. }
  split; [|split; [|split; [|split; [|split]]]].
  - eapply sameShape_trans; [exact Hs3|apply setAttribute_sameShape].
  - rewrite getAttribute_setAttribute_ne by by right. by rewrite Ha3.
  - rewrite getAttribute_setAttribute_ne by by right. by rewrite Ha3.
  - rewrite getAttribute_setAttribute_eq by by apply (sameShape_is_Some d).
    by rewrite idOf_setAttribute.
  - intros x k Hx. rewrite getAttribute_setAttribute_ne by by left.
    rewrite Ha3. by apply Hother.
  - intros x. rewrite idOf_setAttribute. apply Hid3.
Qed.

Lemma restoreMergeStatusPosition_runs w mb p sib pid d2 :
  querySelector (document w) [byAttr "data-moved-to-top" "true"] = Some mb →
  getAttribute (document w) mb "data-original-parent-id" = Some pid →
  getElementById (document w) pid = Some p →
  match getAttribute (document w) mb "data-original-next-sibling-id" with
  | Some i => getElementById (document w) i
  | None => None
  end = sib →
  insertBefore p mb sib (document w) = Ok d2 →
  UI.restoreMergeStatusPosition w
  = Return ()
      (withDocument
         (removeAttribute mb "data-original-next-sibling-id"
            (removeAttribute mb "data-original-parent-id"
               (removeAttribute mb "data-moved-to-top" d2))) w).
Proof.
  intros Hq Hpid Hp Hsib Hins.
  unfold UI.restoreMergeStatusPosition, safeQuery, gets, mbind, M_bind.
  cbn beta iota. rewrite Hq. cbn beta iota. rewrite Hpid, Hp, Hsib.
  unfold mutate at 1. cbn beta iota. rewrite Hins. reflexivity.
Qed.

Lemma elem_of_nodesWhere P d x :
  x ∈ nodesWhere P d ↔ ∃ nd, nodes d !! x = Some nd ∧ P nd = true.
Proof.
  unfold nodesWhere. rewrite list_elem_of_fmap. split.
  - intros ([y nd] & -> & [HP Hin]%list_elem_of_filter).
    apply elem_of_map_to_list in Hin. by exists nd.
  - intros (nd & Hx & HP). exists (x, nd). split; [done|].
    apply list_elem_of_filter. split; [done|]. by apply elem_of_map_to_list.
Qed.

Lemma nodesWhere_hasId_only d i x y :
  i ≠ "" → nodesWhere (hasId i) d = [x] → idOf d y = i → y = x.
Proof.
  intros Hi Hx Hy. apply list_elem_of_singleton. rewrite <- Hx.
  apply elem_of_nodesWhere. unfold idOf in Hy.
  destruct (nodes d !! y) as [nd|]; [|congruence].
  exists nd. split; [done|]. by apply bool_decide_eq_true.
Qed.

Lemma nodesWhere_hasId_none d i y :
  i ≠ "" → nodesWhere (hasId i) d = [] → idOf d y ≠ i.
Proof.
  intros Hi Hnone Hy. apply (not_elem_of_nil y). rewrite <- Hnone.
  apply elem_of_nodesWhere. unfold idOf in Hy.
  destruct (nodes d !! y) as [nd|]; [|congruence].
  exists nd. split; [done|]. by apply bool_decide_eq_true.
Qed.

Lemma nodesWhere_hasAttribute_none d k v y :
  nodesWhere (hasAttribute k v) d = [] → getAttribute d y k ≠ Some v.
Proof.
  intros Hnone Hy. apply (not_elem_of_nil y). rewrite <- Hnone.
  apply elem_of_nodesWhere. unfold getAttribute in Hy.
  destruct (nodes d !! y) as [nd|]; [|done].
  exists nd. split; [done|]. by apply bool_decide_eq_true.
Qed.

Lemma restoreMarker_nonempty t : UI.restoreMarker t ≠ "".
Proof. done. Qed.

Lemma filter_ne_idemp (n : nat) (L : list nat) :
  filter (λ x, x ≠ n) (filter (λ x, x ≠ n) L) = filter (λ x, x ≠ n) L.
Proof. apply list_filter_filter_l. done. Qed.

Lemma isElement_is_Some d x : isElement d x = true → is_Some (nodes d !! x).
Proof. unfold isElement. destruct (nodes d !! x); [by eexists|done]. Qed.

(** Where the move is undone. On a well-formed conversation page where
    the merge box [mb] is about to be moved after the controls [sc], let
    the original parent [p] of the box carry a non-empty id that no
    other node carries, and let the next sibling be restorable. Then
    [moveMergeStatusToTop] records the id of the parent as it is (the
    parent is given no id) and the id of the next sibling, which gets
    the marker id if it had none, and moves the box under the parent of
    the controls; [restoreMergeStatusPosition] after it puts the box
    back under [p], before the same next sibling (at the end when there
    was none): the child list of [p] is what it was, and the three
    attributes recorded on the box are removed. *)
Theorem move_then_restore_returns_widget (w : World) (mb sc scParent p : nat) :
  let d := document w in
  wellFormed d = true →
  UI.isConversationTab w = true →
  UI.findMergeBox d = Some mb →
  querySelector d UI.controlsSelector = Some sc →
  parentOf d sc = Some scParent →
  bool_decide (mb ∈ inclusiveAncestors d scParent) = false →
  parentOf d mb = Some p →
  nodesWhere (hasAttribute "data-moved-to-top" "true") d = [] →
  idOf d p ≠ "" →
  nodesWhere (hasId (idOf d p)) d = [p] →
  siblingRestorable w mb →
  ∃ w1 w2,
    UI.moveMergeStatusToTop w = Return () w1
    ∧ parentOf (document w1) mb = Some scParent
    ∧ getAttribute (document w1) mb "data-original-parent-id" = Some (idOf d p)
    ∧ idOf (document w1) p = idOf d p
    ∧ match nextSibling d mb with
      | Some s =>
          getAttribute (document w1) mb "data-original-next-sibling-id"
          = Some (idOf (document w1) s)
          ∧ idOf (document w1) s
            = (if decide (idOf d s = "") then UI.restoreMarker (now w)
               else idOf d s)
      | None => True
      end
    ∧ UI.restoreMergeStatusPosition w1 = Return () w2
    ∧ parentOf (document w2) mb = Some p
    ∧ nextSibling (document w2) mb = nextSibling d mb
    ∧ childNodesOf (document w2) p = childNodesOf d p
    ∧ getAttribute (document w2) mb "data-moved-to-top" = None
    ∧ getAttribute (document w2) mb "data-original-parent-id" = None
    ∧ getAttribute (document w2) mb "data-original-next-sibling-id" = None.
Proof.
  intros d Hwf Hconv Hmb Hsc Hscp Hnotin Hp Hunmoved Hpid Hpuniq Hsibok.
  apply bool_decide_eq_false in Hnotin.
  destruct (findMergeBox_attached d mb Hwf Hmb) as [Hmbatt Hmbel].
  destruct (querySelector_attached d _ sc Hwf Hsc) as [Hscatt Hscel].
  destruct (wellFormed_parent d mb p Hwf Hp) as [Hmbin Hdepth].
  destruct (wellFormed_parent d sc scParent Hwf Hscp) as [Hscin _].
  pose proof (wellFormed_NoDup d p Hwf) as Hnd.
  pose proof (wellFormed_parent_isElement d mb p Hwf Hp) as Hpel.
  pose proof (wellFormed_parent_isElement d sc scParent Hwf Hscp) as Hspel.
  pose proof (isElement_is_Some d mb Hmbel) as Hmbdom.
  assert (mb ≠ p) as Hmbp by (intros ->; lia).
  assert (mb ≠ scParent) as Hmbsp by (intros ->; apply Hnotin; left).
  assert (nextSibling d mb = after mb (childNodesOf d p)) as Hsib.
  { unfold nextSibling. by rewrite Hp. }
  unfold siblingRestorable in Hsibok. fold d in Hsibok.
  set (sib := nextSibling d mb) in *.
  assert (match sib with
          | Some s => s ≠ mb ∧ parentOf d s = Some p ∧ is_Some (nodes d !! s)
          | None => True
          end) as Hsfacts.
  { destruct sib as [s|]; [|done]. symmetry in Hsib.
    destruct (after_elem_of mb _ s Hnd Hsib) as [Hin Hne].
    destruct Hsibok as [Hsel _]. split; [done|].
    split; [by apply (wellFormed_child_parent d p s Hwf)|].
    by apply isElement_is_Some. }
  destruct (recordOrigin_facts d mb p sib (now w) Hmbdom)
    as ([Hroota Hsh] & Ha1 & Ha2 & Ha3 & Haother & Hids).
  { destruct sib as [s|]; [|done]. tauto. }
  pose proof (moveMergeStatusToTop_unfold w mb sc scParent Hconv Hmb
                (nodesWhere_hasAttribute_none d _ _ mb Hunmoved) Hsc Hscp) as Hmove.
  cbv zeta in Hmove. fold d in Hmove. rewrite Hp in Hmove. fold sib in Hmove.
  set (da := recordOrigin mb (Some p) sib (now w) d) in *.
  assert (sameShape d da) as Hshape by (by split).
  (* The box moves under the parent of the controls. *)
  destruct (insertBefore_moved da scParent mb p (nextSibling da sc))
    as (d1 & Hins1 & Hmoved1 & Hcontent1).
  { destruct (Hsh scParent) as (_ & _ & _ & ->). done. }
  { destruct (Hsh mb) as (_ & -> & _). done. }
  { apply Hsh. by apply isElement_is_Some. }
  { done. }
  { by rewrite (sameShape_inclusiveAncestors d da). }
  { rewrite (sameShape_nextSibling d da) by done.
    unfold nextSibling. rewrite Hscp. simpl.
    destruct (after sc (childNodesOf d scParent)) as [c|] eqn:Hc; [|done].
    destruct (after_elem_of sc _ c (wellFormed_NoDup d scParent Hwf) Hc) as [Hin _].
    destruct (Hsh c) as (_ & -> & _).
    by apply (wellFormed_child_parent d scParent c Hwf). }
  { intros x Hx. destruct (Hsh x) as (_ & _ & Hk & _). rewrite Hk in Hx.
    pose proof (wellFormed_child_parent d x mb Hwf Hx). congruence. }
  apply (moved_sameShape_l _ _ _ d) in Hmoved1; [|done].
  set (ref1 := if decide (nextSibling da sc = Some mb) then nextSibling da mb
               else nextSibling da sc) in *.
  unfold mutate in Hmove. cbn [document withDocument] in Hmove.
  rewrite Hins1 in Hmove.
  set (w1 := withDocument d1 (withDocument da w)) in *.
  assert (∀ x k, getAttribute d1 x k = getAttribute da x k) as Hattr1.
  { intros x k. apply Hcontent1. }
  assert (∀ x, idOf d1 x = idOf da x) as Hid1.
  { intros x. apply Hcontent1. }
  destruct Hmoved1 as (Hroot1 & Hdom1 & Hpar1 & Hel1 & Hkids1 & Hnew1).
  assert (moved mb scParent ref1 d d1) as Hmoved1 by done.
  (* The chains of ancestors that avoid the box. *)
  destruct (attached_parent d mb p Hwf Hmbatt Hp) as (jp & Hjp & Hupp).
  destruct (attached_parent d sc scParent Hwf Hscatt Hscp) as (js & Hjs & Hups).
  assert (∀ i y, up (nodes d) i p = Some y → y ≠ mb) as Havoidp.
  { intros i y Hy ->. pose proof (up_depth d i p mb Hwf Hy). lia. }
  assert (∀ i y, up (nodes d) i scParent = Some y → y ≠ mb) as Havoids.
  { intros i y Hy ->. apply Hnotin.
    apply (up_in_ancestors _ i); [done|].
    pose proof (up_depth d i scParent mb Hwf Hy).
    pose proof (depth_le_size d scParent). lia. }
  assert (mb ∈ documentOrder d1) as Hmbin1.
  { by apply (moved_documentOrder_node d d1 mb scParent ref1 js). }
  assert (p ∈ documentOrder d1) as Hpin1.
  { apply (moved_documentOrder d d1 mb scParent ref1 p jp); [done..|lia|done]. }
  (* The queries of the restoration. *)
  assert (querySelector d1 [byAttr "data-moved-to-top" "true"] = Some mb) as Hq1.
  { apply querySelector_unique; [done| |].
    - apply matches_byAttr. by rewrite Hel1, Hattr1.
    - intros y [_ Hy]%matches_byAttr. rewrite Hattr1 in Hy.
      destruct (decide (y = mb)) as [->|Hne]; [done|].
      rewrite Haother in Hy by done.
      by destruct (nodesWhere_hasAttribute_none d _ _ y Hunmoved). }
  assert (idOf d1 p = idOf d p) as Hidp.
  { rewrite Hid1, Hids. destruct sib as [s|]; [|done].
    rewrite decide_False; [done|]. intros [-> _].
    destruct Hsfacts as (_ & Hsp & _).
    destruct (wellFormed_parent d s s Hwf Hsp). lia. }
  assert (getElementById d1 (idOf d p) = Some p) as Hq2.
  { apply getElementById_unique; [done|done|by rewrite Hel1|done|].
    intros y Hy. rewrite Hid1, Hids in Hy.
    destruct sib as [s|].
    - destruct (decide (y = s ∧ idOf d s = "")) as [[-> He]|Hn].
      + destruct Hsibok as [_ Hfresh]. rewrite decide_True in Hfresh by done.
        destruct (nodesWhere_hasId_none d _ p (restoreMarker_nonempty _) Hfresh).
        done.
      + by apply (nodesWhere_hasId_only d (idOf d p)).
    - by apply (nodesWhere_hasId_only d (idOf d p)). }
  assert (match getAttribute d1 mb "data-original-next-sibling-id" with
          | Some i => getElementById d1 i
          | None => None
          end = sib) as Hq3.
  { rewrite Hattr1, Ha3. destruct sib as [s|].
    2: { by rewrite Hsibok. }
    destruct Hsfacts as (Hsmb & Hsp & Hsdom). destruct Hsibok as [Hsel Hsuniq].
    assert (idOf da s = if decide (idOf d s = "") then UI.restoreMarker (now w)
                        else idOf d s) as Hsid.
    { rewrite Hids. destruct (decide (idOf d s = "")) as [He|He].
      - by rewrite decide_True.
      - rewrite decide_False; [done|]. by intros [_ ?]. }
    apply getElementById_unique.
    - rewrite Hsid. case_decide; [apply restoreMarker_nonempty|done].
    - apply (moved_documentOrder d d1 mb scParent ref1 s (S jp)); [done..| |lia|].
      + rewrite up_S, <- parentOf_lookup, Hsp. done.
      + intros [|i] y; [by intros [= <-]|].
        rewrite up_S, <- parentOf_lookup, Hsp. apply Havoidp.
    - by rewrite Hel1.
    - apply Hid1.
    - intros y Hy. rewrite Hid1, Hids in Hy.
      destruct (decide (y = s ∧ idOf d s = "")) as [[-> _]|Hn]; [done|].
      rewrite Hsid in Hy. destruct (decide (idOf d s = "")) as [He|He].
      + by destruct (nodesWhere_hasId_none d _ y (restoreMarker_nonempty _) Hsuniq).
      + by apply (nodesWhere_hasId_only d (idOf d s)). }
  (* The box moves back. *)
  destruct (insertBefore_moved d1 p mb scParent sib)
    as (d2 & Hins2 & Hmoved2 & Hcontent2).
  { by rewrite Hel1. }
  { by rewrite Hpar1, decide_True. }
  { apply Hdom1. by apply isElement_is_Some. }
  { done. }
  { rewrite (moved_inclusiveAncestors mb scParent ref1 d d1) by
      (done || by apply child_not_inclusive_ancestor).
    by apply child_not_inclusive_ancestor. }
  { destruct sib as [s|]; [|done]. destruct Hsfacts as (Hsmb & Hsp & _).
    by rewrite Hpar1, decide_False. }
  { intros x Hx. destruct (decide (x = scParent)) as [|Hne]; [done|].
    rewrite (Hkids1 x Hne) in Hx. by apply list_elem_of_filter in Hx as [? _]. }
  rewrite decide_False in Hmoved2.
  2: { destruct sib as [s|]; [|done]. destruct Hsfacts as (Hsmb & _). congruence. }
  destruct Hmoved2 as (Hroot2 & Hdom2 & Hpar2 & Hel2 & Hkids2 & Hnew2).
  assert (childNodesOf d2 p = childNodesOf d p) as Hrestored.
  { rewrite Hnew2.
    replace (filter (λ k, k ≠ mb) (childNodesOf d1 p))
      with (filter (λ k, k ≠ mb) (childNodesOf d p)).
    - rewrite Hsib. by apply placeBefore_after.
    - destruct (decide (p = scParent)) as [->|Hne].
      + by rewrite Hnew1, filter_ne_placeBefore, filter_ne_idemp.
      + by rewrite (Hkids1 p Hne), filter_ne_idemp. }
  set (d3 := removeAttribute mb "data-original-next-sibling-id"
               (removeAttribute mb "data-original-parent-id"
                  (removeAttribute mb "data-moved-to-top" d2))).
  assert (sameShape d2 d3) as [_ Hsh3].
  { eapply sameShape_trans; [|apply removeAttribute_sameShape].
    eapply sameShape_trans; [|apply removeAttribute_sameShape].
    apply removeAttribute_sameShape. }
  exists w1, (withDocument d3 w1).
  split; [exact Hmove|]. split; [by rewrite Hpar1, decide_True|].
  split; [by rewrite Hattr1|]. split; [exact Hidp|].
  split.
  { destruct sib as [s|]; [|done]. split; [by rewrite Hattr1, Hid1|].
    rewrite Hid1, Hids. destruct (decide (idOf d s = "")) as [He|He].
    - by rewrite decide_True.
    - rewrite decide_False; [done|]. by intros [_ ?]. }
  split.
  { by apply (restoreMergeStatusPosition_runs w1 mb p sib (idOf d p) d2);
      [done|rewrite Hattr1|..]. }
  assert (parentOf d3 mb = Some p) as Hp3.
  { cbn [document withDocument]. destruct (Hsh3 mb) as (_ & -> & _).
    by rewrite Hpar2, decide_True. }
  assert (childNodesOf d3 p = childNodesOf d p) as Hk3.
  { destruct (Hsh3 p) as (_ & _ & -> & _). done. }
  split; [exact Hp3|]. split; [|split; [exact Hk3|split; [|split]]].
  - cbn [document withDocument]. unfold nextSibling at 1.
    rewrite Hp3. simpl. by rewrite Hk3, Hsib.
  - cbn [document withDocument]. unfold d3.
    rewrite !getAttribute_removeAttribute_ne by by right.
    apply getAttribute_removeAttribute_eq.
  - cbn [document withDocument]. unfold d3.
    rewrite getAttribute_removeAttribute_ne by by right.
    apply getAttribute_removeAttribute_eq.
  - cbn [document withDocument]. unfold d3.
    apply getAttribute_removeAttribute_eq.
Qed.

(** An instance: on the page, the merge box 16 under the container 15
    with the id merge-actions, before the sibling 17 without id, is
    moved after the controls 13 and put back where it was. *)
Lemma move_then_restore_returns_widget_witness :
  ∃ w1 w2,
    UI.moveMergeStatusToTop (Fixtures.world Fixtures.prPage) = Return () w1
    ∧ parentOf (document w1) 16 = Some 1%nat
    ∧ UI.restoreMergeStatusPosition w1 = Return () w2
    ∧ parentOf (document w2) 16 = Some 15%nat
    ∧ nextSibling (document w2) 16 = Some 17%nat.
Proof.
  destruct (move_then_restore_returns_widget
              (Fixtures.world Fixtures.prPage) 16 13 1 15)
    as (w1 & w2 & Hmove & Hp1 & _ & _ & _ & Hrestore & Hp2 & Hn2 & _);
    [by vm_compute..| |].
  - unfold siblingRestorable. by vm_compute.
  - exists w1, w2. repeat split; try done; rewrite Hn2; by vm_compute.
Defined.

(** C3 fails on the code: the original parent is given no identifier
    when it has none, and the restoration then misses it. On the two
    pages below the container 15 of the merge box 16 has no id. The
    move records the empty string for the parent and leaves the parent
    without id, where it gives the next sibling 17 the marker id and
    records that. [restoreMergeStatusPosition] finds no parent by the
    empty string and falls back to the discussion bucket 2. With the
    box as the last child of 15 it appends the box to the bucket, under
    another parent than before. With the box before the sibling 17 it
    asks the bucket to insert the box before 17, which is no child of
    the bucket: the insertion throws NotFoundError, the box stays after
    the controls, and it stays marked as moved, as the attributes are
    removed after the insertion only. *)
Theorem restore_without_parent_id_misses_parent :
  let run d :=
    let w1 := worldOf (UI.moveMergeStatusToTop (Fixtures.world d)) in
    (w1, UI.restoreMergeStatusPosition w1) in
  let lastChild := Fixtures.page "" [17; 16]%nat Fixtures.plainSibling in
  let withSibling := Fixtures.page "" [16; 17]%nat Fixtures.plainSibling in
  wellFormed lastChild = true
  ∧ parentOf lastChild 16 = Some 15%nat
  ∧ nextSibling lastChild 16 = None
  ∧ idOf lastChild 15 = ""
  ∧ parentOf (document (run lastChild).1) 16 = Some 1%nat
  ∧ idOf (document (run lastChild).1) 15 = ""
  ∧ getAttribute (document (run lastChild).1) 16 "data-original-parent-id" = Some ""
  ∧ resultOf (run lastChild).2 = Some ()
  ∧ parentOf (document (worldOf (run lastChild).2)) 16 = Some 2%nat
  ∧ parentOf (document (worldOf (run lastChild).2)) 16 ≠ Some 15%nat
  ∧ childNodesOf (document (worldOf (run lastChild).2)) 15 = [17]%nat
  ∧ childNodesOf (document (worldOf (run lastChild).2)) 2 = [3; 15; 16]%nat
  ∧ wellFormed withSibling = true
  ∧ parentOf withSibling 16 = Some 15%nat
  ∧ nextSibling withSibling 16 = Some 17%nat
  ∧ idOf withSibling 15 = ""
  ∧ idOf withSibling 17 = ""
  ∧ parentOf (document (run withSibling).1) 16 = Some 1%nat
  ∧ idOf (document (run withSibling).1) 15 = ""
  ∧ idOf (document (run withSibling).1) 17
    = UI.restoreMarker (now (Fixtures.world withSibling))
  ∧ getAttribute (document (run withSibling).1) 16 "data-original-next-sibling-id"
    = Some (UI.restoreMarker (now (Fixtures.world withSibling)))
  ∧ (run withSibling).2 = Raise NotFoundError (run withSibling).1
  ∧ parentOf (document (worldOf (run withSibling).2)) 16 = Some 1%nat
  ∧ childNodesOf (document (worldOf (run withSibling).2)) 15 = [17]%nat
  ∧ getAttribute (document (worldOf (run withSibling).2)) 16 "data-moved-to-top"
    = Some "true".
Proof. by vm_compute. Qed.

(* ===================================================================== *)
(** ** The order that the sort produces *)
(* ===================================================================== *)

Section SortTheory.
Context {A : Type} (compare : A → A → number).

Lemma elem_of_arraySort l x : x ∈ arraySort compare l ↔ x ∈ l.
Proof. by rewrite (arraySort_Permutation compare l). Qed.

Lemma arraySort_cons x l :
  arraySort compare (x :: l) = insertSorted compare x (arraySort compare l).
Proof. done. Qed.

(** Inserting leaves the elements of a class in their order, when the
    comparison never puts one element of the class after another. *)
Lemma insertSorted_filter (P : A → Prop) `{∀ x, Decision (P x)} x l :
  (∀ y, y ∈ l → P x → P y → isPositive (compare x y) = false) →
  filter P (insertSorted compare x l) = filter P (x :: l).
Proof.
  induction l as [|y r IH]; intros Hc; [done|].
  cbn [insertSorted]. destruct (isPositive (compare x y)) eqn:Hp; [|done].
  rewrite filter_cons, IH by (intros z Hz; apply Hc; by right).
  rewrite !filter_cons.
  destruct (decide (P y)) as [Hy|Hy], (decide (P x)) as [Hx|Hx]; try done.
  rewrite Hc in Hp; [done|by left|done|done].
Qed.

Lemma arraySort_filter (P : A → Prop) `{∀ x, Decision (P x)} l :
  (∀ x y, x ∈ l → y ∈ l → P x → P y → isPositive (compare x y) = false) →
  filter P (arraySort compare l) = filter P l.
Proof.
  intros Hc. induction l as [|x l IH]; [done|].
  rewrite arraySort_cons, insertSorted_filter.
  - rewrite !filter_cons, IH; [done|]. intros a b Ha Hb. apply Hc; by right.
  - intros y Hy. rewrite elem_of_arraySort in Hy. apply Hc; [by left|by right].
Qed.

Lemma insertSorted_Sorted (R : relation A) x l :
  (∀ y, y ∈ l → if isPositive (compare x y) then R y x else R x y) →
  Sorted R l → Sorted R (insertSorted compare x l).
Proof.
  induction l as [|y r IH]; intros Hc Hs.
  { repeat constructor. }
  pose proof (Hc y ltac:(by left)) as Hy.
  cbn [insertSorted]. destruct (isPositive (compare x y)) eqn:Hp; cbn in Hy.
  - apply Sorted_inv in Hs as [Hs Hhd]. constructor.
    + apply IH; [|done]. intros z Hz. apply Hc. by right.
    + destruct r as [|z r']; [by repeat constructor|].
      cbn [insertSorted]. apply HdRel_inv in Hhd.
      destruct (isPositive (compare x z)); by constructor.
  - constructor; [done|]. by constructor.
Qed.

Lemma arraySort_Sorted (R : relation A) l :
  (∀ x y, x ∈ l → y ∈ l → if isPositive (compare x y) then R y x else R x y) →
  Sorted R (arraySort compare l).
Proof.
  induction l as [|x l IH]; intros Hc; [constructor|].
  rewrite arraySort_cons. apply insertSorted_Sorted.
  - intros y Hy. apply Hc; [by left|]. right. by rewrite elem_of_arraySort in Hy.
  - apply IH. intros y z Hy Hz. apply Hc; by right.
Qed.

(** *** The stable sort of a list under a consistent comparison *)

Lemma StronglySorted_weaken (R R' : relation A) l :
  (∀ a b, R a b → R' a b) → StronglySorted R l → StronglySorted R' l.
Proof.
  intros HR. induction 1 as [|x l Hl IH Hx]; constructor; [done|].
  eapply Forall_impl; [exact Hx|]. intros y. apply HR.
Qed.

Lemma arraySort_StronglySorted l :
  consistentOn compare l →
  StronglySorted (mayPrecede compare) (arraySort compare l).
Proof.
  intros [Htotal Htrans].
  apply (StronglySorted_weaken (λ a b, a ∈ l ∧ b ∈ l ∧ mayPrecede compare a b));
    [by intros a b (_ & _ & ?)|].
  apply Sorted_StronglySorted.
  { intros a b c (Ha & Hb & Hab) (_ & Hc & Hbc). repeat split; try done.
    by apply (Htrans a b c). }
  apply arraySort_Sorted. intros a b Ha Hb.
  destruct (isPositive (compare a b)) eqn:Hp; repeat split; try done.
  destruct (Htotal a b Ha Hb) as [Hab|Hba]; [|done].
  unfold mayPrecede in Hab. congruence.
Qed.

(** [arraySort] is a stable sort. *)
Lemma arraySort_stableSortOf l :
  consistentOn compare l → stableSortOf compare l (arraySort compare l).
Proof.
  intros Hc. split; [apply arraySort_Permutation|].
  split; [by apply arraySort_StronglySorted|].
  destruct Hc as [_ Htrans]. intros x Hx. apply arraySort_filter.
  intros a b Ha Hb [_ Hax] [Hxb _]. by apply (Htrans a x b).
Qed.

(** Two sorted lists that list the elements of every rank in the same
    order are the same list. *)
Lemma stableSort_unique (dom : A → Prop) l1 l2 :
  (∀ a, dom a → mayPrecede compare a a) →
  Forall dom l1 → Forall dom l2 →
  StronglySorted (mayPrecede compare) l1 →
  StronglySorted (mayPrecede compare) l2 →
  (∀ x, dom x → filter (sameRank compare x) l1 = filter (sameRank compare x) l2) →
  l1 = l2.
Proof.
  intros Hrefl H1. revert l2.
  induction H1 as [|a r1 Ha Hr1 IH]; intros l2 H2 Hs1 Hs2 Hf.
  { destruct H2 as [|b r2 Hb _]; [done|]. exfalso.
    specialize (Hf b Hb). rewrite filter_nil, filter_cons_True in Hf; [done|].
    by split; apply Hrefl. }
  destruct H2 as [|b r2 Hb Hr2].
  { exfalso. specialize (Hf a Ha).
    rewrite filter_nil, filter_cons_True in Hf; [done|]. by split; apply Hrefl. }
  apply StronglySorted_inv in Hs1 as [Hs1 Hmin1].
  apply StronglySorted_inv in Hs2 as [Hs2 Hmin2].
  assert (sameRank compare a a) as Haa by (by split; apply Hrefl).
  assert (sameRank compare b b) as Hbb by (by split; apply Hrefl).
  assert (mayPrecede compare b a) as Hba.
  { assert (a ∈ filter (sameRank compare a) (b :: r2)) as Hin.
    { rewrite <- (Hf a Ha), filter_cons_True by done. left. }
    apply list_elem_of_filter in Hin as [_ [->|Hin]%elem_of_cons]; [by apply Hrefl|].
    rewrite Forall_forall in Hmin2. by apply Hmin2. }
  assert (mayPrecede compare a b) as Hab.
  { assert (b ∈ filter (sameRank compare b) (a :: r1)) as Hin.
    { rewrite (Hf b Hb), filter_cons_True by done. left. }
    apply list_elem_of_filter in Hin as [_ [->|Hin]%elem_of_cons]; [by apply Hrefl|].
    rewrite Forall_forall in Hmin1. by apply Hmin1. }
  pose proof (Hf a Ha) as Hfa.
  rewrite !filter_cons_True in Hfa by done. injection Hfa as <- _.
  f_equal. apply IH; try done.
  intros x Hx. specialize (Hf x Hx). rewrite !filter_cons in Hf.
  destruct (decide (sameRank compare x a)); [by injection Hf|done].
Qed.

(** With a consistent comparison the stable sort of a list is unique:
    whatever way an engine sorts, it gives the list of [arraySort]. *)
Lemma stableSortOf_arraySort l l' :
  consistentOn compare l → stableSortOf compare l l' →
  l' = arraySort compare l.
Proof.
  intros Hc (Hperm & Hsorted & Hstable).
  destruct (arraySort_stableSortOf l Hc) as (Hperm' & Hsorted' & Hstable').
  apply (stableSort_unique (.∈ l)); try done.
  - intros a Ha. destruct Hc as [Htotal _]. by destruct (Htotal a a Ha Ha).
  - apply Forall_forall. intros a Ha. by rewrite <- Hperm.
  - apply Forall_forall. intros a Ha. by rewrite <- Hperm'.
  - intros x Hx. by rewrite Hstable, Hstable'.
Qed.

End SortTheory.

Lemma arraySort_ext {A} (f g : A → A → number) l :
  (∀ x y, f x y = g x y) → arraySort f l = arraySort g l.
Proof.
  intros Hfg. induction l as [|x l IH]; [done|].
  rewrite !arraySort_cons, IH. generalize (arraySort g l). intros r.
  induction r as [|y r IHr]; [done|]. cbn [insertSorted]. by rewrite Hfg, IHr.
Qed.

(** Sorting by a key and by its opposite. *)
Section SortByKey.
Context {A : Type} (key : A → number).

Lemma keyLe_trans a b c : keyLe key a b → keyLe key b c → keyLe key a c.
Proof.
  unfold keyLe. destruct (key a), (key b), (key c); try done. lia.
Qed.

Lemma minus_positive (u v : number) :
  is_Some u → is_Some v →
  isPositive (minus u v) = true ↔ ∃ x y, u = Some x ∧ v = Some y ∧ y < x.
Proof.
  intros [x ->] [y ->]. cbn. rewrite Z.ltb_lt. split.
  - intros ?. exists x, y. repeat split; lia.
  - intros (? & ? & ? & ? & ?). simplify_eq. lia.
Qed.

Lemma arraySort_ascending l :
  (∀ a, a ∈ l → is_Some (key a)) →
  StronglySorted (keyLe key) (arraySort (λ a b, minus (key a) (key b)) l).
Proof.
  intros Hv. apply Sorted_StronglySorted.
  { intros ???. apply keyLe_trans. }
  apply arraySort_Sorted. intros a b Ha Hb.
  destruct (Hv a Ha) as [x Hx], (Hv b Hb) as [y Hy].
  unfold keyLe. rewrite Hx, Hy. cbn. destruct (0 <? x - y) eqn:E.
  - apply Z.ltb_lt in E. lia.
  - apply Z.ltb_ge in E. lia.
Qed.

Lemma arraySort_descending l :
  (∀ a, a ∈ l → is_Some (key a)) →
  StronglySorted (flip (keyLe key)) (arraySort (λ a b, minus (key b) (key a)) l).
Proof.
  intros Hv. apply Sorted_StronglySorted.
  { intros a b c Hab Hbc. unfold flip in *. by eapply keyLe_trans. }
  apply arraySort_Sorted. intros a b Ha Hb.
  destruct (Hv a Ha) as [x Hx], (Hv b Hb) as [y Hy].
  unfold flip, keyLe. rewrite Hx, Hy. cbn. destruct (0 <? y - x) eqn:E.
  - apply Z.ltb_lt in E. lia.
  - apply Z.ltb_ge in E. lia.
Qed.

Lemma StronglySorted_reverse (R : relation A) l :
  StronglySorted R l → StronglySorted (flip R) (reverse l).
Proof.
  induction 1 as [|x l Hl IH Hx]; [constructor|].
  rewrite reverse_cons. apply StronglySorted_app_2; [|done|by repeat constructor].
  intros a b Ha Hb. apply list_elem_of_singleton in Hb as ->.
  rewrite elem_of_reverse in Ha. unfold flip.
  rewrite Forall_forall in Hx. by apply Hx.
Qed.

Lemma NoDup_fmap_eq (l : list A) a b :
  NoDup (key <$> l) → a ∈ l → b ∈ l → key a = key b → a = b.
Proof.
  induction l as [|c l IH]; intros Hnd Ha Hb Hk; [by apply elem_of_nil in Ha|].
  rewrite fmap_cons in Hnd. apply NoDup_cons in Hnd as [Hc Hnd].
  apply elem_of_cons in Ha as [->|Ha], Hb as [->|Hb]; try done.
  - exfalso. apply Hc. rewrite Hk. by apply list_elem_of_fmap_2.
  - exfalso. apply Hc. rewrite <- Hk. by apply list_elem_of_fmap_2.
  - by apply IH.
Qed.

(** With valid and pairwise distinct keys, sorting by the opposite key
    gives the reverse list. *)
Lemma arraySort_opposite l :
  (∀ a, a ∈ l → is_Some (key a)) → NoDup (key <$> l) →
  arraySort (λ a b, minus (key b) (key a)) l
  = reverse (arraySort (λ a b, minus (key a) (key b)) l).
Proof.
  intros Hv Hnd.
  apply (StronglySorted_unique_strong (flip (keyLe key))).
  - intros a b Ha Hb Hab Hba. rewrite elem_of_arraySort in Ha.
    rewrite elem_of_reverse, elem_of_arraySort in Hb.
    apply (NoDup_fmap_eq l); try done.
    unfold flip, keyLe in *. destruct (key a), (key b); try done. f_equal. lia.
  - by apply arraySort_descending.
  - by apply StronglySorted_reverse, arraySort_ascending.
  - rewrite reverse_Permutation. by rewrite !arraySort_Permutation.
Qed.

End SortByKey.

Lemma forallb_elem_of {A} (f : A → bool) l x :
  forallb f l = true → x ∈ l → f x = true.
Proof.
  intros Hf Hx. apply list_elem_of_In in Hx.
  by eapply (proj1 (forallb_forall f l)) in Hx.
Qed.

Section DateOrder.
Context `{Host}.

Lemma datesValid_is_Some d l a :
  datesValid d l = true → a ∈ l → is_Some (Sorting.dateOf d a).
Proof.
  intros Hv Ha. apply (forallb_elem_of _ _ _ Hv) in Ha.
  by apply bool_decide_eq_true in Ha.
Qed.

Lemma compareChildren_newest d a b :
  Sorting.compareChildren DATE_NEWEST d a b
  = minus (Sorting.dateOf d b) (Sorting.dateOf d a).
Proof. done. Qed.

Lemma compareChildren_by_date sortOption d a b :
  sortOption ∉ [DATE_NEWEST; RESOLVED_LAST; UNRESOLVED_LAST] →
  Sorting.compareChildren sortOption d a b
  = minus (Sorting.dateOf d a) (Sorting.dateOf d b).
Proof.
  intros Hn. unfold Sorting.compareChildren.
  repeat case_decide; try done; subst; exfalso; apply Hn; set_solver.
Qed.

(** With valid dates the comparison of [applySorting] is consistent,
    for every sort option, and the order it gives is the one stable
    sort of the children. *)
Lemma compareChildren_consistentOn sortOption d l :
  datesValid d l = true → consistentOn (Sorting.compareChildren sortOption d) l.
Proof.
  intros Hv. split.
  - intros a b Ha Hb.
    destruct (datesValid_is_Some d l a Hv Ha) as [ta Hta].
    destruct (datesValid_is_Some d l b Hv Hb) as [tb Htb].
    unfold mayPrecede, Sorting.compareChildren. rewrite Hta, Htb.
    destruct (Comments.isCommentResolved d a), (Comments.isCommentResolved d b);
      repeat case_decide; cbn; rewrite ?Z.ltb_ge; try lia; by (left + right).
  - intros a b c Ha Hb Hc.
    destruct (datesValid_is_Some d l a Hv Ha) as [ta Hta].
    destruct (datesValid_is_Some d l b Hv Hb) as [tb Htb].
    destruct (datesValid_is_Some d l c Hv Hc) as [tc Htc].
    unfold mayPrecede, Sorting.compareChildren. rewrite Hta, Htb, Htc.
    destruct (Comments.isCommentResolved d a), (Comments.isCommentResolved d b),
      (Comments.isCommentResolved d c);
      repeat case_decide; cbn; rewrite ?Z.ltb_ge; try done; lia.
Qed.

Lemma stable_sort_of_children sortOption d l l' :
  datesValid d l = true →
  stableSortOf (Sorting.compareChildren sortOption d) l l' →
  l' = arraySort (Sorting.compareChildren sortOption d) l.
Proof.
  intros Hv. apply stableSortOf_arraySort. by apply compareChildren_consistentOn.
Qed.

Lemma tied_not_positive sortOption d x a b :
  tied sortOption d x a → tied sortOption d x b →
  isPositive (Sorting.compareChildren sortOption d a b) = false.
Proof.
  unfold tied, Sorting.compareChildren.
  destruct (Sorting.dateOf d x) as [tx|], (Sorting.dateOf d a) as [ta|],
    (Sorting.dateOf d b) as [tb|], (Comments.isCommentResolved d x),
    (Comments.isCommentResolved d a), (Comments.isCommentResolved d b);
    repeat case_decide; cbn; try done; intros [= ?] [= ?];
    apply Z.ltb_ge; lia.
Qed.

(** X1. The sort of the container is stable. When every child has a
    valid date, then for every sort option and every thread [x] the
    children that the comparison of [applySorting] cannot tell from [x]
    (it yields 0 for them) are left in the order they had. The dates
    are required to be valid because the comparison is consistent
    then, and the order of the sort fixed by the language. *)
Theorem applySorting_keeps_order_of_equals (sortOption : string) (d : Document)
    (x : nat) (l : list nat) :
  datesValid d l = true →
  filter (tied sortOption d x) (arraySort (Sorting.compareChildren sortOption d) l)
  = filter (tied sortOption d x) l.
Proof.
  intros _. apply arraySort_filter. intros a b _ _. apply tied_not_positive.
Qed.

(** X2. When every child has a valid date, the comparison of
    [applySorting] orders the children by date: from the newest to the
    oldest for date-newest, and from the oldest to the newest for
    date-oldest and for every option that is none of the four (the
    default branch of the switch). *)
Theorem applySorting_orders_by_date (sortOption : string) (d : Document)
    (l : list nat) :
  datesValid d l = true →
  bool_decide (sortOption ∈ [RESOLVED_LAST; UNRESOLVED_LAST]) = false →
  StronglySorted
    (if decide (sortOption = DATE_NEWEST) then flip (notLater d) else notLater d)
    (arraySort (Sorting.compareChildren sortOption d) l).
Proof.
  intros Hv Hn. apply bool_decide_eq_false in Hn.
  destruct (decide (sortOption = DATE_NEWEST)) as [->|Hne].
  - rewrite (arraySort_ext _ (λ a b, minus (Sorting.dateOf d b) (Sorting.dateOf d a)))
      by apply compareChildren_newest.
    apply arraySort_descending. intros a. by apply datesValid_is_Some.
  - rewrite (arraySort_ext _ (λ a b, minus (Sorting.dateOf d a) (Sorting.dateOf d b))).
    + apply arraySort_ascending. intros a. by apply datesValid_is_Some.
    + intros a b. apply compareChildren_by_date.
      intros [->|Hin]%elem_of_cons; [done|]. by apply Hn.
Qed.

(** X3. When the children have valid and pairwise distinct dates, the
    order for date-newest is the exact reverse of the order for
    date-oldest. *)
Theorem newest_first_reverses_oldest_first (d : Document) (l : list nat) :
  datesValid d l = true →
  datesDistinct d l = true →
  arraySort (Sorting.compareChildren DATE_NEWEST d) l
  = reverse (arraySort (Sorting.compareChildren DATE_OLDEST d) l).
Proof.
  intros Hv Hd. apply bool_decide_eq_true in Hd.
  rewrite (arraySort_ext _ (λ a b, minus (Sorting.dateOf d b) (Sorting.dateOf d a)))
    by apply compareChildren_newest.
  rewrite (arraySort_ext (Sorting.compareChildren DATE_OLDEST d)
             (λ a b, minus (Sorting.dateOf d a) (Sorting.dateOf d b)))
    by (intros; reflexivity).
  apply arraySort_opposite; [|done]. intros a. by apply datesValid_is_Some.
Qed.

Lemma compareChildren_resolution sortOption d a b :
  sortOption = RESOLVED_LAST ∨ sortOption = UNRESOLVED_LAST →
  Sorting.compareChildren sortOption d a b
  = if negb (eqb (Comments.isCommentResolved d a) (Comments.isCommentResolved d b))
    then Some (if Comments.isCommentResolved d a then 1 else -1)
    else Sorting.compareChildren DATE_OLDEST d a b.
Proof.
  intros [->| ->]; unfold Sorting.compareChildren;
    by destruct (Comments.isCommentResolved d a), (Comments.isCommentResolved d b).
Qed.

Lemma unresolvedFirst_trans d : Transitive (unresolvedFirst d).
Proof.
  intros a b c. unfold unresolvedFirst.
  destruct (Comments.isCommentResolved d a), (Comments.isCommentResolved d b),
    (Comments.isCommentResolved d c); try done; apply keyLe_trans.
Qed.

(** X4. When every child has a valid date, the comparison of
    [applySorting] gives the same kind of order for resolved-last and
    for unresolved-last: every unresolved thread is listed before every
    resolved thread, and the threads of one status are listed from the
    oldest to the newest. *)
Theorem resolution_options_list_unresolved_first (sortOption : string)
    (d : Document) (l : list nat) :
  sortOption = RESOLVED_LAST ∨ sortOption = UNRESOLVED_LAST →
  datesValid d l = true →
  StronglySorted (unresolvedFirst d)
    (arraySort (Sorting.compareChildren sortOption d) l).
Proof.
  intros Ho Hv. apply Sorted_StronglySorted; [apply unresolvedFirst_trans|].
  apply arraySort_Sorted. intros a b Ha Hb.
  destruct (datesValid_is_Some d l a Hv Ha) as [ta Hta].
  destruct (datesValid_is_Some d l b Hv Hb) as [tb Htb].
  rewrite compareChildren_resolution by done.
  change (Sorting.compareChildren DATE_OLDEST d a b)
    with (minus (Sorting.dateOf d a) (Sorting.dateOf d b)).
  unfold unresolvedFirst, notLater, keyLe. rewrite Hta, Htb.
  destruct (Comments.isCommentResolved d a), (Comments.isCommentResolved d b);
    cbn; try done.
  all: destruct (0 <? ta - tb) eqn:E;
    [apply Z.ltb_lt in E|apply Z.ltb_ge in E]; lia.
Qed.

End DateOrder.

(** The witness of X2: the two threads of the page, by date-newest. *)
Lemma applySorting_orders_by_date_witness :
  StronglySorted (flip (@notLater Fixtures.isoHost Fixtures.prPage))
    (arraySort (@Sorting.compareChildren Fixtures.isoHost DATE_NEWEST Fixtures.prPage)
       [5; 6]%nat).
Proof.
  apply (applySorting_orders_by_date (H := Fixtures.isoHost) DATE_NEWEST
           Fixtures.prPage [5; 6]%nat); by vm_compute.
Defined.

(** The witness of X3: the two threads of the page. *)
Lemma newest_first_reverses_oldest_first_witness :
  arraySort (@Sorting.compareChildren Fixtures.isoHost DATE_NEWEST Fixtures.prPage)
    [5; 6]%nat
  = reverse (arraySort (@Sorting.compareChildren Fixtures.isoHost DATE_OLDEST
                          Fixtures.prPage) [5; 6]%nat).
Proof.
  apply (newest_first_reverses_oldest_first (H := Fixtures.isoHost)
           Fixtures.prPage [5; 6]%nat); by vm_compute.
Defined.

(** The witness of X1: of three threads sorted by date-oldest, the two
    of one date keep their order behind the older third. *)
Lemma applySorting_keeps_order_of_equals_witness :
  arraySort (@Sorting.compareChildren Fixtures.isoHost DATE_OLDEST Samples.tiedThreads)
    [20; 21; 22]%nat
  = [21; 20; 22]%nat
  ∧ filter (@tied Fixtures.isoHost DATE_OLDEST Samples.tiedThreads 20)
      (arraySort (@Sorting.compareChildren Fixtures.isoHost DATE_OLDEST
                    Samples.tiedThreads) [20; 21; 22]%nat)
    = [20; 22]%nat.
Proof.
  split; [by vm_compute|].
  rewrite (applySorting_keeps_order_of_equals (H := Fixtures.isoHost) DATE_OLDEST
             Samples.tiedThreads 20 [20; 21; 22]%nat) by (by vm_compute).
  by vm_compute.
Defined.

(** The witness of X4: the two threads of the page, by unresolved-last. *)
Lemma resolution_options_list_unresolved_first_witness :
  StronglySorted (@unresolvedFirst Fixtures.isoHost Fixtures.prPage)
    (arraySort (@Sorting.compareChildren Fixtures.isoHost UNRESOLVED_LAST Fixtures.prPage)
       [5; 6]%nat).
Proof.
  apply (resolution_options_list_unresolved_first (H := Fixtures.isoHost)
           UNRESOLVED_LAST Fixtures.prPage [5; 6]%nat); [by right|by vm_compute].
Defined.

(* ===================================================================== *)
(** ** Sorting comment records *)
(* ===================================================================== *)

Lemma timestampsValid_is_Some comments c :
  timestampsValid comments = true → c ∈ omap id comments →
  is_Some (Comments.timestamp c).
Proof.
  intros Hv Hc. apply (forallb_elem_of _ _ _ Hv) in Hc.
  by apply bool_decide_eq_true in Hc.
Qed.

(** X5. For an option whose name is not an inherited member of the
    table of comparisons, [sortComments] returns the records that are
    not null, each as often as it was given, whatever their timestamps
    are. When the timestamps are valid the records are ordered from the
    newest to the oldest for date-newest and from the oldest to the
    newest for every other option: the two resolution options are
    sorted by date as well. *)
Theorem sortComments_orders_records_by_date
    (comments : list (option Comments.CommentData)) (sortOption : string) :
  bool_decide (sortOption ∈ CommentSort.objectPrototypeKeys) = false →
  ∃ sorted,
    CommentSort.sortComments comments sortOption = Some sorted
    ∧ sorted ≡ₚ omap id comments
    ∧ (timestampsValid comments = true →
       StronglySorted
         (if decide (sortOption = DATE_NEWEST) then flip stampedNotLater
          else stampedNotLater) sorted).
Proof.
  intros Hk. unfold CommentSort.sortComments. rewrite Hk.
  assert (timestampsValid comments = true →
          ∀ c, c ∈ omap id comments → is_Some (Comments.timestamp c)) as Hvalid
    by (intros Hv c; by apply timestampsValid_is_Some).
  destruct (decide (sortOption = DATE_OLDEST)) as [->|Ho].
  - eexists. split; [done|]. split; [apply arraySort_Permutation|]. intros Hv.
    rewrite decide_False by done. by apply arraySort_ascending, Hvalid.
  - destruct (decide (sortOption = DATE_NEWEST)) as [->|Hn].
    + eexists. split; [done|]. split; [apply arraySort_Permutation|]. intros Hv.
      by apply arraySort_descending, Hvalid.
    + eexists. split; [done|]. split; [apply arraySort_Permutation|]. intros Hv.
      by apply arraySort_ascending, Hvalid.
Qed.

(** The witness of X5: three records and a null entry, by
    resolved-last; the timestamps are valid, and the records come back
    from the oldest to the newest. *)
Lemma sortComments_orders_records_by_date_witness :
  ∃ sorted,
    CommentSort.sortComments Samples.records RESOLVED_LAST = Some sorted
    ∧ Comments.element <$> sorted = [5; 6; 20]%nat
    ∧ StronglySorted stampedNotLater sorted.
Proof.
  destruct (sortComments_orders_records_by_date Samples.records RESOLVED_LAST)
    as (sorted & Hs & _ & Ho); [by vm_compute|].
  exists sorted. split; [exact Hs|]. split.
  - vm_compute in Hs. injection Hs as <-. reflexivity.
  - apply Ho. by vm_compute.
Defined.

(* ===================================================================== *)
(** ** The observer and the message listener *)
(* ===================================================================== *)





Section Messages.
Context `{Host}.
Variable updateSortIndicator : option (string → Document → Result Document).
Variable showNotification : option (string → Document → Result Document).


End Messages.

(* ===================================================================== *)
(** ** The tab detection and the merge status box *)
(* ===================================================================== *)

(** X8. [isConversationTab] answers true only when the path names none
    of the other tabs, the fragment is empty or names none of them, and
    the document holds an element with the id discussion_bucket: without
    that element the answer is false, whatever else the page shows. *)
Theorem isConversationTab_needs_discussion_bucket (w : World) :
  UI.isConversationTab w = true →
  Forall (λ segment, includes (pathname w) segment = false)
         ["/files"; "/commits"; "/changes"; "/checks"]
  ∧ (hash w = ""
     ∨ Forall (λ key, includes (hash w) key = false)
              ["commits"; "checks"; "files"; "diff-"])
  ∧ ∃ bucket, querySelector (document w) [byId "discussion_bucket"] = Some bucket.
Proof.
  unfold UI.isConversationTab. intros Hc.
  destruct (includes (pathname w) "/files") eqn:Hp1; [done|].
  destruct (includes (pathname w) "/commits") eqn:Hp2; [done|].
  destruct (includes (pathname w) "/changes") eqn:Hp3; [done|].
  destruct (includes (pathname w) "/checks") eqn:Hp4; [done|].
  cbn [orb] in Hc. split; [by repeat constructor|].
  split.
  - destruct (decide (hash w = "")) as [|Hh]; [by left|right].
    rewrite (bool_decide_eq_false_2 _ Hh) in Hc. cbn [negb andb] in Hc.
    destruct (includes (hash w) "commits") eqn:Hh1; [done|].
    destruct (includes (hash w) "checks") eqn:Hh2; [done|].
    destruct (includes (hash w) "files") eqn:Hh3; [done|].
    destruct (includes (hash w) "diff-") eqn:Hh4; [done|].
    by repeat constructor.
  - repeat (match type of Hc with
            | (if ?b then false else _) = true => destruct b; [done|]
            end).
    destruct (querySelector (document w) [byId "discussion_bucket"]) as [b|];
      [by exists b|done].
Qed.

(** The witness of X8: the page on its conversation tab. *)
Lemma isConversationTab_needs_discussion_bucket_witness :
  ∃ bucket, querySelector (document (Fixtures.world Fixtures.prPage))
              [byId "discussion_bucket"] = Some bucket.
Proof.
  apply (isConversationTab_needs_discussion_bucket (Fixtures.world Fixtures.prPage)).
  by vm_compute.
Defined.

(** X9. [moveMergeStatusToTop] changes nothing in the world when the
    page is not on the conversation tab, when no merge box is found,
    when the box found is already marked as moved, or when the controls
    are not in the document. *)
Theorem moveMergeStatusToTop_skips (w : World) :
  UI.isConversationTab w = false
  ∨ UI.findMergeBox (document w) = None
  ∨ (∃ mb, UI.findMergeBox (document w) = Some mb
           ∧ getAttribute (document w) mb "data-moved-to-top" = Some "true")
  ∨ querySelector (document w) UI.controlsSelector = None →
  UI.moveMergeStatusToTop w = Return () w.
Proof.
  intros Hskip. unfold UI.moveMergeStatusToTop. run_monad. cbn beta iota.
  destruct (UI.isConversationTab w); [|done]. cbn [negb].
  destruct (UI.findMergeBox (document w)) as [mb|]; [|done]. cbn beta iota.
  destruct (decide (getAttribute (document w) mb "data-moved-to-top" = Some "true"))
    as [|Hunmarked]; [done|].
  destruct Hskip as [?|[?|[(mb' & [= <-] & ?)|Hsc]]]; try done.
  by rewrite Hsc.
Qed.

(** The witness of X9: the page on its files tab. *)
Lemma moveMergeStatusToTop_skips_witness :
  let w := Fixtures.worldAt "/org/repo/pull/5/files" Fixtures.prPage in
  UI.moveMergeStatusToTop w = Return () w.
Proof.
  intros w. apply (moveMergeStatusToTop_skips w). left. by vm_compute.
Defined.

Lemma querySelector_None_nodesWhere d k v :
  nodesWhere (hasAttribute k v) d = [] → querySelector d [byAttr k v] = None.
Proof.
  intros Hn. apply (head_filter_None (λ n, matches d [byAttr k v] n = true)).
  intros x _ [_ Hx]%matches_byAttr.
  by destruct (nodesWhere_hasAttribute_none d k v x Hn).
Qed.

(** X10. [restoreMergeStatusPosition] changes nothing in the world when
    no node carries the mark of a moved box: a restoration that no move
    preceded is void. *)
Theorem restoreMergeStatusPosition_without_move (w : World) :
  nodesWhere (hasAttribute "data-moved-to-top" "true") (document w) = [] →
  UI.restoreMergeStatusPosition w = Return () w.
Proof.
  intros Hn. unfold UI.restoreMergeStatusPosition. run_monad. cbn beta iota.
  by rewrite (querySelector_None_nodesWhere _ _ _ Hn).
Qed.

(** The witness of X10: the page before any move. *)
Lemma restoreMergeStatusPosition_without_move_witness :
  UI.restoreMergeStatusPosition (Fixtures.world Fixtures.prPage)
  = Return () (Fixtures.world Fixtures.prPage).
Proof.
  apply (restoreMergeStatusPosition_without_move (Fixtures.world Fixtures.prPage)).
  by vm_compute.
Defined.

Lemma after_not_elem_of n L : n ∉ L → after n L = None.
Proof.
  induction L as [|x r IH]; [done|]. intros Hn. cbn [after].
  rewrite decide_False by (intros ->; apply Hn; by left).
  apply IH. intros ?. apply Hn. by right.
Qed.

Lemma placeBefore_cons n ref x F :
  ref ≠ Some x →
  placeBefore n ref (x :: F) = x :: placeBefore n ref F.
Proof.
  destruct ref as [z|]; [|done]. intros Hz. cbn [placeBefore insertInto].
  rewrite decide_False; [done|]. by intros ->.
Qed.
Lemma after_head n r : after n (n :: r) = head r.
Proof. cbn [after]. by rewrite decide_True. Qed.
Lemma after_tail n x r : x ≠ n → after n (x :: r) = after n r.
Proof. intros. cbn [after]. by rewrite decide_False. Qed.
Lemma placeBefore_head n x F : placeBefore n (Some x) (x :: F) = n :: x :: F.
Proof. cbn [placeBefore insertInto]. by rewrite decide_True. Qed.

(** The node put before the old next sibling of [sc] follows [sc]. *)
Lemma after_placeBefore sc mb L :
  NoDup L → sc ∈ L → mb ≠ sc →
  after sc (placeBefore mb (if decide (after sc L = Some mb) then after mb L
                            else after sc L)
              (filter (λ k, k ≠ mb) L)) = Some mb.
Proof.
  induction L as [|x r IH]; intros Hnd Hsc Hne; [by apply elem_of_nil in Hsc|].
  apply NoDup_cons in Hnd as [Hx Hnd].
  assert (sc ≠ mb) as Hne' by congruence.
  rewrite filter_cons.
  destruct (decide (x = sc)) as [->|Hxsc].
  - (* [sc] is the head *)
    rewrite after_head, (after_tail mb sc) by done.
    rewrite (decide_True (P := sc ≠ mb)) by done.
    destruct r as [|y r'].
    { cbn [head]. rewrite decide_False by done. rewrite filter_nil.
      cbn [placeBefore app]. by rewrite after_head. }
    cbn [head].
    apply NoDup_cons in Hnd as [Hy Hnd'].
    assert (sc ≠ y) as Hscy by (intros ->; apply Hx; by left).
    rewrite filter_cons.
    destruct (decide (y = mb)) as [->|Hymb].
    + rewrite (decide_True (P := Some mb = Some mb)) by done.
      rewrite after_head.
      rewrite (decide_False (P := mb ≠ mb)) by (by intros ?).
      rewrite (filter_all (λ k, k ≠ mb) r') by (by intros z Hz ->).
      destruct r' as [|z r'']; cbn [head].
      * cbn [placeBefore app]. by rewrite after_head.
      * rewrite placeBefore_cons, placeBefore_head, after_head; [done|].
        intros [= ->]. apply Hx. right. by left.
    + rewrite (decide_False (P := Some y = Some mb)) by congruence.
      rewrite (decide_True (P := y ≠ mb)) by done.
      rewrite placeBefore_cons, placeBefore_head, after_head; [done|congruence].
  - (* [sc] is further on *)
    apply elem_of_cons in Hsc as [->|Hsc]; [done|].
    rewrite (after_tail sc x) by done.
    specialize (IH Hnd Hsc Hne).
    destruct (decide (x = mb)) as [->|Hxmb].
    + rewrite after_head.
      rewrite (decide_False (P := mb ≠ mb)) by (by intros ?).
      assert (after sc r ≠ Some mb) as Hnot.
      { intros Ha. by apply (after_elem_of sc r mb Hnd) in Ha as [? _]. }
      rewrite (decide_False (P := after sc r = Some mb)) in IH |- * by done.
      assert (filter (λ k, k ≠ mb) r = r) as Hf.
      { apply filter_all. intros z Hz ->. by apply Hx. }
      by rewrite Hf in IH |- *.
    + rewrite (after_tail mb x) by done.
      rewrite (decide_True (P := x ≠ mb)) by done.
      rewrite placeBefore_cons.
      * by rewrite after_tail.
      * case_decide as Hd; intros Ha.
        -- destruct (decide (mb ∈ r)) as [Hin|Hnin].
           ++ by apply (after_elem_of mb r x Hnd) in Ha as [? _].
           ++ by rewrite (after_not_elem_of _ _ Hnin) in Ha.
        -- by apply (after_elem_of sc r x Hnd) in Ha as [? _].
Qed.

Lemma attached_has_parent d x :
  attached d x → x ≠ documentElement d → ∃ p, parentOf d x = Some p.
Proof.
  intros ([|j] & _ & Hup) Hne; [by injection Hup|].
  rewrite up_S, <- parentOf_lookup in Hup.
  destruct (parentOf d x) as [p|]; [by exists p|done].
Qed.

Lemma attached_root_ancestor d x :
  attached d x → documentElement d ∈ inclusiveAncestors d x.
Proof. intros (j & Hj & Hup). by apply (up_in_ancestors _ j). Qed.

(** What a move of the merge box does to the tree. *)
Lemma moveMergeStatusToTop_moves w mb sc scParent :
  let d := document w in
  wellFormed d = true →
  UI.isConversationTab w = true →
  UI.findMergeBox d = Some mb →
  getAttribute d mb "data-moved-to-top" ≠ Some "true" →
  querySelector d UI.controlsSelector = Some sc →
  parentOf d sc = Some scParent →
  mb ∉ inclusiveAncestors d scParent →
  ∃ p da d1,
    parentOf d mb = Some p
    ∧ da = recordOrigin mb (Some p) (nextSibling d mb) (now w) d
    ∧ UI.moveMergeStatusToTop w = Return () (withDocument d1 w)
    ∧ moved mb scParent
        (if decide (nextSibling d sc = Some mb) then nextSibling d mb
         else nextSibling d sc) d d1
    ∧ (∀ x, sameContentAt da d1 x)
    ∧ getAttribute da mb "data-moved-to-top" = Some "true"
    ∧ mb ∈ documentOrder d1.
Proof.
  intros d Hwf Hconv Hmb Hfresh Hsc Hscp Hnotin.
  destruct (findMergeBox_attached d mb Hwf Hmb) as [Hmbatt Hmbel].
  destruct (querySelector_attached d _ sc Hwf Hsc) as [Hscatt Hscel].
  destruct (attached_parent d sc scParent Hwf Hscatt Hscp) as (js & Hjs & Hups).
  destruct (attached_has_parent d mb Hmbatt) as [p Hp].
  { intros ->. apply Hnotin. apply attached_root_ancestor. exists js. split; [lia|done]. }
  destruct (wellFormed_parent d mb p Hwf Hp) as [Hmbin Hdepth].
  pose proof (wellFormed_NoDup d p Hwf) as Hnd.
  pose proof (wellFormed_parent_isElement d sc scParent Hwf Hscp) as Hspel.
  pose proof (isElement_is_Some d mb Hmbel) as Hmbdom.
  assert (mb ≠ p) as Hmbp by (intros ->; lia).
  assert (mb ≠ scParent) as Hmbsp by (intros ->; apply Hnotin; left).
  assert (nextSibling d mb = after mb (childNodesOf d p)) as Hsib.
  { unfold nextSibling. by rewrite Hp. }
  set (sib := nextSibling d mb) in *.
  assert (match sib with
          | Some s => is_Some (nodes d !! s) ∧ s ≠ mb
          | None => True
          end) as Hsfacts.
  { destruct sib as [s|]; [|done]. symmetry in Hsib.
    destruct (after_elem_of mb _ s Hnd Hsib) as [Hin Hne].
    split; [|done].
    pose proof (wellFormed_child_parent d p s Hwf Hin) as Hsp.
    unfold parentOf in Hsp. destruct (nodes d !! s); [by eexists|done]. }
  destruct (recordOrigin_facts d mb p sib (now w) Hmbdom Hsfacts)
    as ([Hroota Hsh] & Hmarked & _).
  pose proof (moveMergeStatusToTop_unfold w mb sc scParent Hconv Hmb Hfresh Hsc Hscp)
    as Hmove.
  cbv zeta in Hmove. fold d in Hmove. rewrite Hp in Hmove. fold sib in Hmove.
  set (da := recordOrigin mb (Some p) sib (now w) d) in *.
  assert (sameShape d da) as Hshape by (by split).
  destruct (insertBefore_moved da scParent mb p (nextSibling da sc))
    as (d1 & Hins1 & Hmoved1 & Hcontent1).
  { destruct (Hsh scParent) as (_ & _ & _ & ->). done. }
  { destruct (Hsh mb) as (_ & -> & _). done. }
  { apply Hsh. apply isElement_is_Some.
    by apply (wellFormed_parent_isElement d mb p Hwf). }
  { done. }
  { by rewrite (sameShape_inclusiveAncestors d da). }
  { rewrite (sameShape_nextSibling d da) by done.
    unfold nextSibling. rewrite Hscp. simpl.
    destruct (after sc (childNodesOf d scParent)) as [c|] eqn:Hc; [|done].
    destruct (after_elem_of sc _ c (wellFormed_NoDup d scParent Hwf) Hc) as [Hin _].
    destruct (Hsh c) as (_ & -> & _).
    by apply (wellFormed_child_parent d scParent c Hwf). }
  { intros x Hx. destruct (Hsh x) as (_ & _ & Hk & _). rewrite Hk in Hx.
    pose proof (wellFormed_child_parent d x mb Hwf Hx). congruence. }
  apply (moved_sameShape_l _ _ _ d) in Hmoved1; [|done].
  rewrite !(sameShape_nextSibling d da) in Hmoved1 by done.
  unfold mutate in Hmove. cbn [document withDocument] in Hmove.
  rewrite Hins1 in Hmove.
  assert (∀ i y, up (nodes d) i scParent = Some y → y ≠ mb) as Havoids.
  { intros i y Hy ->. apply Hnotin.
    apply (up_in_ancestors _ i); [done|].
    pose proof (up_depth d i scParent mb Hwf Hy).
    pose proof (depth_le_size d scParent). lia. }
  exists p, da, d1. split; [done|]. split; [done|]. split; [exact Hmove|].
  split; [exact Hmoved1|]. split; [exact Hcontent1|]. split; [exact Hmarked|].
  by eapply (moved_documentOrder_node d d1 mb scParent _ js).
Qed.

(** X11. On a well-formed conversation page where a merge box is found
    that is not marked as moved and is neither the controls nor an
    inclusive ancestor of their parent, [moveMergeStatusToTop] ends
    normally and leaves the box in the document as the next sibling of
    the controls, under their parent, marked as moved; every other
    child list is as before, without the box. *)
Theorem moveMergeStatusToTop_puts_box_after_controls
    (w : World) (mb sc scParent : nat) :
  let d := document w in
  wellFormed d = true →
  UI.isConversationTab w = true →
  UI.findMergeBox d = Some mb →
  getAttribute d mb "data-moved-to-top" ≠ Some "true" →
  querySelector d UI.controlsSelector = Some sc →
  parentOf d sc = Some scParent →
  bool_decide (mb ∈ inclusiveAncestors d scParent) = false →
  mb ≠ sc →
  ∃ d1,
    UI.moveMergeStatusToTop w = Return () (withDocument d1 w)
    ∧ mb ∈ documentOrder d1
    ∧ parentOf d1 mb = Some scParent
    ∧ nextSibling d1 sc = Some mb
    ∧ getAttribute d1 mb "data-moved-to-top" = Some "true"
    ∧ ∀ x, x ≠ scParent →
           childNodesOf d1 x = filter (λ k, k ≠ mb) (childNodesOf d x).
Proof.
  intros d Hwf Hconv Hmb Hfresh Hsc Hscp Hnotin Hne.
  apply bool_decide_eq_false in Hnotin.
  destruct (moveMergeStatusToTop_moves w mb sc scParent Hwf Hconv Hmb Hfresh
              Hsc Hscp Hnotin)
    as (p & da & d1 & Hp & Hda & Hmove & Hmoved & Hcontent & Hmarked & Hin).
  fold d in Hp, Hda, Hmoved.
  destruct Hmoved as (Hroot1 & Hdom1 & Hpar1 & Hel1 & Hkids1 & Hnew1).
  exists d1. split; [exact Hmove|]. split; [exact Hin|].
  split; [by rewrite Hpar1, decide_True|].
  split; [|split; [|exact Hkids1]].
  - destruct (wellFormed_parent d sc scParent Hwf Hscp) as [Hscin _].
    pose proof (wellFormed_NoDup d scParent Hwf) as Hnd.
    unfold nextSibling at 1. rewrite Hpar1, decide_False by congruence.
    rewrite Hscp. cbn [mbind option_bind].
    assert (nextSibling d sc = after sc (childNodesOf d scParent)) as Hs.
    { unfold nextSibling. by rewrite Hscp. }
    rewrite Hs in Hnew1. rewrite Hnew1.
    assert (after sc (childNodesOf d scParent) = Some mb →
            nextSibling d mb = after mb (childNodesOf d scParent)) as Hm.
    { intros Ha. apply (after_elem_of sc _ mb Hnd) in Ha as [Hmbin _].
      pose proof (wellFormed_child_parent d scParent mb Hwf Hmbin) as Hp'.
      unfold nextSibling. by rewrite Hp'. }
    pose proof (after_placeBefore sc mb _ Hnd Hscin Hne) as Ha.
    case_decide as Hd; [by rewrite (Hm Hd)|done].
  - destruct (Hcontent mb) as (_ & -> & _). exact Hmarked.
Qed.

(** The witness of X11: the merge box 16 of the page ends up after the
    controls 13, under the body. *)
Lemma moveMergeStatusToTop_puts_box_after_controls_witness :
  ∃ d1,
    UI.moveMergeStatusToTop (Fixtures.world Fixtures.prPage)
    = Return () (withDocument d1 (Fixtures.world Fixtures.prPage))
    ∧ nextSibling d1 13 = Some 16%nat.
Proof.
  destruct (moveMergeStatusToTop_puts_box_after_controls
              (Fixtures.world Fixtures.prPage) 16 13 1)
    as (d1 & Hmove & _ & _ & Hnext & _); [by vm_compute..|].
  by exists d1.
Defined.

(* ===================================================================== *)
(** ** The unresolved list and the comment containers *)
(* ===================================================================== *)

Lemma attached_documentOrder d x :
  wellFormed d = true → attached d x → x ∈ documentOrder d.
Proof.
  intros Hwf (j & Hj & Hup).
  destruct (wellFormed_root d Hwf) as [Hroot _].
  apply (subtree_mono _ _ (S j)); [lia|].
  apply up_subtree; [done| |].
  - apply (up_is_Some _ j _ _ Hup). by apply isElement_is_Some.
  - intros i y q _ _ Hq. rewrite <- parentOf_lookup in Hq.
    destruct (wellFormed_parent d y q Hwf Hq) as [Hin _].
    by apply elem_of_childNodesOf.
Qed.

Lemma descendant_attached d e x :
  wellFormed d = true → e ∈ documentOrder d → x ∈ inclusiveDescendants d e →
  x ∈ documentOrder d.
Proof.
  intros Hwf He Hx. apply attached_documentOrder; [done|].
  destruct (subtree_up d _ _ _ Hwf Hx) as (j & _ & Hupx).
  destruct (documentOrder_up d e Hwf He) as (k & _ & Hupe).
  exists (j + k)%nat. rewrite (up_add _ _ _ _ _ Hupx). split; [|done].
  assert (up (nodes d) (j + k) x = Some (documentElement d)) as Hup
    by (by rewrite (up_add _ _ _ _ _ Hupx)).
  pose proof (up_depth d _ _ _ Hwf Hup). pose proof (depth_le_size d x). lia.
Qed.

Lemma elem_of_tail {A} (x : A) l : x ∈ tail l → x ∈ l.
Proof. destruct l; [done|]. by right. Qed.

Lemma entryElement_mapIndexed d i l :
  Comments.entryElement <$>
    Comments.mapIndexed
      (λ details index,
         Comments.mkUnresolvedEntry details
           (match querySelectorIn d details [byClass "author"; byClass "js-author"] with
            | Some a => trim (textContent d a)
            | None => units "Unknown"
            end)
           (Comments.snippetOf
              (textContent d <$> querySelectorIn d details [byClass "comment-body"]))
           (if decide (idOf d details = "")
            then "unresolved-" +:+ pretty index
            else idOf d details)) i l
  = l.
Proof.
  revert i. induction l as [|x l IH]; intros i; [done|].
  cbn [Comments.mapIndexed fmap list_fmap Comments.entryElement]. f_equal. apply IH.
Qed.

(** X12. The unresolved list and the classifier of the sort agree. On
    a well-formed document, [getUnresolvedConversations] lists the
    details elements flagged as not resolved, in document order, and an
    element of the document is classified as not resolved by
    [isCommentResolved] exactly when one of the listed elements is among
    its descendants. *)
Theorem unresolved_list_agrees_with_classifier (w : World) (e : nat) :
  wellFormed (document w) = true →
  bool_decide (e ∈ documentOrder (document w)) = true →
  ∃ entries,
    Comments.getUnresolvedConversations w = Return entries w
    ∧ Comments.entryElement <$> entries
      = querySelectorAll (document w) Comments.unresolvedSelector
    ∧ (Comments.isCommentResolved (document w) e = false
       ↔ ∃ entry, entry ∈ entries
                  ∧ Comments.entryElement entry ∈ descendants (document w) e).
Proof.
  intros Hwf He. apply bool_decide_eq_true in He.
  eexists. split; [reflexivity|]. cbn [document].
  split; [apply entryElement_mapIndexed|].
  set (entries := Comments.mapIndexed _ _ _).
  assert (Comments.entryElement <$> entries
          = querySelectorAll (document w) Comments.unresolvedSelector) as Hel
    by apply entryElement_mapIndexed.
  unfold Comments.isCommentResolved, querySelectorIn, querySelectorAllIn.
  split.
  - destruct (head _) as [x|] eqn:Hx; [intros _|done].
    apply (head_filter_Some
             (λ n, matches (document w) Comments.unresolvedSelector n = true))
      in Hx as [Hin Hm].
    assert (x ∈ Comments.entryElement <$> entries) as Hxe.
    { rewrite Hel. apply list_elem_of_filter. split; [done|].
      apply (descendant_attached _ e); [done..|]. by apply elem_of_tail. }
    apply list_elem_of_fmap in Hxe as (entry & -> & Hentry). by exists entry.
  - intros (entry & Hentry & Hd).
    assert (Comments.entryElement entry ∈ Comments.entryElement <$> entries) as Hin
      by (by apply list_elem_of_fmap_2).
    rewrite Hel in Hin. apply list_elem_of_filter in Hin as [Hm _].
    destruct (head _) as [x|] eqn:Hx; [done|].
    pose proof (proj1 (head_filter_None
      (λ n, matches (document w) Comments.unresolvedSelector n = true) _) Hx) as Hnone.
    by destruct (Hnone _ Hd).
Qed.

(** The witness of X12: the second thread of the page, whose details
    element 10 is the one listed. *)
Lemma unresolved_list_agrees_with_classifier_witness :
  ∃ entries,
    Comments.getUnresolvedConversations (Fixtures.world Fixtures.prPage)
    = Return entries (Fixtures.world Fixtures.prPage)
    ∧ Comments.entryElement <$> entries = [10%nat].
Proof.
  destruct (unresolved_list_agrees_with_classifier
              (Fixtures.world Fixtures.prPage) 6) as (entries & Hrun & Hel & _);
    [by vm_compute..|].
  exists entries. split; [exact Hrun|]. rewrite Hel. by vm_compute.
Defined.

(** X13. The timeline containers of [getCommentContainers] are the
    ones [extractCommentData] dates from the page: for each of them the
    extraction ends without a warning, reports a time element, and takes
    the timestamp from the datetime attribute of the first time element
    inside (the current time when the attribute is missing or empty),
    never from the position of the container. *)
Theorem timeline_containers_are_dated_from_the_page `{Host} (w : World) (index : Z) :
  ∃ containers,
    Comments.getCommentContainers w = Return containers w
    ∧ Forall (λ el,
        ∃ c t,
          Comments.extractCommentData (Some el) index w = Return (Some c) w
          ∧ Comments.element c = el
          ∧ Comments.hasTimeElement c = true
          ∧ Comments.resolved c = Comments.isCommentResolved (document w) el
          ∧ querySelectorIn (document w) el Comments.timeSelector = Some t
          ∧ Comments.timestamp c
            = match getAttribute (document w) t "datetime" with
              | Some s => if decide (s = "") then Some (now w) else dateParse s
              | None => Some (now w)
              end)
        (Comments.timeline containers).
Proof.
  eexists. split; [reflexivity|]. cbn [Comments.timeline].
  apply Forall_forall. intros el Hel.
  apply list_elem_of_filter in Hel as [[t Ht] Hel].
  apply list_elem_of_filter in Hel as [Hm _].
  apply matches_isElement in Hm.
  unfold Comments.extractCommentData, Comments.callQuerySelector. run_monad.
  rewrite Hm. run_monad. rewrite Ht. run_monad.
  destruct (getAttribute (document w) t "datetime") as [s|] eqn:Hd; run_monad.
  - destruct (decide (s = "")) as [Hs|Hs]; run_monad;
      eexists _, t; (split; [reflexivity|]); rewrite Hd;
      [rewrite decide_True by done|rewrite decide_False by done]; by repeat split.
  - eexists _, t. split; [reflexivity|]. rewrite Hd. by repeat split.
Qed.

(* ===================================================================== *)
(** ** The stored preferences *)
(* ===================================================================== *)

Lemma empty_not_option : "" ∉ SORT_OPTIONS_values.
Proof. intros Hin. apply (bool_decide_eq_true_2 _) in Hin. by vm_compute in Hin. Qed.

(** X14. [loadSavedPreference] lets only the four sort options into
    the state. It resolves with a value exactly when the storage API is
    there, the request resolved and the value stored is one of the four
    options; the current sort is then that value. In every other case
    (no API, a rejected request, no value, the empty string, another
    string, a value that is not a string) it resolves with null and
    leaves the world as it was. *)
Theorem loadSavedPreference_accepts_only_options
    (outcome : GetOutcome) (w : World) :
  ∃ r w',
    loadSavedPreference outcome w = Return r w'
    ∧ (∀ v, r = Some v
            ↔ hasStorageSync w = true
              ∧ outcome = Resolved (Some (VString v))
              ∧ v ∈ SORT_OPTIONS_values)
    ∧ w' = match r with
           | Some v => worldOf (setCurrentSort v w)
           | None => w
           end.
Proof.
  unfold loadSavedPreference. run_monad.
  destruct (hasStorageSync w) eqn:Hhas.
  2: { exists None, w. split; [done|]. split; [|done]. intros v. split; [done|].
       by intros (? & _). }
  destruct outcome as [[[s|b]|]|].
  - destruct (decide (s ∈ SORT_OPTIONS_values)) as [Hin|Hout].
    + assert (s ≠ "") as Hs by (intros ->; by apply empty_not_option).
      rewrite (bool_decide_eq_false_2 _ Hs), (bool_decide_eq_true_2 _ Hin).
      cbn. eexists _, _. split; [done|]. split; [|done]. intros v. split.
      * by intros [= <-].
      * by intros (_ & [= <-] & _).
    + rewrite (bool_decide_eq_false_2 _ Hout), andb_false_r.
      exists None, w. split; [done|]. split; [|done]. intros v. split; [done|].
      by intros (_ & [= ->] & ?).
  - exists None, w. split; [done|]. split; [|done]. intros v. split; [done|].
    by intros (_ & ? & _).
  - exists None, w. split; [done|]. split; [|done]. intros v. split; [done|].
    by intros (_ & ? & _).
  - exists None, w. split; [done|]. split; [|done]. intros v. split; [done|].
    by intros (_ & ? & _).
Qed.

Lemma areaOf_lookup s k : areaOf s !! k = VString <$> syncStore s !! k.
Proof. apply lookup_fmap. Qed.

(** X15. A preference that [savePreference] hands to the sync storage
    is what a later [loadSavedPreference] finds, when the request
    succeeds and the option is one of the four; another option is
    stored and then refused by the load. When the request fails, the
    load gives what it gave before the save, whether the fallback write
    to the local storage worked or not: the fallback key is not read. *)
Theorem saved_preference_is_loaded_back (sortOption : string) (w later : World)
    (stores : Stores) (syncOk localOk : bool) :
  hasStorageSync w = true →
  hasStorageSync later = true →
  let request := ("sortPreference", sortOption) in
  let load stores :=
    resultOf (loadSavedPreference
                (storageGet true "sortPreference" (areaOf stores)) later) in
  storageSets (worldOf (savePreference sortOption w)) = storageSets w ++ [request]
  ∧ load (settle syncOk localOk request stores)
    = if syncOk
      then Some (if bool_decide (sortOption ∈ SORT_OPTIONS_values)
                 then Some sortOption else None)
      else load stores.
Proof.
  intros Hhas Hlater request load. subst request load. cbv beta. split.
  { unfold savePreference, modify. cbn. by rewrite Hhas. }
  destruct syncOk; [|by destruct localOk].
  unfold storageGet, settle. rewrite areaOf_lookup. cbn [syncStore fst snd].
  rewrite lookup_insert_eq. cbn [fmap option_fmap option_map].
  unfold loadSavedPreference. run_monad. rewrite Hlater.
  destruct (decide (sortOption ∈ SORT_OPTIONS_values)) as [Hin|Hout].
  - assert (sortOption ≠ "") as Hs by (intros ->; by apply empty_not_option).
    by rewrite (bool_decide_eq_false_2 _ Hs), (bool_decide_eq_true_2 _ Hin).
  - by rewrite (bool_decide_eq_false_2 _ Hout), andb_false_r.
Qed.

(** The witness of X15: the page world saves date-oldest, and a later
    page world loads it. *)
Lemma saved_preference_is_loaded_back_witness :
  resultOf (loadSavedPreference
              (storageGet true "sortPreference"
                 (areaOf (settle true false ("sortPreference", DATE_OLDEST)
                            (mkStores ∅ ∅))))
              (Fixtures.world Fixtures.prPage))
  = Some (Some DATE_OLDEST).
Proof.
  destruct (saved_preference_is_loaded_back DATE_OLDEST
              (Fixtures.world Fixtures.prPage) (Fixtures.world Fixtures.prPage)
              (mkStores ∅ ∅) true false) as [_ Hload]; [reflexivity..|].
  exact Hload.
Defined.

Section Migration.
Import Background.

Lemma defaults_fold_lookup (existing : gmap string Value)
    (defaults : list (string * Value)) (updates : gmap string Value) k :
  NoDup defaults.*1 →
  foldl (λ (updates : gmap string Value) kv,
           if decide (is_Some (existing !! kv.1)) then updates
           else <[kv.1 := kv.2]> updates) updates defaults !! k
  = match (if decide (is_Some (existing !! k)) then None
           else (list_to_map defaults : gmap string Value) !! k) with
    | Some v => Some v
    | None => updates !! k
    end.
Proof.
  revert updates. induction defaults as [|[k1 v1] rest IH]; intros updates Hnd.
  { cbn. by case_decide. }
  cbn [fmap list_fmap fst] in Hnd. apply NoDup_cons in Hnd as [Hk1 Hnd].
  cbn [foldl fst snd list_to_map foldr]. rewrite IH by done.
  destruct (decide (k = k1)) as [->|Hne].
  - rewrite lookup_insert_eq, (not_elem_of_list_to_map_1 _ _ Hk1).
    destruct (decide (is_Some (existing !! k1))); [done|].
    by rewrite lookup_insert_eq.
  - rewrite lookup_insert_ne by done.
    destruct (decide (is_Some (existing !! k)));
      [by case_decide; rewrite ?lookup_insert_ne|].
    destruct ((list_to_map rest : gmap string Value) !! k); [done|].
    case_decide; [done|]. by rewrite lookup_insert_ne.
Qed.

Lemma migrationUpdates_lookup (area : gmap string Value) k :
  migrationUpdates area !! k
  = match area !! k with
    | Some v =>
        if decide (k = "sortPreference" ∧ v = VString "date-oldest")
        then Some (VString "date-newest") else None
    | None => (list_to_map DEFAULT_PREFERENCES : gmap string Value) !! k
    end.
Proof.
  unfold migrationUpdates. rewrite defaults_fold_lookup.
  2: { apply (bool_decide_unpack _). by vm_compute. }
  destruct (area !! k) as [v|] eqn:Hk.
  - rewrite decide_True by (by eexists).
    destruct (decide (area !! "sortPreference" = Some (VString "date-oldest")))
      as [Hold|Hold].
    + destruct (decide (k = "sortPreference")) as [->|Hne].
      * rewrite lookup_singleton_eq. rewrite Hold in Hk. injection Hk as <-.
        by rewrite decide_True.
      * rewrite lookup_singleton_ne by done.
        rewrite decide_False; [done|]. by intros [? _].
    + rewrite lookup_empty. rewrite decide_False; [done|].
      intros [-> ->]. done.
  - rewrite decide_False by (by intros [? ?]).
    destruct ((list_to_map DEFAULT_PREFERENCES : gmap string Value) !! k) eqn:Hd; [done|].
    destruct (decide (area !! "sortPreference" = Some (VString "date-oldest")))
      as [Hold|Hold]; [|done].
    rewrite lookup_singleton_ne; [done|]. intros <-. congruence.
Qed.

Lemma migratePreferences_lookup (area : gmap string Value) k :
  (migratePreferences true true area).1 !! k
  = match migrationUpdates area !! k with
    | Some v => Some v
    | None => area !! k
    end.
Proof.
  unfold migratePreferences. cbv zeta.
  destruct (decide (migrationUpdates area = ∅)) as [He|Hne]; cbn [fst].
  - by rewrite He, lookup_empty.
  - unfold storageSet. rewrite lookup_union.
    by destruct (migrationUpdates area !! k), (area !! k).
Qed.

Lemma migrated_lookup (area : gmap string Value) k :
  (migratePreferences true true area).1 !! k
  = match area !! k with
    | Some v =>
        if decide (k = "sortPreference" ∧ v = VString "date-oldest")
        then Some (VString "date-newest") else Some v
    | None => (list_to_map DEFAULT_PREFERENCES : gmap string Value) !! k
    end.
Proof.
  rewrite migratePreferences_lookup, migrationUpdates_lookup.
  destruct (area !! k) as [v|]; [by case_decide|].
  by destruct (list_to_map DEFAULT_PREFERENCES !! k).
Qed.

Lemma migrated_never_oldest (area : gmap string Value) :
  (migratePreferences true true area).1 !! "sortPreference"
  ≠ Some (VString "date-oldest").
Proof.
  rewrite migrated_lookup. destruct (area !! "sortPreference") as [v|] eqn:Hs.
  - case_decide as Hd; [done|]. intros [= ->]. by apply Hd.
  - by vm_compute.
Qed.

(** X16. What an update of the extension leaves in the sync storage,
    when the storage answers: a stored sort preference date-oldest is
    replaced by date-newest, every other stored entry is kept as it is,
    and a key that is missing gets its default value when it is one of
    the five default preferences and stays missing otherwise. So all
    five default keys are present afterwards, and the sort preference
    is never date-oldest. *)
Theorem migratePreferences_completes_the_preferences (area : gmap string Value) :
  let migrated := (migratePreferences true true area).1 in
  (∀ k, migrated !! k
        = match area !! k with
          | Some v =>
              if decide (k = "sortPreference" ∧ v = VString "date-oldest")
              then Some (VString "date-newest") else Some v
          | None => (list_to_map DEFAULT_PREFERENCES : gmap string Value) !! k
          end)
  ∧ Forall (λ kv, is_Some (migrated !! kv.1)) DEFAULT_PREFERENCES
  ∧ migrated !! "sortPreference" ≠ Some (VString "date-oldest").
Proof.
  intros migrated. split; [apply migrated_lookup|]. split.
  - apply Forall_forall. intros [k v] Hkv. cbn [fst]. unfold migrated.
    rewrite migrated_lookup.
    destruct (area !! k) as [v'|]; [by case_decide|].
    apply (elem_of_list_to_map_1 (M := gmap string)) in Hkv.
    + by rewrite Hkv.
    + apply (bool_decide_unpack _). by vm_compute.
  - apply migrated_never_oldest.
Qed.

(** X17. The migration is idempotent: run on the storage that a
    migration has left, it finds nothing to update and issues no write.
    When the read fails, or when there is something to update and the
    write fails, the storage is left as it was and the error is
    logged. *)
Theorem migratePreferences_is_idempotent (area : gmap string Value) :
  let migrated := (migratePreferences true true area).1 in
  migrationUpdates migrated = ∅
  ∧ migratePreferences true true migrated = (migrated, [])
  ∧ migratePreferences false true area = (area, [Error migrationError])
  ∧ migratePreferences true false area
    = (area, if decide (migrationUpdates area = ∅) then []
             else [Error migrationError]).
Proof.
  intros migrated.
  assert (migrationUpdates migrated = ∅) as Hempty.
  { apply map_eq. intros k. rewrite lookup_empty, migrationUpdates_lookup.
    destruct (migrated !! k) as [v|] eqn:Hk.
    - rewrite decide_False; [done|]. intros [-> ->].
      by apply (migrated_never_oldest area).
    - unfold migrated in Hk. rewrite migrated_lookup in Hk.
      by destruct (area !! k); [case_decide|]. }
  split; [exact Hempty|]. split.
  - unfold migratePreferences. cbv zeta. by rewrite decide_True.
  - split; [done|]. unfold migratePreferences. cbv zeta. by case_decide.
Qed.

End Migration.

(** X18. What [loadSavedPreference] finds after the extension was
    installed or updated, when the storage answers. After the
    installation it finds date-newest, whatever was stored. After an
    update it finds date-newest when the stored sort preference was
    date-oldest or missing, and what it would have found before the
    update otherwise: a preference for date-oldest that the content
    script saved does not survive an update. *)
Theorem update_resets_oldest_first (reason : Background.InstallReason)
    (area : gmap string Value) (later : World) :
  hasStorageSync later = true →
  let load area :=
    resultOf (loadSavedPreference (storageGet true "sortPreference" area) later) in
  load (Background.onInstalled reason true true area).1
  = match reason with
    | Background.Install => Some (Some DATE_NEWEST)
    | Background.Update =>
        if decide (area !! "sortPreference" = Some (VString DATE_OLDEST)
                   ∨ area !! "sortPreference" = None)
        then Some (Some DATE_NEWEST)
        else load area
    | Background.OtherReason => load area
    end.
Proof.
  intros Hhas load. subst load. cbv beta.
  unfold storageGet, loadSavedPreference. run_monad. rewrite Hhas.
  destruct reason; cbn [Background.onInstalled fst]; [|rewrite migrated_lookup|done].
  - unfold storageSet. rewrite lookup_union.
    replace ((list_to_map Background.DEFAULT_PREFERENCES : gmap string Value)
               !! "sortPreference") with (Some (VString DATE_NEWEST)) by done.
    by destruct (area !! "sortPreference").
  - destruct (area !! "sortPreference") as [v|] eqn:Hs.
    + destruct (decide (v = VString DATE_OLDEST)) as [->|Hv].
      * rewrite decide_True by done. by rewrite decide_True by (by left).
      * rewrite (decide_False (P := _ ∧ _)) by (by intros [_ ?]).
        rewrite decide_False; [done|]. intros [[= ?]|?]; done.
    + by rewrite decide_True by (by right).
Qed.

(** The witness of X18: the content script has saved date-oldest, then
    the extension is updated. *)
Lemma update_resets_oldest_first_witness :
  let saved :=
    areaOf (settle true false ("sortPreference", DATE_OLDEST) (mkStores ∅ ∅)) in
  resultOf (loadSavedPreference
              (storageGet true "sortPreference"
                 (Background.onInstalled Background.Update true true saved).1)
              (Fixtures.world Fixtures.prPage))
  = Some (Some DATE_NEWEST).
Proof.
  intros saved.
  rewrite (update_resets_oldest_first Background.Update saved
             (Fixtures.world Fixtures.prPage)) by reflexivity.
  by vm_compute.
Defined.

(* ===================================================================== *)
(** ** The sort indicator *)
(* ===================================================================== *)

Lemma toggle_idemp token force classes :
  Indicator.toggle token force (Indicator.toggle token force classes)
  = Indicator.toggle token force classes.
Proof.
  unfold Indicator.toggle. destruct force.
  - destruct (bool_decide (token ∈ classes)) eqn:Hin; [by rewrite Hin|].
    rewrite bool_decide_eq_true_2; [done|]. apply elem_of_app. right. by left.
  - by apply list_filter_filter_l.
Qed.

Lemma elem_of_toggle token force classes c :
  c ∈ Indicator.toggle token force classes
  ↔ if decide (c = token) then force = true else c ∈ classes.
Proof.
  unfold Indicator.toggle. destruct force.
  - destruct (bool_decide (token ∈ classes)) eqn:Hin.
    + apply bool_decide_eq_true in Hin. case_decide; [by subst|done].
    + apply bool_decide_eq_false in Hin. rewrite elem_of_app, list_elem_of_singleton.
      case_decide; [by split; [|right]|]. split; [by intros [?|?]|by left].
  - rewrite list_elem_of_filter. case_decide; [|tauto].
    split; [by intros [? _]|done].
Qed.

Lemma indicated_idemp sortOption nd :
  indicated sortOption (indicated sortOption nd) = indicated sortOption nd.
Proof.
  unfold indicated. destruct nd as [ty ln i cl ats p ch da op oh ow].
  cbn [attrs classList withAttrs Indicator.withClassList nodeType localName nid
       parentNode childNodes data offsetParent offsetHeight offsetWidth].
  rewrite lookup_insert_ne by done. rewrite toggle_idemp.
  by rewrite insert_insert_eq.
Qed.

Lemma indicated_shapeKept sortOption : shapeKept (indicated sortOption).
Proof. done. Qed.

Lemma indicate_lookup sortOption btn d x :
  nodes (Indicator.indicate sortOption btn d) !! x
  = if decide (x = btn) then indicated sortOption <$> nodes d !! x
    else nodes d !! x.
Proof.
  unfold Indicator.indicate, setAttribute. rewrite !lookup_update.
  destruct (decide (btn = x)) as [->|Hne].
  - rewrite decide_True by done. unfold getAttribute.
    destruct (nodes d !! x) as [nd|]; [|done]. by destruct nd.
  - by rewrite decide_False by done.
Qed.

Lemma indicate_all_lookup sortOption l d x :
  nodes (foldl (λ d btn, Indicator.indicate sortOption btn d) d l) !! x
  = if decide (x ∈ l) then indicated sortOption <$> nodes d !! x
    else nodes d !! x.
Proof.
  revert d. induction l as [|b l IH]; intros d; [done|].
  cbn [foldl]. rewrite IH, indicate_lookup.
  destruct (decide (x = b)) as [->|Hne].
  - rewrite (decide_True (P := b ∈ b :: l)) by (by left).
    case_decide; [|done]. destruct (nodes d !! b) as [nd|]; [|done].
    cbn. by rewrite indicated_idemp.
  - destruct (decide (x ∈ l)) as [Hin|Hout].
    + by rewrite decide_True by (by right).
    + rewrite decide_False; [done|]. by intros [?| ?]%elem_of_cons.
Qed.

Lemma indicate_all_documentElement sortOption l d :
  documentElement (foldl (λ d btn, Indicator.indicate sortOption btn d) d l)
  = documentElement d.
Proof.
  revert d. induction l as [|b l IH]; intros d; [done|]. cbn [foldl].
  by rewrite IH.
Qed.

Lemma lookup_sameShape (f : Node → Node) (P : nat → Prop) `{∀ x, Decision (P x)} d d' :
  shapeKept f →
  documentElement d' = documentElement d →
  (∀ x, nodes d' !! x = if decide (P x) then f <$> nodes d !! x else nodes d !! x) →
  sameShape d d'.
Proof.
  intros Hf Hroot Hl. split; [done|]. intros x.
  unfold parentOf, childNodesOf, isElement. rewrite Hl.
  destruct (decide (P x)); [|done].
  destruct (nodes d !! x) as [nd|]; cbn; [|by rewrite !is_Some_alt].
  destruct (Hf nd) as (-> & -> & ->). by rewrite !is_Some_alt.
Qed.

(** X19. [updateSortIndicator] shows one option. It does not throw
    and leaves the tree and every node that is not a sort button as
    they are. Each sort button keeps its option and its other classes;
    it has the class active, and the attribute aria-pressed is "true",
    exactly when its option is the one given, and aria-pressed is
    "false" otherwise. *)
Theorem updateSortIndicator_marks_the_option (sortOption : string) (d : Document) :
  ∃ d',
    Indicator.updateSortIndicator sortOption d = Ok d'
    ∧ sameShape d d'
    ∧ (∀ x, x ∉ Indicator.sortButtons d → nodes d' !! x = nodes d !! x)
    ∧ ∀ btn, btn ∈ Indicator.sortButtons d →
        let isActive := bool_decide (getAttribute d btn "data-sort" = Some sortOption) in
        getAttribute d' btn "data-sort" = getAttribute d btn "data-sort"
        ∧ UI.hasClass d' btn "active" = isActive
        ∧ getAttribute d' btn "aria-pressed"
          = Some (if isActive then "true" else "false")
        ∧ ∀ c, c ≠ "active" → UI.hasClass d' btn c = UI.hasClass d btn c.
Proof.
  eexists. split; [reflexivity|].
  set (d' := foldl _ d _).
  assert (∀ x, nodes d' !! x
               = if decide (x ∈ Indicator.sortButtons d)
                 then indicated sortOption <$> nodes d !! x
                 else nodes d !! x) as Hl by apply indicate_all_lookup.
  split.
  { apply (lookup_sameShape (indicated sortOption)
             (λ x, x ∈ Indicator.sortButtons d)); [done| |done].
    apply indicate_all_documentElement. }
  split.
  { intros x Hx. by rewrite Hl, decide_False. }
  intros btn Hbtn isActive. subst isActive.
  unfold getAttribute, UI.hasClass. rewrite Hl, decide_True by done.
  destruct (nodes d !! btn) as [nd|] eqn:Hn;
    cbn [fmap option_fmap option_map mbind option_bind].
  2: { apply list_elem_of_filter in Hbtn as [[v Hv] _].
       unfold getAttribute in Hv. by rewrite Hn in Hv. }
  unfold indicated. destruct nd as [ty ln i cl ats p ch da op oh ow].
  cbn [attrs classList withAttrs Indicator.withClassList].
  split; [by rewrite lookup_insert_ne|].
  split.
  { apply bool_decide_ext. rewrite elem_of_toggle, decide_True by done.
    by rewrite bool_decide_eq_true. }
  split; [by rewrite lookup_insert_eq|].
  intros c Hc. apply bool_decide_ext. by rewrite elem_of_toggle, decide_False.
Qed.

Lemma subtree_sameShape d d' fuel n :
  sameShape d d' → subtree fuel (nodes d') n = subtree fuel (nodes d) n.
Proof.
  intros [_ Hs]. revert n. induction fuel as [|f IH]; intros n; [done|].
  cbn [subtree]. destruct (Hs n) as (Hdom & _ & Hkids & _).
  unfold childNodesOf in Hkids.
  destruct (nodes d' !! n) as [nd'|], (nodes d !! n) as [nd|].
  - rewrite Hkids. f_equal. clear Hkids.
    induction (childNodes nd) as [|k l IHl]; [done|].
    cbn [flat_map]. by rewrite IH, IHl.
  - destruct (proj1 Hdom) as [? ?]; [by eexists|done].
  - destruct (proj2 Hdom) as [? ?]; [by eexists|done].
  - done.
Qed.

Lemma documentOrder_sameShape d d' :
  sameShape d d' → documentOrder d' = documentOrder d.
Proof.
  intros Hs. unfold documentOrder, inclusiveDescendants.
  rewrite (size_same_domain (nodes d) (nodes d')) by (intros x; apply Hs).
  destruct Hs as [Hroot Hs]. rewrite Hroot. apply subtree_sameShape. by split.
Qed.

Lemma indicated_matches_class sortOption c nd :
  c ≠ "active" →
  matchesNode [byClass c] (indicated sortOption nd) = matchesNode [byClass c] nd.
Proof.
  intros Hc. destruct nd as [ty ln i cl ats p ch da op oh ow].
  unfold matchesNode, matchesCompound, indicated, byClass.
  cbn [existsb selTag selId selClasses selAttrs forallb nodeType classList
       withAttrs Indicator.withClassList attrs].
  do 4 f_equal. apply bool_decide_ext. by rewrite elem_of_toggle, decide_False.
Qed.

Lemma indicated_sort_option sortOption nd :
  attrs (indicated sortOption nd) !! "data-sort" = attrs nd !! "data-sort".
Proof. destruct nd. unfold indicated. cbn. by rewrite lookup_insert_ne. Qed.

(** X20. [updateSortIndicator] is idempotent: the document it leaves
    has the same sort buttons, and a second call with the same option
    gives that document again, unchanged. *)
Theorem updateSortIndicator_is_idempotent (sortOption : string) (d : Document) :
  ∃ d',
    Indicator.updateSortIndicator sortOption d = Ok d'
    ∧ Indicator.sortButtons d' = Indicator.sortButtons d
    ∧ Indicator.updateSortIndicator sortOption d' = Ok d'.
Proof.
  eexists. split; [reflexivity|].
  set (d' := foldl _ d _).
  assert (∀ x, nodes d' !! x
               = if decide (x ∈ Indicator.sortButtons d)
                 then indicated sortOption <$> nodes d !! x
                 else nodes d !! x) as Hl by apply indicate_all_lookup.
  assert (documentElement d' = documentElement d) as Hroot
    by apply indicate_all_documentElement.
  assert (sameShape d d') as Hshape.
  { by apply (lookup_sameShape (indicated sortOption)
                (λ x, x ∈ Indicator.sortButtons d)). }
  assert (Indicator.sortButtons d' = Indicator.sortButtons d) as Hbtns.
  { unfold Indicator.sortButtons, querySelectorAll.
    rewrite (documentOrder_sameShape d d' Hshape).
    rewrite (filter_iff_in (λ n, matches d' [byClass "pr-sorter-btn"] n = true)
               (λ n, matches d [byClass "pr-sorter-btn"] n = true)).
    2: { intros x _. unfold matches. rewrite Hl. case_decide; [|done].
         destruct (nodes d !! x); [|done]. cbn [fmap option_fmap option_map].
         by rewrite indicated_matches_class. }
    apply filter_iff_in. intros x _. unfold getAttribute. rewrite Hl.
    case_decide; [|done]. destruct (nodes d !! x); [|done].
    cbn [fmap option_fmap option_map mbind option_bind].
    by rewrite indicated_sort_option. }
  split; [exact Hbtns|].
  unfold Indicator.updateSortIndicator. cbv zeta. rewrite Hbtns. f_equal.
  set (d'' := foldl _ d' _).
  assert (nodes d'' = nodes d') as Hnodes.
  { apply map_eq. intros x. unfold d''. rewrite indicate_all_lookup, Hl.
    case_decide; [|done]. destruct (nodes d !! x); [|done]. cbn.
    by rewrite indicated_idemp. }
  assert (documentElement d'' = documentElement d') as Hroot'
    by apply indicate_all_documentElement.
  destruct d'', d'. cbn in *. by subst.
Qed.

(* ===================================================================== *)
(** ** A second move of the merge status box *)
(* ===================================================================== *)

Lemma matches_cons d c c' s x :
  matches d (c :: c' :: s) x = matches d [c] x || matches d (c' :: s) x.
Proof.
  unfold matches. destruct (nodes d !! x); [|done].
  unfold matchesNode. cbn [existsb]. by rewrite orb_false_r.
Qed.

Lemma matches_byClass d c x :
  matches d [byClass c] x = isElement d x && UI.hasClass d x c.
Proof.
  unfold matches, isElement, UI.hasClass. destruct (nodes d !! x) as [nd|]; [|done].
  unfold matchesNode, matchesCompound, byClass.
  cbn [existsb selTag selId selClasses selAttrs forallb].
  by rewrite orb_false_r, !andb_true_r.
Qed.

Lemma matches_byId_bool d i x :
  matches d [byId i] x = isElement d x && bool_decide (idOf d x = i).
Proof.
  unfold matches, isElement, idOf. destruct (nodes d !! x) as [nd|]; [|done].
  unfold matchesNode, matchesCompound, byId.
  cbn [existsb selTag selId selClasses selAttrs forallb].
  by rewrite orb_false_r, !andb_true_r.
Qed.

Lemma hasClass_update k f d x c :
  (∀ nd, classList (f nd) = classList nd) →
  UI.hasClass (update k f d) x c = UI.hasClass d x c.
Proof.
  intros Hf. unfold UI.hasClass. rewrite lookup_update.
  case_decide; [|done]. subst. destruct (nodes d !! x); [|done]. cbn.
  by rewrite Hf.
Qed.

Lemma recordOrigin_hasClass mb p sib t d x c :
  UI.hasClass (recordOrigin mb p sib t d) x c = UI.hasClass d x c.
Proof.
  unfold recordOrigin, setAttribute, setId.
  destruct sib as [s|]; [case_decide|]; by rewrite !hasClass_update.
Qed.

(** The record of the original position makes no node a candidate. *)
Lemma recordOrigin_candidates d mb p sib t x :
  is_Some (nodes d !! mb) →
  match sib with Some s => is_Some (nodes d !! s) ∧ s ≠ mb | None => True end →
  matches (recordOrigin mb (Some p) sib t d) mergeCandidates x = true →
  matches d mergeCandidates x = true.
Proof.
  intros Hmb Hsib.
  destruct (recordOrigin_facts d mb p sib t Hmb Hsib)
    as ([_ Hsh] & _ & _ & _ & _ & Hids).
  unfold mergeCandidates. rewrite !matches_cons, !matches_byClass, !matches_byId_bool.
  rewrite !recordOrigin_hasClass.
  destruct (Hsh x) as (_ & _ & _ & ->).
  replace (bool_decide (idOf (recordOrigin mb (Some p) sib t d) x
                        = "partial-pull-merging"))
    with (bool_decide (idOf d x = "partial-pull-merging")); [done|].
  apply bool_decide_ext. rewrite Hids. destruct sib as [s|]; [|done].
  destruct (decide (x = s ∧ idOf d s = "")) as [[-> He]|Hd]; [|done]. rewrite He.
  split; [done|]. intros Heq. apply (f_equal (String.get 1)) in Heq. done.
Qed.

Lemma firstMatch_Some d sels x :
  UI.firstMatch d sels = Some x →
  ∃ s, s ∈ sels ∧ x ∈ documentOrder d ∧ matches d s x = true.
Proof.
  induction sels as [|s r IH]; [done|]. cbn [UI.firstMatch].
  destruct (querySelector d s) as [e|] eqn:Hq.
  - intros [= <-]. exists s. split; [by left|]. by apply querySelector_Some.
  - intros Hx. destruct (IH Hx) as (s' & Hs' & Hm). exists s'. split; [by right|done].
Qed.

Lemma matches_candidate d s x :
  s ∈ UI.mergeBoxSelectors
        ++ [[byClass "merge-message"]; [byClass "branch-action-body"];
            [byClass "branch-action-item"]] →
  matches d s x = true → matches d mergeCandidates x = true.
Proof.
  intros Hs Hm. unfold mergeCandidates. rewrite !matches_cons.
  unfold UI.mergeBoxSelectors in Hs. cbn [app] in Hs.
  repeat (apply elem_of_cons in Hs as [->|Hs];
          [rewrite Hm; by rewrite ?orb_true_r|]).
  by apply elem_of_nil in Hs.
Qed.

Lemma findMergeBox_candidate d x :
  UI.findMergeBox d = Some x → matches d mergeCandidates x = true.
Proof.
  unfold UI.findMergeBox.
  destruct (UI.firstMatch d UI.mergeBoxSelectors) as [y|] eqn:Hf.
  - intros [= <-]. destruct (firstMatch_Some _ _ _ Hf) as (s & Hs & _ & Hm).
    apply (matches_candidate d s); [|done]. apply elem_of_app. by left.
  - destruct (UI.firstMatch d [[byClass "merge-message"]; [byClass "branch-action-body"]])
      as [c|] eqn:Hc; [|done].
    destruct (firstMatch_Some _ _ _ Hc) as (s & Hs & _ & Hm).
    destruct (closest d c [byClass "branch-action-item"]) as [item|] eqn:Hi.
    + intros [= <-].
      apply (head_filter_Some (λ n, matches d [byClass "branch-action-item"] n = true))
        in Hi as [_ Hi].
      apply (matches_candidate d [byClass "branch-action-item"]); [|done].
      apply elem_of_app. right. right. right. left.
    + intros [= <-]. apply (matches_candidate d s); [|done].
      apply elem_of_app. right.
      apply elem_of_cons in Hs as [->|Hs]; [left|right].
      apply elem_of_cons in Hs as [->|Hs]; [left|by apply elem_of_nil in Hs].
Qed.

(** X21. A second move changes nothing. On a well-formed conversation
    page where the merge box found is the only node that any of the
    merge box selectors matches, is not marked as moved and is not an
    inclusive ancestor of the parent of the controls, a first
    [moveMergeStatusToTop] moves the box, and a second one, run on the
    world that the first left, ends normally and leaves that world as
    it is. *)
Theorem moveMergeStatusToTop_is_idempotent (w : World) (mb sc scParent : nat) :
  let d := document w in
  wellFormed d = true →
  UI.isConversationTab w = true →
  UI.findMergeBox d = Some mb →
  getAttribute d mb "data-moved-to-top" ≠ Some "true" →
  querySelector d UI.controlsSelector = Some sc →
  parentOf d sc = Some scParent →
  bool_decide (mb ∈ inclusiveAncestors d scParent) = false →
  onlyMergeCandidate d mb = true →
  ∃ w1,
    UI.moveMergeStatusToTop w = Return () w1
    ∧ parentOf (document w1) mb = Some scParent
    ∧ UI.moveMergeStatusToTop w1 = Return () w1.
Proof.
  intros d Hwf Hconv Hmb Hfresh Hsc Hscp Hnotin Honly.
  apply bool_decide_eq_false in Hnotin.
  destruct (moveMergeStatusToTop_moves w mb sc scParent Hwf Hconv Hmb Hfresh
              Hsc Hscp Hnotin)
    as (p & da & d1 & Hp & Hda & Hmove & Hmoved & Hcontent & Hmarked & Hin).
  fold d in Hp, Hda, Hmoved.
  exists (withDocument d1 w). split; [exact Hmove|].
  split. { destruct Hmoved as (_ & _ & Hpar & _). cbn. by rewrite Hpar, decide_True. }
  assert (∀ y, UI.findMergeBox d1 = Some y → y = mb) as Hsame.
  { intros y Hy. apply findMergeBox_candidate in Hy.
    destruct (Hcontent y) as (_ & _ & Hm). rewrite Hm, Hda in Hy.
    apply recordOrigin_candidates in Hy.
    - assert (y ∈ nodesWhere (matchesNode mergeCandidates) d) as Hy'.
      { apply elem_of_nodesWhere. unfold matches in Hy.
        destruct (nodes d !! y) as [nd|]; [by exists nd|done]. }
      apply (forallb_elem_of _ _ _ Honly) in Hy'.
      by apply bool_decide_eq_true in Hy'.
    - apply isElement_is_Some. by apply (findMergeBox_attached d mb Hwf).
    - destruct (nextSibling d mb) as [s|] eqn:Hs; [|done].
      unfold nextSibling in Hs. rewrite Hp in Hs. cbn in Hs.
      destruct (after_elem_of mb _ s (wellFormed_NoDup d p Hwf) Hs) as [Hsin Hne].
      split; [|done].
      pose proof (wellFormed_child_parent d p s Hwf Hsin) as Hsp.
      unfold parentOf in Hsp. destruct (nodes d !! s); [by eexists|done]. }
  unfold UI.moveMergeStatusToTop. run_monad. cbn beta iota.
  destruct (UI.isConversationTab (withDocument d1 w)); [|done]. cbn [negb].
  cbn [document withDocument].
  destruct (UI.findMergeBox d1) as [y|] eqn:Hy; [|done].
  rewrite (Hsame y eq_refl). cbn beta iota.
  destruct (Hcontent mb) as (_ & Hattr & _). rewrite Hattr, Hmarked.
  by rewrite decide_True.
Qed.

(** The witness of X21: the merge box 16 of the page. *)
Lemma moveMergeStatusToTop_is_idempotent_witness :
  ∃ w1,
    UI.moveMergeStatusToTop (Fixtures.world Fixtures.prPage) = Return () w1
    ∧ parentOf (document w1) 16 = Some 1%nat
    ∧ UI.moveMergeStatusToTop w1 = Return () w1.
Proof.
  apply (moveMergeStatusToTop_is_idempotent (Fixtures.world Fixtures.prPage) 16 13 1);
    by vm_compute.
Defined.

(* ===================================================================== *)
(** ** Sorting again, and the status of enclosing elements *)
(* ===================================================================== *)

Lemma arraySort_of_sorted {A} (compare : A → A → number) l :
  Sorted (λ x y, isPositive (compare x y) = false) l →
  arraySort compare l = l.
Proof.
  induction 1 as [|x l Hl IH Hhd]; [done|].
  rewrite arraySort_cons, IH. destruct Hhd as [|y r Hxy]; [done|].
  cbn [insertSorted]. by rewrite Hxy.
Qed.

Lemma compareChildren_antisymmetric `{Host} sortOption d a b :
  isPositive (Sorting.compareChildren sortOption d a b) = true →
  isPositive (Sorting.compareChildren sortOption d b a) = false.
Proof.
  unfold Sorting.compareChildren.
  destruct (Sorting.dateOf d a) as [x|], (Sorting.dateOf d b) as [y|],
    (Comments.isCommentResolved d a), (Comments.isCommentResolved d b);
    repeat case_decide; cbn; rewrite ?Z.ltb_lt, ?Z.ltb_ge; try done; lia.
Qed.

(** X22. Sorting what is sorted changes nothing: when every child has
    a valid date, then for every sort option the order that the
    comparison of [applySorting] produces is left as it is when it is
    sorted again with the same option. *)
Theorem applySorting_order_is_a_fixed_point `{Host} (sortOption : string)
    (d : Document) (l : list nat) :
  datesValid d l = true →
  let sorted := arraySort (Sorting.compareChildren sortOption d) l in
  arraySort (Sorting.compareChildren sortOption d) sorted = sorted.
Proof.
  intros _ sorted. apply arraySort_of_sorted. subst sorted.
  apply arraySort_Sorted. intros a b _ _.
  destruct (isPositive (Sorting.compareChildren sortOption d a b)) eqn:Hab; [|done].
  by apply compareChildren_antisymmetric.
Qed.

(** The witness of X22: three threads, two of one date, sorted by
    resolved-last and sorted again. *)
Lemma applySorting_order_is_a_fixed_point_witness :
  let compare :=
    @Sorting.compareChildren Fixtures.isoHost RESOLVED_LAST Samples.tiedThreads in
  arraySort compare [20; 21; 22]%nat = [21; 20; 22]%nat
  ∧ arraySort compare (arraySort compare [20; 21; 22]%nat)
    = arraySort compare [20; 21; 22]%nat.
Proof.
  split; [by vm_compute|].
  apply (applySorting_order_is_a_fixed_point (H := Fixtures.isoHost) RESOLVED_LAST
           Samples.tiedThreads [20; 21; 22]%nat). by vm_compute.
Defined.

Lemma descendants_cons d e :
  is_Some (nodes d !! e) → inclusiveDescendants d e = e :: descendants d e.
Proof.
  intros [nd Hnd]. unfold descendants, inclusiveDescendants. cbn [subtree].
  by rewrite Hnd.
Qed.

Lemma subtree_lookup m f n x : x ∈ subtree f m n → is_Some (m !! n).
Proof.
  destruct f; cbn [subtree]; [by intros ?%elem_of_nil|].
  destruct (m !! n); [by eexists|by intros ?%elem_of_nil].
Qed.

(** In a well-formed document the descendants of a descendant are
    descendants. *)
Lemma descendants_trans d e e' x :
  wellFormed d = true →
  e' ∈ descendants d e → x ∈ descendants d e' → x ∈ descendants d e.
Proof.
  intros Hwf He' Hx.
  assert (∀ a b, b ∈ descendants d a →
            ∃ j, up (nodes d) (S j) b = Some a ∧ is_Some (nodes d !! a)) as Hup.
  { intros a b Hb.
    assert (is_Some (nodes d !! a)) as Ha.
    { apply elem_of_tail in Hb. by apply subtree_lookup in Hb. }
    pose proof Hb as Hb'. apply elem_of_tail in Hb'.
    destruct (subtree_up d _ _ _ Hwf Hb') as ([|j] & _ & Hj); [|by exists j].
    injection Hj as ->. exfalso.
    rewrite (descendants_cons d a Ha) in Hb'.
    unfold descendants, inclusiveDescendants in Hb. cbn [subtree] in Hb.
    destruct Ha as [nd Hnd]. rewrite Hnd in Hb. cbn [tail] in Hb.
    apply list_elem_of_In, in_flat_map in Hb as (k & Hk & Hin).
    apply list_elem_of_In in Hk, Hin.
    destruct (subtree_up d _ _ _ Hwf Hin) as (i & _ & Hi).
    assert (parentOf d k = Some a) as Hpk.
    { apply (wellFormed_child_parent d a k Hwf). unfold childNodesOf. by rewrite Hnd. }
    pose proof (up_snoc _ _ _ _ _ Hi Hpk) as Hcycle.
    pose proof (up_depth d _ _ _ Hwf Hcycle). lia. }
  destruct (Hup e e' He') as (j & Hj & He).
  destruct (Hup e' x Hx) as (k & Hk & _).
  assert (up (nodes d) (S k + S j) x = Some e) as Hxe
    by (by rewrite (up_add _ _ _ _ _ Hk)).
  pose proof (up_depth d _ _ _ Hwf Hxe) as Hdepth.
  pose proof (depth_le_size d x) as Hsize.
  assert (x ∈ inclusiveDescendants d e) as Hin.
  { apply (subtree_mono _ _ (S (S k + S j))); [lia|].
    apply up_subtree; [done| |].
    - apply elem_of_tail in Hx. destruct (subtree_up d _ _ _ Hwf Hx) as (i & _ & Hi).
      apply (up_is_Some _ _ _ _ Hi). by apply subtree_lookup in Hx.
    - intros i y q _ _ Hq. rewrite <- parentOf_lookup in Hq.
      destruct (wellFormed_parent d y q Hwf Hq) as [Hyin _].
      by apply elem_of_childNodesOf. }
  rewrite (descendants_cons d e He) in Hin.
  apply elem_of_cons in Hin as [->|Hin]; [lia|done].
Qed.

(** X23. The unresolved status is inherited upwards. In a well-formed
    document, an element that has among its descendants an element
    classified as not resolved is classified as not resolved itself: a
    timeline item counts as unresolved as soon as anything inside it
    holds an unresolved thread. *)
Theorem unresolved_inside_makes_unresolved (d : Document) (e e' : nat) :
  wellFormed d = true →
  bool_decide (e' ∈ descendants d e) = true →
  Comments.isCommentResolved d e' = false →
  Comments.isCommentResolved d e = false.
Proof.
  intros Hwf He' Hun. apply bool_decide_eq_true in He'.
  unfold Comments.isCommentResolved, querySelectorIn, querySelectorAllIn in *.
  destruct (head (filter _ (descendants d e'))) as [x|] eqn:Hx; [|done].
  apply (head_filter_Some (λ n, matches d Comments.unresolvedSelector n = true))
    in Hx as [Hin Hm].
  destruct (head (filter _ (descendants d e))) as [y|] eqn:Hy; [done|].
  pose proof (proj1 (head_filter_None
    (λ n, matches d Comments.unresolvedSelector n = true) _) Hy) as Hnone.
  destruct (Hnone x); [|done]. by apply (descendants_trans d e e').
Qed.

(** The witness of X23: the discussion 3 of the page holds the
    unresolved thread 6. *)
Lemma unresolved_inside_makes_unresolved_witness :
  Comments.isCommentResolved Fixtures.prPage 3 = false.
Proof.
  apply (unresolved_inside_makes_unresolved Fixtures.prPage 3 6); by vm_compute.
Defined.

(* ===================================================================== *)
(** ** When the insertion throws *)
(* ===================================================================== *)

Lemma insertBefore_throws p n child d e :
  insertBefore p n child d = Throw e →
  e = HierarchyRequestError ∨ e = NotFoundError.
Proof.
  unfold insertBefore. repeat case_match; intros [= <-]; (by left) || (by right).
Qed.

(** X24. A restoration that throws changes nothing.
    [restoreMergeStatusPosition] either ends normally, or it throws the
    error of the insertion (the recorded sibling is not a child of the
    parent found, or the parent lies inside the box) and leaves the
    world as it was: the box stays where it is, with its mark and its
    record, so that the restoration can be tried again. *)
Theorem restoreMergeStatusPosition_throws_without_change (w : World) :
  (∃ w', UI.restoreMergeStatusPosition w = Return () w')
  ∨ (∃ e, UI.restoreMergeStatusPosition w = Raise e w
          ∧ (e = HierarchyRequestError ∨ e = NotFoundError)).
Proof.
  unfold UI.restoreMergeStatusPosition. run_monad. cbn beta iota.
  destruct (querySelector (document w) [byAttr "data-moved-to-top" "true"])
    as [mb|]; [|left; by eexists].
  match goal with
  | |- context [match ?found with Some _ => mutate _ | None => _ end] =>
      destruct found as [p|]
  end.
  2: { left. by eexists. }
  unfold mutate.
  match goal with
  | |- context [insertBefore ?a ?b ?c ?d] =>
      destruct (insertBefore a b c d) as [d2|e] eqn:Hins
  end.
  - left. by eexists.
  - right. exists e. split; [done|]. by apply insertBefore_throws in Hins.
Qed.

Lemma matches_is_Some d s x : matches d s x = true → is_Some (nodes d !! x).
Proof. unfold matches. destruct (nodes d !! x); [by eexists|done]. Qed.

Lemma recordOrigin_marks d mb p sib t :
  is_Some (nodes d !! mb) →
  let da := recordOrigin mb p sib t d in
  sameShape d da ∧ getAttribute da mb "data-moved-to-top" = Some "true".
Proof.
  intros Hmb. cbv zeta. unfold recordOrigin.
  set (d1 := setAttribute mb "data-moved-to-top" "true" d).
  set (d2 := setAttribute mb "data-original-parent-id" _ d1).
  assert (sameShape d d2) as Hs2.
  { eapply sameShape_trans; apply setAttribute_sameShape. }
  assert (getAttribute d2 mb "data-moved-to-top" = Some "true") as Hm2.
  { unfold d2. rewrite getAttribute_setAttribute_ne by by right.
    by apply getAttribute_setAttribute_eq. }
  destruct sib as [s|]; [|done]. split.
  - eapply sameShape_trans; [|apply setAttribute_sameShape].
    case_decide; [|done]. eapply sameShape_trans; [exact Hs2|apply setId_sameShape].
  - rewrite getAttribute_setAttribute_ne by by right.
    case_decide; [|done]. by rewrite getAttribute_setId.
Qed.

(** X25. [moveMergeStatusToTop] marks the box before it moves it. The
    function either ends normally, or it throws at the insertion, and
    then the world it leaves differs from the one before in the
    document only: the tree is the same, but the merge box found
    carries the mark of a moved box although it did not move. *)
Theorem moveMergeStatusToTop_marks_before_it_moves (w : World) :
  (∃ w', UI.moveMergeStatusToTop w = Return () w')
  ∨ (∃ e mb da,
       UI.moveMergeStatusToTop w = Raise e (withDocument da w)
       ∧ UI.findMergeBox (document w) = Some mb
       ∧ getAttribute (document w) mb "data-moved-to-top" ≠ Some "true"
       ∧ sameShape (document w) da
       ∧ getAttribute da mb "data-moved-to-top" = Some "true").
Proof.
  destruct (UI.isConversationTab w) eqn:Hconv.
  2: { left. exists w. unfold UI.moveMergeStatusToTop. run_monad. by rewrite Hconv. }
  destruct (UI.findMergeBox (document w)) as [mb|] eqn:Hmb.
  2: { left. exists w. unfold UI.moveMergeStatusToTop. run_monad. cbn beta iota.
       rewrite Hconv. cbn [negb]. by rewrite Hmb. }
  destruct (decide (getAttribute (document w) mb "data-moved-to-top" = Some "true"))
    as [Hmarked|Hfresh].
  { left. exists w. unfold UI.moveMergeStatusToTop. run_monad. cbn beta iota.
    rewrite Hconv. cbn [negb]. rewrite Hmb. cbn beta iota.
    by rewrite decide_True. }
  destruct (querySelector (document w) UI.controlsSelector) as [sc|] eqn:Hsc.
  2: { left. exists w. unfold UI.moveMergeStatusToTop. run_monad. cbn beta iota.
       rewrite Hconv. cbn [negb]. rewrite Hmb. cbn beta iota.
       rewrite decide_False by done. by rewrite Hsc. }
  pose proof (matches_is_Some _ _ _ (findMergeBox_candidate _ _ Hmb)) as Hdom.
  destruct (recordOrigin_marks (document w) mb (parentOf (document w) mb)
              (nextSibling (document w) mb) (now w) Hdom) as [Hshape Hmark].
  destruct (parentOf (document w) sc) as [scParent|] eqn:Hscp.
  - rewrite (moveMergeStatusToTop_unfold w mb sc scParent Hconv Hmb Hfresh Hsc Hscp).
    unfold mutate. cbn [document withDocument].
    destruct (insertBefore _ _ _ _) as [d1|e]; [left; by eexists|].
    right. eexists e, mb, _. by split.
  - unfold UI.moveMergeStatusToTop, safeQuery, gets, mbind, M_bind.
    cbn beta iota. rewrite Hconv. cbn beta iota delta [negb]. rewrite Hmb.
    cbn beta iota. rewrite decide_False by done. rewrite Hsc. cbn beta iota.
    rewrite Hscp.
    destruct (decide (sc = documentElement (document w))) as [Hroot|Hroot].
    + right. exists HierarchyRequestError, mb,
        (recordOrigin mb (parentOf (document w) mb)
           (nextSibling (document w) mb) (now w) (document w)).
      split; [|done]. unfold recordOrigin.
      destruct (nextSibling (document w) mb) as [s|];
        [destruct (decide (idOf (document w) s = ""))|]; reflexivity.
    + left. unfold recordOrigin.
      destruct (nextSibling (document w) mb) as [s|];
        [destruct (decide (idOf (document w) s = ""))|]; by eexists.
Qed.

(** The second case occurs: with the controls inside the merge box the
    insertion throws, and the box is left marked. *)
Lemma moveMergeStatusToTop_can_throw :
  let w := Fixtures.world Samples.nestedControls in
  wellFormed (document w) = true
  ∧ UI.findMergeBox (document w) = Some 16%nat
  ∧ resultOf (UI.moveMergeStatusToTop w) = None
  ∧ getAttribute (document (worldOf (UI.moveMergeStatusToTop w))) 16
      "data-moved-to-top" = Some "true"
  ∧ parentOf (document (worldOf (UI.moveMergeStatusToTop w))) 16 = Some 2%nat.
Proof. by vm_compute. Qed.
